(** * A shallow embedding of the sampling KNN baseline

    The development follows the two translation units of the repository:
    [src/io.cpp] (namespace [knn]: [ReadBin], [SaveKNN]) and
    [src/baseline.cpp] ([compare_with_id] and the per-query loop of [main]).

    - [float] is IEEE 754 binary32, modelled by [spec_float] at precision 24
      and maximal exponent 128; every operation is rounded to binary32, to
      nearest with ties to even.
    - [uint32_t] and [int32_t] are [Z] with the wrap-around written out.
    - [std::vector<T>] is [list T]; an access out of range, a float-to-integer
      conversion whose truncated value is not representable and a call of
      [std::ranges::sort] with a comparator that is not a strict weak order
      are undefined behaviour, reported as [Undefined].
    - a failed [assert] is reported as [Aborted]. *)

From Stdlib Require Import ZArith List Bool Lia Permutation Sorted.
From Stdlib Require Import Floats.SpecFloat Strings.Byte.
From stdpp Require Import base list sorting.

Import ListNotations.
Local Open Scope Z_scope.

(** ** Outcomes of a run *)

Inductive outcome (A : Type) : Type :=
| Ok (a : A)
| Aborted
| Undefined
| OutOfFuel.

Arguments Ok {A} a.
Arguments Aborted {A}.
Arguments Undefined {A}.
Arguments OutOfFuel {A}.

Definition bind {A B : Type} (m : outcome A) (k : A -> outcome B) : outcome B :=
  match m with
  | Ok a => k a
  | Aborted => Aborted
  | Undefined => Undefined
  | OutOfFuel => OutOfFuel
  end.

Notation "'do' x <- m ; k" := (bind m (fun x => k))
  (at level 10, x name, m at level 100, k at level 200).

(** [v[i]] on a [std::vector]: undefined behaviour out of range. *)
Definition index {A : Type} (v : list A) (i : Z) : outcome A :=
  if i <? 0 then Undefined
  else match v !! Z.to_nat i with
       | Some a => Ok a
       | None => Undefined
       end.

(** [for (j = lo; j < hi; j++) body], threading the loop state. *)
Fixpoint for_each {S : Type} (js : list Z) (body : Z -> S -> outcome S) (s : S)
  : outcome S :=
  match js with
  | [] => Ok s
  | j :: js' => do s' <- body j s; for_each js' body s'
  end.

Definition range (lo hi : Z) : list Z :=
  map (fun k => lo + Z.of_nat k) (seq 0 (Z.to_nat (hi - lo))).

Definition for_range {S : Type} (lo hi : Z) (body : Z -> S -> outcome S) (s : S)
  : outcome S :=
  for_each (range lo hi) body s.

(** ** 32-bit integers *)

Module U32.
Definition modulus : Z := 2 ^ 32.
Definition wrap (z : Z) : Z := z mod modulus.
Definition add (a b : Z) : Z := wrap (a + b).
Definition sub (a b : Z) : Z := wrap (a - b).
Definition mul (a b : Z) : Z := wrap (a * b).
(** [vector::size()] converted to [uint32_t]. *)
Definition of_size {A : Type} (v : list A) : Z := wrap (Z.of_nat (length v)).
End U32.

(** ** binary32 floats *)

Module F32.
Definition prec : Z := 24.
Definition emax : Z := 128.

Definition t : Type := spec_float.

Definition zero : t := S754_zero false.
Definition add : t -> t -> t := SFadd prec emax.
Definition sub : t -> t -> t := SFsub prec emax.
Definition mul : t -> t -> t := SFmul prec emax.
Definition eqb : t -> t -> bool := SFeqb.
Definition ltb : t -> t -> bool := SFltb.
Definition leb : t -> t -> bool := SFleb.

Definition is_nan (x : t) : bool :=
  match x with S754_nan => true | _ => false end.

Definition is_finite (x : t) : bool :=
  match x with S754_zero _ | S754_finite _ _ _ => true | _ => false end.

(** The integer obtained by discarding the fractional part; no value for
    infinities and NaN. *)
Definition trunc (x : t) : option Z :=
  match x with
  | S754_zero _ => Some 0
  | S754_finite s m e => Some (cond_Zopp s (Z.shiftl (Zpos m) e))
  | S754_infinity _ | S754_nan => None
  end.

(** [static_cast<uint32_t>(x)]: undefined unless the truncated value fits. *)
Definition to_u32 (x : t) : outcome Z :=
  match trunc x with
  | Some z => if (0 <=? z) && (z <? 2 ^ 32) then Ok z else Undefined
  | None => Undefined
  end.

(** [static_cast<int32_t>(x)]. *)
Definition to_i32 (x : t) : outcome Z :=
  match trunc x with
  | Some z => if (- 2 ^ 31 <=? z) && (z <? 2 ^ 31) then Ok z else Undefined
  | None => Undefined
  end.

(** [static_cast<float>(z)] for an integer [z]: rounded to nearest even. *)
Definition of_int (z : Z) : t := binary_normalize prec emax z 0 false.

(** The float whose object representation is the 32-bit word [w]. *)
Definition of_bits (w : Z) : t :=
  let s := Z.testbit w 31 in
  let e := Z.land (Z.shiftr w 23) 255 in
  let m := Z.land w (2 ^ 23 - 1) in
  if e =? 0 then
    match m with
    | Zpos p => S754_finite s p (-149)
    | _ => S754_zero s
    end
  else if e =? 255 then
    (if m =? 0 then S754_infinity s else S754_nan)
  else
    match m + 2 ^ 23 with
    | Zpos p => S754_finite s p (e - 150)
    | _ => S754_nan
    end.
End F32.

(** ** baseline.cpp *)

(** [compare_with_id]: the loop starts at index 2 and runs to [lhs.size()];
    [rhs[i]] is read at the same index. *)
Definition compare_with_id (lhs rhs : list F32.t) : outcome F32.t :=
  for_range 2 (Z.of_nat (length lhs))
    (fun i sum =>
       do l <- index lhs i;
       do r <- index rhs i;
       let diff := F32.sub l r in
       Ok (F32.add sum (F32.mul diff diff)))
    F32.zero.

(** Constants of [main]. [kSampleProportion] is the literal [0.001F], the
    binary32 value with bit pattern [0x3A83126F]. *)
Definition kNumDataDimensions : Z := 102.
Definition kSampleProportion : F32.t := F32.of_bits 0x3A83126F.
Definition K_NEAREST : Z := 100.

(** [n_points * static_cast<uint32_t>(sample_proportion)]: the cast applies
    to the proportion, the product is taken in [uint32_t]. *)
Definition sample_prop_of (n_points : Z) (sample_proportion : F32.t) : outcome Z :=
  do c <- F32.to_u32 sample_proportion;
  Ok (U32.mul n_points c).

(** The tests of the four query kinds on [nodes[j]]; [&&] evaluates its
    right operand only when the left one holds. *)
Definition eq_test (nodes : list (list F32.t)) (j value : Z) : outcome bool :=
  do node <- index nodes j;
  do x <- index node 0;
  Ok (F32.eqb x (F32.of_int value)).

Definition ge_test (nodes : list (list F32.t)) (j : Z) (l_bound : F32.t)
  : outcome bool :=
  do node <- index nodes j;
  do x <- index node 1;
  Ok (F32.leb l_bound x).

Definition le_test (nodes : list (list F32.t)) (j : Z) (r_bound : F32.t)
  : outcome bool :=
  do node <- index nodes j;
  do x <- index node 1;
  Ok (F32.leb x r_bound).

Definition and_then (a b : outcome bool) : outcome bool :=
  do x <- a; if x then b else Ok false.

(** [if (cond) { knn.push_back(j); }] *)
Definition push_if (cond : outcome bool) (j : Z) (knn : list Z)
  : outcome (list Z) :=
  do b <- cond; Ok (if b then knn ++ [j] else knn).

(** The four candidate loops over [j < sample_prop]; a kind outside 0..3
    runs none of them. *)
Definition candidates (nodes : list (list F32.t))
    (sample_prop query_type value : Z) (l_bound r_bound : F32.t)
  : outcome (list Z) :=
  if query_type =? 0 then
    for_range 0 sample_prop (fun j knn => Ok (knn ++ [j])) []
  else if query_type =? 1 then
    for_range 0 sample_prop
      (fun j knn => push_if (eq_test nodes j value) j knn) []
  else if query_type =? 2 then
    for_range 0 sample_prop
      (fun j knn =>
         push_if (and_then (ge_test nodes j l_bound)
                           (le_test nodes j r_bound)) j knn) []
  else if query_type =? 3 then
    for_range 0 sample_prop
      (fun j knn =>
         push_if (and_then (eq_test nodes j value)
                    (and_then (ge_test nodes j l_bound)
                              (le_test nodes j r_bound))) j knn) []
  else Ok [].

(** [while (knn.size() < K_NEAREST) { knn.push_back(n_points - sampled);
    sampled = sampled + 1; }] *)
Fixpoint pad_loop (fuel : nat) (n_points sampled : Z) (knn : list Z)
  : outcome (list Z) :=
  if Z.of_nat (length knn) <? K_NEAREST then
    match fuel with
    | O => OutOfFuel
    | S fuel' =>
        pad_loop fuel' n_points (U32.add sampled 1)
          (knn ++ [U32.sub n_points sampled])
    end
  else Ok knn.

Definition pad (n_points : Z) (knn : list Z) : outcome (list Z) :=
  if Z.of_nat (length knn) <? K_NEAREST then
    pad_loop (Z.to_nat K_NEAREST) n_points 1 knn
  else Ok knn.

(** *** [std::ranges::sort]

    The library function is specified, not implemented, by the repository:
    when the comparator induces a strict weak ordering on the elements, the
    result is a permutation of the input in which no element is less than an
    earlier one. Which permutation is returned among equivalent elements is
    left to the implementation. *)

Definition equiv (comp : Z -> Z -> bool) (a b : Z) : bool :=
  negb (comp a b) && negb (comp b a).

Definition strict_weak_order (comp : Z -> Z -> bool) (l : list Z) : Prop :=
  (forall a, In a l -> comp a a = false) /\
  (forall a b c, In a l -> In b l -> In c l ->
     comp a b = true -> comp b c = true -> comp a c = true) /\
  (forall a b c, In a l -> In b l -> In c l ->
     equiv comp a b = true -> equiv comp b c = true -> equiv comp a c = true).

Definition strict_weak_orderb (comp : Z -> Z -> bool) (l : list Z) : bool :=
  forallb (fun a => negb (comp a a)) l &&
  forallb (fun a => forallb (fun b => forallb (fun c =>
    implb (comp a b && comp b c) (comp a c) &&
    implb (equiv comp a b && equiv comp b c) (equiv comp a c)) l) l) l.

Definition sorted_by (comp : Z -> Z -> bool) (l : list Z) : Prop :=
  StronglySorted (fun a b => comp b a = false) l.

Class RangesSort : Type := {
  ranges_sort : (Z -> Z -> bool) -> list Z -> list Z;
  ranges_sort_perm : forall comp l,
    strict_weak_order comp l -> Permutation l (ranges_sort comp l);
  ranges_sort_sorted : forall comp l,
    strict_weak_order comp l -> sorted_by comp (ranges_sort comp l)
}.

(** The comparator [dists[lhs] < dists[rhs]]. *)
Definition dist_less (dists : list F32.t) (lhs rhs : Z) : bool :=
  match index dists lhs, index dists rhs with
  | Ok a, Ok b => F32.ltb a b
  | _, _ => false
  end.

(** [query_vec]: two zeros pushed first, then [queries[i][j]] for [j] from 4. *)
Definition query_vec_of (query : list F32.t) : list F32.t :=
  [F32.of_int 0; F32.of_int 0] ++ drop 4 query.

(** The first part of the body of the loop over the queries: the fields of
    the query row are read and converted and the candidates are collected. *)
Definition query_candidates (nodes : list (list F32.t))
    (sample_prop : Z) (query : list F32.t) : outcome (list Z) :=
  do q0 <- index query 0;
  do query_type <- F32.to_u32 q0;
  do q1 <- index query 1;
  do value <- F32.to_i32 q1;
  do l_bound <- index query 2;
  do r_bound <- index query 3;
  candidates nodes sample_prop query_type value l_bound r_bound.

(** The candidates after the padding. *)
Definition padded_candidates (nodes : list (list F32.t))
    (n_points sample_prop : Z) (query : list F32.t) : outcome (list Z) :=
  do knn <- query_candidates nodes sample_prop query;
  pad n_points knn.

(** The last part: the distances of the candidates are computed, the
    positions [0 .. knn.size() - 1] are sorted by distance and the candidates
    at the first [K_NEAREST] sorted positions are copied to [knn_sorted]. *)
Definition rank `{RangesSort} (nodes : list (list F32.t))
    (query_vec : list F32.t) (knn : list Z) : outcome (list Z) :=
  do dists <-
    for_range 0 (Z.of_nat (length knn))
      (fun j dists =>
         do id <- index knn j;
         do node <- index nodes id;
         do d <- compare_with_id node query_vec;
         Ok (<[Z.to_nat j := d]> dists))
      (replicate (length knn) F32.zero);
  let ids := range 0 (Z.of_nat (length knn)) in
  if strict_weak_orderb (dist_less dists) ids then
    let ids := ranges_sort (dist_less dists) ids in
    for_range 0 K_NEAREST
      (fun j knn_sorted =>
         do i <- index ids j;
         do id <- index knn i;
         Ok (<[Z.to_nat j := id]> knn_sorted))
      (replicate (Z.to_nat K_NEAREST) 0)
  else Undefined.

(** The body of the loop over the queries, for the query row [query]. *)
Definition eval_query `{RangesSort} (nodes : list (list F32.t))
    (n_points sample_prop : Z) (query : list F32.t) : outcome (list Z) :=
  let query_vec := query_vec_of query in
  do knn <- padded_candidates nodes n_points sample_prop query;
  rank nodes query_vec knn.

(** The distance of the point [id] to the query vector. *)
Definition dist_of (nodes : list (list F32.t)) (query_vec : list F32.t) (id : Z)
  : outcome F32.t :=
  do node <- index nodes id;
  compare_with_id node query_vec.

(** ** io.cpp *)

Module knn.

(** Four bytes of a [uint32_t], least significant first. *)
Definition u32_bytes (z : Z) : list Byte.byte :=
  map (fun k => default Byte.x00 (Byte.of_N (Z.to_N (Z.shiftr z (8 * k) mod 256))))
      [0; 1; 2; 3].

Fixpoint u32_of_bytes (bs : list Byte.byte) : Z :=
  match bs with
  | [] => 0
  | b :: bs' => Z.of_N (Byte.to_N b) + 256 * u32_of_bytes bs'
  end.

(** [knn.data()] read as [n] elements. *)
Definition data_bytes (knn : list Z) (n : Z) : outcome (list Byte.byte) :=
  if n <=? Z.of_nat (length knn)
  then Ok (concat (map u32_bytes (take (Z.to_nat n) knn)))
  else Undefined.

(** [knns.front()]. *)
Definition front {A : Type} (v : list A) : outcome A :=
  match v with
  | [] => Undefined
  | a :: _ => Ok a
  end.

(** The bytes written to [ofs]. *)
Definition SaveKNN (knns : list (list Z)) : outcome (list Byte.byte) :=
  let K := 100 in
  let N := U32.of_size knns in
  do first <- front knns;
  if Z.of_nat (length first) =? K then
    for_range 0 N
      (fun i ofs =>
         do knn <- index knns i;
         do bytes <- data_bytes knn K;
         Ok (ofs ++ bytes))
      []
  else Aborted.

(** An input stream: the bytes not yet extracted and the fail bit. *)
Record ifstream : Type := { rest : list Byte.byte; failbit : bool }.

(** [ifs.read(buf, n)]: extracts [n] bytes, or what is left together with
    the fail bit; a stream that has failed extracts nothing. *)
Definition read (n : nat) (ifs : ifstream) : list Byte.byte * ifstream :=
  if failbit ifs then ([], ifs)
  else if (n <=? length (rest ifs))%nat then
    (take n (rest ifs), {| rest := drop n (rest ifs); failbit := false |})
  else (rest ifs, {| rest := []; failbit := true |}).

Fixpoint floats_of_bytes (n : nat) (bs : list Byte.byte) : list F32.t :=
  match n with
  | O => []
  | S n' => F32.of_bits (u32_of_bytes (take 4 bs)) :: floats_of_bytes n' (drop 4 bs)
  end.

(** The largest [int]; incrementing it overflows. *)
Definition INT_MAX : Z := 2 ^ 31 - 1.

(** [while (ifs.read(buff, num_dimensions * sizeof(float)))
      { ...; data[counter++] = std::move(row); }]
    with [int counter]: the assignment is undefined when [counter] is no
    index of [data], and so is [counter++] when [counter] is [INT_MAX]. *)
Fixpoint read_rows (fuel : nat) (num_dimensions : nat) (ifs : ifstream)
    (counter : Z) (data : list (list F32.t)) : outcome (list (list F32.t)) :=
  let '(buff, ifs) := read (num_dimensions * 4) ifs in
  if failbit ifs then Ok data
  else
    match fuel with
    | O => OutOfFuel
    | S fuel' =>
        let row := floats_of_bytes num_dimensions buff in
        if (0 <=? counter) && (counter <? Z.of_nat (length data)) then
          if counter <? INT_MAX then
            read_rows fuel' num_dimensions ifs (counter + 1)
              (<[Z.to_nat counter := row]> data)
          else Undefined
        else Undefined
    end.

(** [file] is the content of the file at [file_path], [None] when it cannot
    be opened; [data] is empty on entry, as at both calls in [main]. A
    partial read of the header leaves the bytes read in the low bytes of
    [N]. The loop runs at most [N + 1] times before it leaves the vector,
    which is the fuel given to it. *)
Definition ReadBin (file : option (list Byte.byte)) (num_dimensions : nat)
  : outcome (list (list F32.t)) :=
  match file with
  | None => Aborted
  | Some bytes =>
      let ifs := {| rest := bytes; failbit := false |} in
      let '(hdr, ifs) := read 4 ifs in
      let N := u32_of_bytes hdr in
      let data := replicate (Z.to_nat N) [] in
      read_rows (S (Z.to_nat N)) num_dimensions ifs 0 data
  end.

End knn.

(** ** The program

    [main] of [src/baseline.cpp]; [glasshouse/src/baseline.cpp] differs only
    in reading both files through a helper. *)

Definition main `{RangesSort} (source_file query_file : option (list Byte.byte))
  : outcome (list Byte.byte) :=
  let num_data_dimensions := kNumDataDimensions in
  let sample_proportion := kSampleProportion in
  do nodes <- knn.ReadBin source_file (Z.to_nat num_data_dimensions);
  let num_query_dimensions := num_data_dimensions + 2 in
  do queries <- knn.ReadBin query_file (Z.to_nat num_query_dimensions);
  let n_points := U32.of_size nodes in
  do node0 <- index nodes 0;
  let n_queries := U32.of_size queries in
  do sample_prop <- sample_prop_of n_points sample_proportion;
  do knn_results <-
    for_range 0 n_queries
      (fun i knn_results =>
         do query <- index queries i;
         do knn_sorted <- eval_query nodes n_points sample_prop query;
         Ok (knn_results ++ [knn_sorted]))
      [];
  knn.SaveKNN knn_results.

(** ** A conforming sort

    Insertion sort, to run the evaluator on concrete inputs. *)

Fixpoint insert_by (comp : Z -> Z -> bool) (x : Z) (l : list Z) : list Z :=
  match l with
  | [] => [x]
  | y :: l' => if comp x y then x :: l else y :: insert_by comp x l'
  end.

Definition insertion_sort (comp : Z -> Z -> bool) (l : list Z) : list Z :=
  foldr (insert_by comp) [] l.

(** ** Vocabulary of the statements *)

(** The predicate kind of a query row: field 0 converted to [uint32_t]. *)
Definition query_type_of (query : list F32.t) : outcome Z :=
  do q0 <- index query 0; F32.to_u32 q0.

(** The sum of squared differences of two aligned feature tails. *)
Fixpoint sq_sum (ls rs : list F32.t) (sum : F32.t) : outcome F32.t :=
  match ls with
  | [] => Ok sum
  | l :: ls' =>
      match rs with
      | [] => Undefined
      | r :: rs' =>
          let diff := F32.sub l r in
          sq_sum ls' rs' (F32.add sum (F32.mul diff diff))
      end
  end.

(** The squared Euclidean distance of two feature vectors in binary32
    arithmetic: the squared differences of the paired entries are added in
    index order, starting from 0. *)
Definition squared_distance (xs ys : list F32.t) : F32.t :=
  fold_left
    (fun sum '(x, y) => F32.add sum (F32.mul (F32.sub x y) (F32.sub x y)))
    (zip xs ys) F32.zero.

(** The distances of a list of candidates, in order. *)
Fixpoint dists_of (nodes : list (list F32.t)) (query_vec : list F32.t)
    (knn : list Z) : outcome (list F32.t) :=
  match knn with
  | [] => Ok []
  | id :: knn' =>
      do d <- dist_of nodes query_vec id;
      do ds <- dists_of nodes query_vec knn';
      Ok (d :: ds)
  end.

(** The IDs the padding loop appends when [k] are missing:
    [n_points - 1], [n_points - 2], ..., [n_points - k], each computed in
    [uint32_t]. *)
Definition padding (n_points k : Z) : list Z :=
  map (fun sampled => U32.sub n_points sampled) (range 1 (k + 1)).

(** A test that was evaluated and came out true. *)
Definition holds (c : outcome bool) : bool :=
  match c with Ok true => true | _ => false end.

(** [v[i]], or [d] where [v] has no index [i]. *)
Definition at_or {A} (v : list A) (d : A) (i : Z) : A :=
  match index v i with Ok a => a | _ => d end.

(** Outcomes of code that neither asserts nor loops. *)
Definition ok_or_undefined {A} (m : outcome A) : Prop :=
  match m with Ok _ | Undefined => True | _ => False end.

(** No two different elements of [l] are equivalent under [comp]. *)
Definition all_distinct (comp : Z -> Z -> bool) (l : list Z) : bool :=
  forallb (fun a => forallb (fun b => implb (equiv comp a b) (a =? b)) l) l.

(** Finite floats of one sign are compared by exponent, then mantissa. *)
Definition lex_compare (e1 : Z) (m1 : positive) (e2 : Z) (m2 : positive) : comparison :=
  match e1 ?= e2 with
  | Eq => (m1 ?= m2)%positive
  | c => c
  end.

(** What the write loop of [SaveKNN] produces for the rows [knns]. *)
Fixpoint write_rows (knns : list (list Z)) (ofs : list Byte.byte)
  : outcome (list Byte.byte) :=
  match knns with
  | [] => Ok ofs
  | knn :: knns' => do bytes <- knn.data_bytes knn 100; write_rows knns' (ofs ++ bytes)
  end.

(** The row count declared by the four header bytes. *)
Definition declared_count (bytes : list Byte.byte) : nat :=
  Z.to_nat (knn.u32_of_bytes (take 4 bytes)).

(** The number of complete rows held by [bytes]. *)
Definition complete_rows (num_dimensions : nat) (bytes : list Byte.byte) : nat :=
  (length bytes / (num_dimensions * 4))%nat.

(** The first [count] rows of [num_dimensions] floats held by [bytes]. *)
Fixpoint rows_of (num_dimensions : nat) (bytes : list Byte.byte) (count : nat)
  : list (list F32.t) :=
  match count with
  | O => []
  | S count' =>
      knn.floats_of_bytes num_dimensions (take (num_dimensions * 4) bytes)
      :: rows_of num_dimensions (drop (num_dimensions * 4) bytes) count'
  end.

(** The sample size in the words of the specification: the product of the
    number of points and the proportion 0.001, rounded down. *)
Definition spec_sample_size (n_points : Z) : Z := n_points / 1000.

(** [n] 32-bit words read from [bs], least significant byte first: the
    decoding [ReadBin] applies to its header, word after word. *)
Fixpoint u32s_of_bytes (n : nat) (bs : list Byte.byte) : list Z :=
  match n with
  | O => []
  | S n' => knn.u32_of_bytes (take 4 bs) :: u32s_of_bytes n' (drop 4 bs)
  end.

(** A float that is [+0], positive and finite, or [+inf]. *)
Definition nonneg (x : F32.t) : bool :=
  match x with
  | S754_zero false | S754_finite false _ _ | S754_infinity false => true
  | _ => false
  end.

(** ** glasshouse/src/baseline.cpp

    The same program with both files read by [read_points_and_queries]. *)

Module glasshouse.

Record PointsAndQueries : Type := {
  nodes : list (list F32.t);
  queries : list (list F32.t)
}.

Definition kNumQueryDimensions : Z := 104.

Definition read_points_and_queries (source_file query_file : option (list Byte.byte))
    (node_dimensions query_dimensions : Z) : outcome PointsAndQueries :=
  do pq_nodes <- knn.ReadBin source_file (Z.to_nat node_dimensions);
  do pq_queries <- knn.ReadBin query_file (Z.to_nat query_dimensions);
  Ok {| nodes := pq_nodes; queries := pq_queries |}.

Definition main `{RangesSort} (source_file query_file : option (list Byte.byte))
  : outcome (list Byte.byte) :=
  do pq <- read_points_and_queries source_file query_file
             kNumDataDimensions kNumQueryDimensions;
  let n_points := U32.of_size (nodes pq) in
  do node0 <- index (nodes pq) 0;
  let n_queries := U32.of_size (queries pq) in
  do sample_prop <- sample_prop_of n_points kSampleProportion;
  do knn_results <-
    for_range 0 n_queries
      (fun i knn_results =>
         do query <- index (queries pq) i;
         do knn_sorted <- eval_query (nodes pq) n_points sample_prop query;
         Ok (knn_results ++ [knn_sorted]))
      [];
  knn.SaveKNN knn_results.

End glasshouse.

(** ** Both programs after the two files are read

    The statements of [main] that follow the calls of [ReadBin], as a
    function of the two vectors. *)

Definition answer_queries `{RangesSort} (nodes queries : list (list F32.t))
  : outcome (list Byte.byte) :=
  let n_points := U32.of_size nodes in
  do node0 <- index nodes 0;
  let n_queries := U32.of_size queries in
  do sample_prop <- sample_prop_of n_points kSampleProportion;
  do knn_results <-
    for_range 0 n_queries
      (fun i knn_results =>
         do query <- index queries i;
         do knn_sorted <- eval_query nodes n_points sample_prop query;
         Ok (knn_results ++ [knn_sorted]))
      [];
  knn.SaveKNN knn_results.

(** The bytes of [rows] as [SaveKNN] lays them out when every row has 100
    IDs. *)
Definition bytes_of_rows (rows : list (list Z)) : list Byte.byte :=
  concat (map (fun row => concat (map knn.u32_bytes row)) rows).

(** ** A dataset to run the evaluator on

    100 points of 102 dimensions; point [i] has the feature vector
    [(i, 0, ..., 0)] and both attributes 0. The queries have 104 fields, the
    equality value 0, the bounds 0 and the feature vector 0. *)

Definition example_node (i : Z) : list F32.t :=
  [F32.of_int 0; F32.of_int 0; F32.of_int i] ++ replicate 99 F32.zero.

Definition example_nodes : list (list F32.t) := map example_node (range 0 100).

Definition example_query (kind : Z) : list F32.t :=
  [F32.of_int kind; F32.of_int 0; F32.of_int 0; F32.of_int 0]
  ++ replicate 100 F32.zero.

(** The files of the dataset and of two queries, of kinds 1 and 2.
    [bits_of] is the object representation of a float in canonical form. *)

Definition bits_of (x : F32.t) : Z :=
  match x with
  | S754_zero s => if s then 2 ^ 31 else 0
  | S754_infinity s => (if s then 2 ^ 31 else 0) + 255 * 2 ^ 23
  | S754_nan => 0x7FC00000
  | S754_finite s m e =>
      (if s then 2 ^ 31 else 0)
      + (if Z.pos m <? 2 ^ 23 then Z.pos m else (e + 150) * 2 ^ 23 + (Z.pos m - 2 ^ 23))
  end.

Definition file_of (rows : list (list F32.t)) : list Byte.byte :=
  knn.u32_bytes (Z.of_nat (length rows))
  ++ concat (map (fun row => concat (map (fun x => knn.u32_bytes (bits_of x)) row)) rows).

Definition example_queries : list (list F32.t) := [example_query 1; example_query 2].

Definition example_source_file : list Byte.byte := file_of example_nodes.

Definition example_query_file : list Byte.byte := file_of example_queries.

(** * Properties *)

Lemma insert_by_perm comp x l : Permutation (x :: l) (insert_by comp x l).
Proof.
  induction l as [|y l IH]; simpl; [reflexivity|].
  destruct (comp x y); [reflexivity|].
  rewrite perm_swap. now apply perm_skip.
Qed.

Lemma insertion_sort_perm comp l : Permutation l (insertion_sort comp l).
Proof.
  induction l as [|x l IH]; simpl; [constructor|].
  rewrite <- insert_by_perm. now apply perm_skip.
Qed.

Lemma insert_by_sorted comp x l :
  (forall a b, In a (x :: l) -> In b (x :: l) ->
     comp a b = true -> comp b a = false) ->
  (forall a b c, In a (x :: l) -> In b (x :: l) -> In c (x :: l) ->
     comp a b = true -> comp b c = true -> comp a c = true) ->
  sorted_by comp l -> sorted_by comp (insert_by comp x l).
Proof.
  unfold sorted_by. intros Hasym Htrans Hs.
  induction l as [|y l IH]; simpl.
  - repeat constructor.
  - destruct (comp x y) eqn:Hxy.
    + constructor; [exact Hs|].
      apply StronglySorted_inv in Hs as [_ Hy].
      constructor.
      * apply Hasym; simpl; auto.
      * rewrite List.Forall_forall in *. intros z Hz.
        specialize (Hy z Hz). simpl in Hy.
        destruct (comp z x) eqn:Hzx; [|reflexivity].
        rewrite (Htrans z x y) in Hy; simpl; auto.
    + apply StronglySorted_inv in Hs as [Hl Hy].
      constructor.
      * apply IH; [| |exact Hl].
        -- intros a b Ha Hb. apply Hasym; simpl in *; tauto.
        -- intros a b c Ha Hb Hc. apply Htrans; simpl in *; tauto.
      * rewrite List.Forall_forall in *. intros z Hz.
        apply (Permutation_in _ (Permutation_sym (insert_by_perm comp x l))) in Hz.
        destruct Hz as [<-|Hz]; [exact Hxy|now apply Hy].
Qed.

Lemma strict_weak_order_asym comp l a b :
  strict_weak_order comp l -> In a l -> In b l ->
  comp a b = true -> comp b a = false.
Proof.
  intros (Hirr & Htr & _) Ha Hb Hab.
  destruct (comp b a) eqn:Hba; [|reflexivity].
  rewrite <- (Hirr a Ha). symmetry. now apply (Htr a b a).
Qed.

Lemma insertion_sort_sorted comp l :
  strict_weak_order comp l -> sorted_by comp (insertion_sort comp l).
Proof.
  intros Hswo.
  assert (Hsub : forall a, In a l -> In a l) by auto.
  revert Hsub. generalize l at 1 3. intros l0.
  induction l0 as [|x l0 IH]; intros Hsub; simpl.
  - constructor.
  - assert (Hin : forall a, In a (x :: insertion_sort comp l0) -> In a l).
    { intros a [<-|Ha]; [apply Hsub; simpl; auto|].
      apply Hsub. right.
      now apply (Permutation_in _ (Permutation_sym (insertion_sort_perm comp l0))). }
    apply insert_by_sorted.
    + intros a b Ha Hb. apply (strict_weak_order_asym comp l); auto.
    + intros a b c Ha Hb Hc. destruct Hswo as (_ & Htr & _). apply Htr; auto.
    + apply IH. intros a Ha. apply Hsub. now right.
Qed.

#[export] Instance insertion_RangesSort : RangesSort := {|
  ranges_sort := insertion_sort;
  ranges_sort_perm := fun comp l _ => insertion_sort_perm comp l;
  ranges_sort_sorted := insertion_sort_sorted
|}.

(** ** Loops and vectors *)

Lemma range_nil lo hi : hi <= lo -> range lo hi = [].
Proof.
  intros H. unfold range. replace (Z.to_nat (hi - lo)) with O by lia. reflexivity.
Qed.

Lemma range_cons lo hi : lo < hi -> range lo hi = lo :: range (lo + 1) hi.
Proof.
  intros H. unfold range.
  replace (Z.to_nat (hi - lo)) with (S (Z.to_nat (hi - (lo + 1)))) by lia.
  simpl. f_equal; [lia|].
  rewrite <- seq_shift, List.map_map. apply List.map_ext. intros k. lia.
Qed.

Lemma range_length lo hi : length (range lo hi) = Z.to_nat (hi - lo).
Proof. unfold range. now rewrite List.length_map, List.length_seq. Qed.

Lemma range_snoc lo hi : lo <= hi -> range lo (hi + 1) = range lo hi ++ [hi].
Proof.
  intros H. unfold range.
  replace (Z.to_nat (hi + 1 - lo)) with (Z.to_nat (hi - lo) + 1)%nat by lia.
  rewrite seq_app, List.map_app. simpl. do 2 f_equal. lia.
Qed.

Lemma in_range lo hi j : In j (range lo hi) <-> lo <= j < hi.
Proof.
  unfold range. rewrite List.in_map_iff. split.
  - intros (k & <- & Hk). apply List.in_seq in Hk. lia.
  - intros H. exists (Z.to_nat (j - lo)). split; [lia|]. apply List.in_seq. lia.
Qed.

Lemma index_Ok {A} (v : list A) i a :
  index v i = Ok a <-> 0 <= i /\ v !! Z.to_nat i = Some a.
Proof.
  unfold index. destruct (Z.ltb_spec i 0).
  - split; [discriminate|lia].
  - destruct (v !! Z.to_nat i); split; try discriminate.
    + intros [= ->]. auto.
    + intros [_ [= ->]]. reflexivity.
    + intros [_ [=]].
Qed.

Lemma index_in_range {A} (v : list A) i :
  0 <= i < Z.of_nat (length v) -> exists a, index v i = Ok a.
Proof.
  intros H. destruct (lookup_lt_is_Some_2 v (Z.to_nat i)) as [a Ha]; [lia|].
  exists a. apply index_Ok. split; [lia|exact Ha].
Qed.

Lemma index_out_of_range {A} (v : list A) i :
  Z.of_nat (length v) <= i -> index v i = Undefined.
Proof.
  intros H. unfold index. destruct (Z.ltb_spec i 0); [reflexivity|].
  rewrite lookup_ge_None_2; [reflexivity|lia].
Qed.

Lemma index_drop {A} (v : list A) (n : nat) i :
  0 <= i -> index (drop n v) i = index v (Z.of_nat n + i).
Proof.
  intros H. unfold index.
  destruct (Z.ltb_spec i 0); [lia|]. destruct (Z.ltb_spec (Z.of_nat n + i) 0); [lia|].
  rewrite lookup_drop. now replace (Z.to_nat (Z.of_nat n + i)) with (n + Z.to_nat i)%nat by lia.
Qed.

Lemma bind_Ok {A B} (m : outcome A) (k : A -> outcome B) b :
  bind m k = Ok b <-> exists a, m = Ok a /\ k a = Ok b.
Proof.
  destruct m; simpl; split; try discriminate; eauto.
  - intros (a' & [= <-] & H). exact H.
  - intros (a' & [=] & _).
  - intros (a' & [=] & _).
  - intros (a' & [=] & _).
Qed.

Lemma for_each_app {S} js1 js2 (body : Z -> S -> outcome S) s :
  for_each (js1 ++ js2) body s = (do s' <- for_each js1 body s; for_each js2 body s').
Proof.
  revert s. induction js1 as [|j js1 IH]; intros s; simpl; [reflexivity|].
  destruct (body j s); simpl; auto.
Qed.

(** ** [compare_with_id] *)

Lemma compare_loop_sq_sum lhs rhs (n : nat) lo sum :
  0 <= lo -> Z.of_nat (length lhs) - lo = Z.of_nat n ->
  for_range lo (Z.of_nat (length lhs))
    (fun i sum =>
       do l <- index lhs i;
       do r <- index rhs i;
       let diff := F32.sub l r in
       Ok (F32.add sum (F32.mul diff diff))) sum
  = sq_sum (drop (Z.to_nat lo) lhs) (drop (Z.to_nat lo) rhs) sum.
Proof.
  unfold for_range. revert lo sum.
  induction n as [|n IH]; intros lo sum Hlo Hn.
  - rewrite range_nil by lia. rewrite drop_ge by lia. reflexivity.
  - rewrite range_cons by lia. simpl.
    destruct (index_in_range lhs lo) as [l Hl]; [lia|].
    rewrite Hl. simpl.
    apply index_Ok in Hl as [_ Hl].
    rewrite (drop_S _ _ _ Hl).
    destruct (rhs !! Z.to_nat lo) as [r|] eqn:Hr.
    + rewrite (proj2 (index_Ok rhs lo r)) by auto. simpl.
      rewrite (drop_S _ _ _ Hr).
      rewrite IH by lia. now replace (Z.to_nat (lo + 1)) with (S (Z.to_nat lo)) by lia.
    + rewrite index_out_of_range by (apply lookup_ge_None_1 in Hr; lia). simpl.
      rewrite drop_ge by (apply lookup_ge_None_1 in Hr; lia). reflexivity.
Qed.

Lemma compare_with_id_sq_sum lhs rhs :
  compare_with_id lhs rhs = sq_sum (drop 2 lhs) (drop 2 rhs) F32.zero.
Proof.
  unfold compare_with_id.
  destruct (Z.le_gt_cases 2 (Z.of_nat (length lhs))) as [H|H].
  - now rewrite (compare_loop_sq_sum lhs rhs (length lhs - 2) 2) by lia.
  - unfold for_range. rewrite range_nil by lia. rewrite drop_ge by lia. reflexivity.
Qed.

Lemma sub_self_finite x : F32.is_finite x = true -> F32.sub x x = F32.zero.
Proof.
  destruct x as [s|s| |s m e]; try discriminate; intros _.
  - now destruct s.
  - unfold F32.sub, SFsub. rewrite Z.min_id.
    unfold shl_align. rewrite Z.sub_diag. simpl. reflexivity.
Qed.

Lemma sq_sum_self ls :
  Forall (fun x => F32.is_finite x = true) ls -> sq_sum ls ls F32.zero = Ok F32.zero.
Proof.
  induction 1 as [|x ls Hx _ IH]; simpl; [reflexivity|].
  rewrite (sub_self_finite x Hx). exact IH.
Qed.

Lemma add_nan_r x : F32.add x S754_nan = S754_nan.
Proof. now destruct x. Qed.

Lemma add_nan_l y : F32.add S754_nan y = S754_nan.
Proof. reflexivity. Qed.

Lemma mul_nan x : F32.is_nan x = true -> F32.mul x x = S754_nan.
Proof. now destruct x. Qed.

Lemma sub_self_not_finite x : F32.is_finite x = false -> F32.sub x x = S754_nan.
Proof. destruct x as [s|s| |s m e]; try discriminate; intros _; now try destruct s. Qed.

Lemma sq_sum_nan ls rs :
  (length ls <= length rs)%nat -> sq_sum ls rs S754_nan = Ok S754_nan.
Proof.
  revert rs. induction ls as [|l ls IH]; intros rs Hlen; [reflexivity|].
  destruct rs as [|r rs]; [simpl in Hlen; lia|].
  cbn [sq_sum]. rewrite add_nan_l. apply IH. simpl in Hlen. lia.
Qed.

Lemma sq_sum_self_not_finite ls sum :
  Exists (fun x => F32.is_finite x = false) ls -> sq_sum ls ls sum = Ok S754_nan.
Proof.
  intros Hex. revert sum. induction Hex as [x ls Hx|x ls _ IH]; intros sum; cbn [sq_sum].
  - rewrite (sub_self_not_finite x Hx), (mul_nan S754_nan eq_refl), add_nan_r.
    now apply sq_sum_nan.
  - apply IH.
Qed.

Lemma sq_sum_fold ls rs sum :
  (length ls <= length rs)%nat ->
  sq_sum ls rs sum =
  Ok (fold_left
        (fun sum '(x, y) => F32.add sum (F32.mul (F32.sub x y) (F32.sub x y)))
        (zip ls rs) sum).
Proof.
  revert rs sum. induction ls as [|l ls IH]; intros rs sum Hlen; [reflexivity|].
  destruct rs as [|r rs]; [simpl in Hlen; lia|].
  cbn [sq_sum zip zip_with fold_left]. apply IH. simpl in Hlen. lia.
Qed.

(** C7 (as amended). The distance computed by [compare_with_id] between a
    point and the aligned query vector is the squared Euclidean distance of
    the point's dimensions 2 and up and the query's fields 4 and up, in
    binary32 arithmetic. It depends on dimensions 2 and up only: two points
    that agree there have the same distance to every query. That distance
    is [+0] when the query's feature vector equals those dimensions and all
    of them are finite, and NaN when one of them is infinite or NaN. *)
Theorem compare_with_id_ignores_dims_0_1 (p1 p2 query : list F32.t) :
  drop 2 p1 = drop 2 p2 ->
  compare_with_id p1 (query_vec_of query) = compare_with_id p2 (query_vec_of query) /\
  (drop 4 query = drop 2 p1 ->
   Forall (fun x => F32.is_finite x = true) (drop 2 p1) ->
   compare_with_id p1 (query_vec_of query) = Ok F32.zero /\
   compare_with_id p2 (query_vec_of query) = Ok F32.zero) /\
  ((length (drop 2 p1) <= length (drop 4 query))%nat ->
   compare_with_id p1 (query_vec_of query)
   = Ok (squared_distance (drop 2 p1) (drop 4 query)) /\
   compare_with_id p2 (query_vec_of query)
   = Ok (squared_distance (drop 2 p2) (drop 4 query))) /\
  (drop 4 query = drop 2 p1 ->
   Exists (fun x => F32.is_finite x = false) (drop 2 p1) ->
   compare_with_id p1 (query_vec_of query) = Ok S754_nan /\
   compare_with_id p2 (query_vec_of query) = Ok S754_nan).
Proof.
  intros H12. rewrite !compare_with_id_sq_sum, <- H12.
  unfold query_vec_of. cbn [app drop].
  split; [reflexivity|split; [|split]].
  - intros Hq Hfin. rewrite Hq. split; now apply sq_sum_self.
  - intros Hlen. unfold squared_distance. split; now apply sq_sum_fold.
  - intros Hq Hex. rewrite Hq. split; now apply sq_sum_self_not_finite.
Qed.

Lemma compare_with_id_ignores_dims_0_1_witness :
  let p1 := [F32.of_int 1; F32.of_int 2; F32.of_int 3; F32.of_int 4] in
  let p2 := [F32.of_int 5; F32.of_int 6; F32.of_int 3; F32.of_int 4] in
  let query := [F32.of_int 0; F32.of_int 7; F32.of_int 8; F32.of_int 9;
                F32.of_int 3; F32.of_int 4] in
  let query' := [F32.of_int 0; F32.of_int 7; F32.of_int 8; F32.of_int 9;
                 F32.of_int 1; F32.of_int 1] in
  compare_with_id p1 (query_vec_of query) = compare_with_id p2 (query_vec_of query) /\
  (compare_with_id p1 (query_vec_of query) = Ok F32.zero /\
   compare_with_id p2 (query_vec_of query) = Ok F32.zero) /\
  compare_with_id p1 (query_vec_of query') = Ok (F32.of_int 13) /\
  compare_with_id p2 (query_vec_of query') = Ok (F32.of_int 13).
Proof.
  intros p1 p2 query query'.
  destruct (compare_with_id_ignores_dims_0_1 p1 p2 query eq_refl)
    as (Hsame & Hzero & _ & _).
  destruct (compare_with_id_ignores_dims_0_1 p1 p2 query' eq_refl)
    as (_ & _ & Hdist & _).
  split; [exact Hsame|split].
  - apply Hzero; [reflexivity|]. repeat constructor.
  - destruct Hdist as [H1 H2]; [simpl; lia|].
    rewrite H1, H2. split; vm_compute; reflexivity.
Defined.

(** C7 (as stated) fails on an infinite feature value: the point and the
    query share the feature [+inf], the difference is NaN and so is the
    distance. *)
Lemma compare_with_id_infinite_feature :
  let inf := S754_infinity false in
  let p1 := [F32.of_int 0; F32.of_int 0; inf] in
  let p2 := [F32.of_int 1; F32.of_int 1; inf] in
  let query := [F32.of_int 0; F32.of_int 0; F32.of_int 0; F32.of_int 0; inf] in
  drop 2 p1 = drop 2 p2 /\
  drop 4 query = drop 2 p1 /\
  compare_with_id p1 (query_vec_of query) = Ok S754_nan /\
  compare_with_id p2 (query_vec_of query) = Ok S754_nan /\
  F32.eqb S754_nan F32.zero = false /\
  F32.eqb S754_nan S754_nan = false.
Proof. vm_compute. repeat split. Qed.

(** ** Padding *)

Lemma u32_add_small a b : 0 <= a + b < 2 ^ 32 -> U32.add a b = a + b.
Proof. intros H. unfold U32.add, U32.wrap, U32.modulus. now apply Z.mod_small. Qed.

Lemma u32_sub_small a b : 0 <= a - b < 2 ^ 32 -> U32.sub a b = a - b.
Proof. intros H. unfold U32.sub, U32.wrap, U32.modulus. now apply Z.mod_small. Qed.

Lemma u32_sub_wrapped a b : - 2 ^ 32 <= a - b < 0 -> U32.sub a b = a - b + 2 ^ 32.
Proof.
  intros H. unfold U32.sub, U32.wrap, U32.modulus.
  symmetry. apply (Z.mod_unique _ _ (-1)); lia.
Qed.

Lemma pad_loop_spec fuel n_points sampled knn :
  1 <= sampled ->
  Z.of_nat (length knn) <= K_NEAREST ->
  K_NEAREST - Z.of_nat (length knn) <= Z.of_nat fuel ->
  sampled + (K_NEAREST - Z.of_nat (length knn)) < 2 ^ 32 ->
  pad_loop fuel n_points sampled knn =
  Ok (knn ++ map (fun s => U32.sub n_points s)
                 (range sampled (sampled + (K_NEAREST - Z.of_nat (length knn))))).
Proof.
  revert sampled knn.
  induction fuel as [|fuel IH]; intros sampled knn Hs Hlen Hfuel Hbig; simpl;
    destruct (Z.ltb_spec (Z.of_nat (length knn)) K_NEAREST) as [Hlt|Hge];
    unfold K_NEAREST in *; try lia.
  - rewrite range_nil by lia. simpl. now rewrite app_nil_r.
  - rewrite IH; rewrite ?length_app, ?u32_add_small; simpl; try lia.
    rewrite (range_cons sampled) by lia. simpl.
    rewrite <- app_assoc. simpl.
    now replace (sampled + 1 + (100 - Z.of_nat (length knn + 1)))
      with (sampled + (100 - Z.of_nat (length knn))) by lia.
  - rewrite range_nil by lia. simpl. now rewrite app_nil_r.
Qed.

Lemma pad_spec n_points knn :
  Z.of_nat (length knn) < K_NEAREST ->
  pad n_points knn = Ok (knn ++ padding n_points (K_NEAREST - Z.of_nat (length knn))).
Proof.
  intros H. unfold pad, padding.
  destruct (Z.ltb_spec (Z.of_nat (length knn)) K_NEAREST); [|lia].
  rewrite pad_loop_spec; unfold K_NEAREST in *; try lia.
  now replace (1 + (100 - Z.of_nat (length knn)))
    with (100 - Z.of_nat (length knn) + 1) by lia.
Qed.

Lemma pad_enough n_points knn :
  K_NEAREST <= Z.of_nat (length knn) -> pad n_points knn = Ok knn.
Proof.
  intros H. unfold pad.
  destruct (Z.ltb_spec (Z.of_nat (length knn)) K_NEAREST); [lia|reflexivity].
Qed.

Lemma padding_length n_points k : 0 <= k -> Z.of_nat (length (padding n_points k)) = k.
Proof. intros H. unfold padding. rewrite List.length_map, range_length. lia. Qed.

Lemma pad_appends_pure n_points knn :
  Z.of_nat (length knn) < K_NEAREST ->
  let k := K_NEAREST - Z.of_nat (length knn) in
  pad n_points knn = Ok (knn ++ padding n_points k) /\
  Z.of_nat (length (knn ++ padding n_points k)) = K_NEAREST.
Proof.
  intros Hlen k. split; [now apply pad_spec|].
  rewrite length_app, Nat2Z.inj_add, padding_length; subst k; lia.
Qed.

Lemma padding_in_range n_points k :
  0 <= n_points < 2 ^ 32 -> k <= n_points ->
  padding n_points k = map (fun sampled => n_points - sampled) (range 1 (k + 1)) /\
  Forall (fun id => 0 <= id < n_points) (padding n_points k).
Proof.
  intros Hn Hk. unfold padding. split.
  - apply List.map_ext_in. intros s Hs. apply in_range in Hs.
    apply u32_sub_small. lia.
  - rewrite List.Forall_forall. intros id Hid.
    apply List.in_map_iff in Hid as (s & <- & Hs). apply in_range in Hs.
    rewrite u32_sub_small; lia.
Qed.

(** C5. When fewer than 100 candidates qualified, the padding loop appends
    [n_points - 1], [n_points - 2], ... (computed in [uint32_t]) until the
    list holds exactly 100 IDs. What is appended is determined by [n_points]
    and the number of missing candidates alone: the IDs already present are
    not consulted and no predicate is applied. When the dataset has at least
    as many points as are missing, the appended values are the plain integers
    [n_points - 1] down to [n_points - k], all of them dataset IDs. *)
Theorem pad_appends_descending_ids (n_points : Z) (knn : list Z) :
  Z.of_nat (length knn) < K_NEAREST ->
  let k := K_NEAREST - Z.of_nat (length knn) in
  exists appended,
    pad n_points knn = Ok (knn ++ appended) /\
    Z.of_nat (length (knn ++ appended)) = K_NEAREST /\
    appended = map (fun sampled => U32.sub n_points sampled) (range 1 (k + 1)) /\
    (0 <= n_points < 2 ^ 32 -> k <= n_points ->
     appended = map (fun sampled => n_points - sampled) (range 1 (k + 1)) /\
     Forall (fun id => 0 <= id < n_points) appended).
Proof.
  intros Hlen k. exists (padding n_points k). repeat split.
  - now apply pad_spec.
  - rewrite length_app, Nat2Z.inj_add, padding_length; subst k; lia.
  - now apply padding_in_range.
  - now apply padding_in_range.
Qed.

Lemma pad_appends_descending_ids_witness :
  pad 100 [99; 5] = Ok ([99; 5] ++ map (fun sampled => 100 - sampled) (range 1 99)).
Proof.
  destruct (pad_appends_descending_ids 100 [99; 5]) as (appended & Hpad & _ & _ & Hplain).
  - reflexivity.
  - rewrite Hpad. destruct Hplain as [-> _]; [lia|vm_compute; discriminate|reflexivity].
Defined.

(** ** The sample size *)

Lemma kSampleProportion_value :
  kSampleProportion = S754_finite false 8589935 (-33) /\
  Z.abs (1000 * 8589935 - 2 ^ 33) < Z.abs (1000 * 8589934 - 2 ^ 33) /\
  Z.abs (1000 * 8589935 - 2 ^ 33) < Z.abs (1000 * 8589936 - 2 ^ 33).
Proof. vm_compute. repeat split. Qed.

Lemma sample_prop_of_zero n_points : sample_prop_of n_points kSampleProportion = Ok 0.
Proof.
  unfold sample_prop_of. change (F32.to_u32 kSampleProportion) with (Ok (A:=Z) 0).
  simpl. unfold U32.mul, U32.wrap. now rewrite Z.mul_0_r.
Qed.

Lemma push_back_loop js acc :
  for_each js (fun j knn => Ok (knn ++ [j])) acc = Ok (acc ++ js).
Proof.
  revert acc. induction js as [|j js IH]; intros acc; simpl.
  - now rewrite app_nil_r.
  - rewrite IH, <- app_assoc. reflexivity.
Qed.

Lemma candidates_kind_0 nodes sample_prop value l_bound r_bound :
  candidates nodes sample_prop 0 value l_bound r_bound = Ok (range 0 sample_prop).
Proof. unfold candidates, for_range. simpl. apply push_back_loop. Qed.

Lemma candidates_empty_sample nodes query_type value l_bound r_bound :
  candidates nodes 0 query_type value l_bound r_bound = Ok [].
Proof. unfold candidates. repeat (destruct (_ =? _)); reflexivity. Qed.

(** C1 on the code. The cast of [n_points * static_cast<uint32_t>(...)]
    applies to the proportion, which truncates to 0: the sample size is 0 for
    every dataset and no index is scanned, although the loop of a kind-0
    query does collect every index below its bound. With 2000 points the
    specification asks for a sample of 2 and the candidates 0 and 1 of a
    kind-0 query. *)
Theorem sample_prop_truncates_proportion :
  (forall n_points, sample_prop_of n_points kSampleProportion = Ok 0) /\
  (forall nodes sample_prop value l_bound r_bound,
     candidates nodes sample_prop 0 value l_bound r_bound = Ok (range 0 sample_prop)) /\
  (forall nodes query_type value l_bound r_bound,
     candidates nodes 0 query_type value l_bound r_bound = Ok []) /\
  sample_prop_of 2000 kSampleProportion = Ok 0 /\
  spec_sample_size 2000 = 2 /\
  range 0 (spec_sample_size 2000) = [0; 1].
Proof.
  split; [exact sample_prop_of_zero|]. split; [exact candidates_kind_0|].
  split; [exact candidates_empty_sample|]. repeat split.
Qed.

(** ** Candidate generation *)

Lemma for_each_push_if (c : Z -> outcome bool) js acc knn :
  for_each js (fun j knn => push_if (c j) j knn) acc = Ok knn ->
  knn = acc ++ List.filter (fun j => holds (c j)) js.
Proof.
  revert acc. induction js as [|j js IH]; intros acc; simpl.
  - intros [= <-]. now rewrite app_nil_r.
  - unfold push_if at 1. destruct (c j) as [[|]| | |]; simpl; try discriminate.
    + intros H. apply IH in H. now rewrite <- app_assoc in H.
    + apply IH.
Qed.

Lemma eq_test_holds nodes j value :
  holds (eq_test nodes j value) = true <->
  exists node x, index nodes j = Ok node /\ index node 0 = Ok x /\
                 F32.eqb x (F32.of_int value) = true.
Proof.
  unfold eq_test. split.
  - destruct (index nodes j) as [node| | |]; simpl; try discriminate.
    destruct (index node 0) as [x| | |] eqn:Hx; simpl; try discriminate.
    destruct (F32.eqb x (F32.of_int value)) eqn:E; [|discriminate].
    intros _. exists node, x. auto.
  - intros (node & x & -> & Hx & E). simpl. rewrite Hx. simpl. now rewrite E.
Qed.

Lemma range_test_holds nodes j l_bound r_bound :
  holds (and_then (ge_test nodes j l_bound) (le_test nodes j r_bound)) = true <->
  exists node x, index nodes j = Ok node /\ index node 1 = Ok x /\
                 F32.leb l_bound x = true /\ F32.leb x r_bound = true.
Proof.
  unfold and_then, ge_test, le_test. split.
  - destruct (index nodes j) as [node| | |]; simpl; try discriminate.
    destruct (index node 1) as [x| | |] eqn:Hx; simpl; try discriminate.
    destruct (F32.leb l_bound x) eqn:E1; simpl; [|discriminate].
    destruct (F32.leb x r_bound) eqn:E2; [|discriminate].
    intros _. exists node, x. auto.
  - intros (node & x & -> & Hx & E1 & E2). simpl. rewrite Hx. simpl.
    rewrite E1. simpl. now rewrite E2.
Qed.

Lemma and_then_holds a b :
  holds (and_then a b) = true <-> holds a = true /\ holds b = true.
Proof.
  unfold and_then. destruct a as [[|]| | |]; simpl; intuition discriminate.
Qed.

Lemma query_candidates_inv nodes sample_prop query found :
  query_candidates nodes sample_prop query = Ok found ->
  exists q0 query_type q1 value l_bound r_bound,
    index query 0 = Ok q0 /\ F32.to_u32 q0 = Ok query_type /\
    index query 1 = Ok q1 /\ F32.to_i32 q1 = Ok value /\
    index query 2 = Ok l_bound /\ index query 3 = Ok r_bound /\
    candidates nodes sample_prop query_type value l_bound r_bound = Ok found.
Proof.
  unfold query_candidates. intros H.
  apply bind_Ok in H as (q0 & H0 & H). apply bind_Ok in H as (qt & Hqt & H).
  apply bind_Ok in H as (q1 & H1 & H). apply bind_Ok in H as (v & Hv & H).
  apply bind_Ok in H as (l & Hl & H). apply bind_Ok in H as (r & Hr & H).
  exists q0, qt, q1, v, l, r. auto 10.
Qed.

(** C2 (as amended). Among the scanned indices, a kind-1 query keeps exactly
    those whose dimension 0 equals, under float equality, the query's field 1
    truncated to [int32_t] and converted back to [float]; a kind-3 query
    keeps those that in addition have dimension 1 within the two bounds. *)
Theorem equality_test_uses_truncated_value
    (nodes : list (list F32.t)) (sample_prop : Z) (query : list F32.t)
    (knn : list Z) :
  query_candidates nodes sample_prop query = Ok knn ->
  exists q1 value l_bound r_bound,
    index query 1 = Ok q1 /\ F32.to_i32 q1 = Ok value /\
    index query 2 = Ok l_bound /\ index query 3 = Ok r_bound /\
    (query_type_of query = Ok 1 ->
     forall j, In j knn <->
       0 <= j < sample_prop /\
       exists node x, index nodes j = Ok node /\ index node 0 = Ok x /\
                      F32.eqb x (F32.of_int value) = true) /\
    (query_type_of query = Ok 3 ->
     forall j, In j knn <->
       0 <= j < sample_prop /\
       (exists node x, index nodes j = Ok node /\ index node 0 = Ok x /\
                       F32.eqb x (F32.of_int value) = true) /\
       (exists node x, index nodes j = Ok node /\ index node 1 = Ok x /\
                       F32.leb l_bound x = true /\ F32.leb x r_bound = true)).
Proof.
  intros Hq. apply query_candidates_inv in Hq
    as (q0 & qt & q1 & value & l_bound & r_bound & H0 & Hqt & H1 & Hv & Hl & Hr & Hc).
  exists q1, value, l_bound, r_bound. repeat (split; [assumption|]).
  unfold query_type_of. rewrite H0. cbn [bind]. rewrite Hqt.
  split; intros [= ->]; unfold candidates in Hc; simpl in Hc;
    apply for_each_push_if in Hc; subst knn; simpl; intros j;
    rewrite List.filter_In, in_range.
  - now rewrite eq_test_holds.
  - now rewrite and_then_holds, eq_test_holds, range_test_holds.
Qed.

Lemma equality_test_uses_truncated_value_witness :
  let one_half := F32.of_bits 0x3FC00000 in
  let nodes := [[F32.of_int 1; F32.of_int 0]; [one_half; F32.of_int 0]] in
  let query := [F32.of_int 1; one_half; F32.of_int 0; F32.of_int 0] in
  exists q1 value l_bound r_bound,
    index query 1 = Ok q1 /\ F32.to_i32 q1 = Ok value /\
    index query 2 = Ok l_bound /\ index query 3 = Ok r_bound /\
    (query_type_of query = Ok 1 ->
     forall j, In j [0] <->
       0 <= j < 2 /\
       exists node x, index nodes j = Ok node /\ index node 0 = Ok x /\
                      F32.eqb x (F32.of_int value) = true) /\
    (query_type_of query = Ok 3 ->
     forall j, In j [0] <->
       0 <= j < 2 /\
       (exists node x, index nodes j = Ok node /\ index node 0 = Ok x /\
                       F32.eqb x (F32.of_int value) = true) /\
       (exists node x, index nodes j = Ok node /\ index node 1 = Ok x /\
                       F32.leb l_bound x = true /\ F32.leb x r_bound = true)).
Proof.
  intros one_half nodes query.
  apply (equality_test_uses_truncated_value nodes 2 query [0]).
  vm_compute. reflexivity.
Defined.

(** C2 (as stated) fails for the kind-1 and kind-3 queries whose field 1 is
    1.5: the point with dimension 0 equal to 1 is kept although 1 differs
    from 1.5, and the point with dimension 0 equal to 1.5 is not kept. *)
Lemma equality_test_not_against_field_1 :
  let one_half := F32.of_bits 0x3FC00000 in
  let nodes := [[F32.of_int 1; F32.of_int 0]; [one_half; F32.of_int 0]] in
  let query1 := [F32.of_int 1; one_half; F32.of_int 0; F32.of_int 0] in
  let query3 := [F32.of_int 3; one_half; F32.of_int 0; F32.of_int 0] in
  index query1 1 = Ok one_half /\
  index query3 1 = Ok one_half /\
  query_candidates nodes 2 query1 = Ok [0] /\
  query_candidates nodes 2 query3 = Ok [0] /\
  F32.eqb (F32.of_int 1) one_half = false /\
  F32.eqb one_half one_half = true.
Proof. vm_compute. repeat split. Qed.

(** ** [SaveKNN] *)

Lemma byte_of_N_small n :
  (n < 256)%N -> Byte.to_N (default Byte.x00 (Byte.of_N n)) = n.
Proof.
  intros H. destruct (Byte.of_N n) as [b|] eqn:E.
  - simpl. now apply Byte.to_of_N.
  - apply Byte.of_N_None_iff in E. lia.
Qed.

Lemma u32_bytes_length z : length (knn.u32_bytes z) = 4%nat.
Proof. reflexivity. Qed.

Lemma byte_of_shift z k :
  Z.of_N (Byte.to_N (default Byte.x00 (Byte.of_N (Z.to_N (Z.shiftr z k mod 256)))))
  = Z.shiftr z k mod 256.
Proof.
  pose proof (Z.mod_pos_bound (Z.shiftr z k) 256 eq_refl) as B.
  rewrite byte_of_N_small by lia. lia.
Qed.

Lemma u32_of_bytes_u32_bytes z :
  0 <= z < 2 ^ 32 -> knn.u32_of_bytes (knn.u32_bytes z) = z.
Proof.
  intros H. unfold knn.u32_bytes. cbn [map knn.u32_of_bytes].
  rewrite !byte_of_shift.
  rewrite !Z.shiftr_div_pow2 by lia.
  change (2 ^ (8 * 0)) with 1. change (2 ^ (8 * 1)) with 256.
  change (2 ^ (8 * 2)) with (256 * 256). change (2 ^ (8 * 3)) with (256 * 256 * 256).
  rewrite Z.div_1_r, <- !Z.div_div by lia.
  change (2 ^ 32) with (256 * 256 * 256 * 256) in H.
  set (q1 := z / 256). set (q2 := q1 / 256). set (q3 := q2 / 256).
  pose proof (Z.div_mod z 256 ltac:(lia)) as E0. fold q1 in E0.
  pose proof (Z.div_mod q1 256 ltac:(lia)) as E1. fold q2 in E1.
  pose proof (Z.div_mod q2 256 ltac:(lia)) as E2. fold q3 in E2.
  pose proof (Z.mod_pos_bound z 256 eq_refl) as B0.
  pose proof (Z.mod_pos_bound q1 256 eq_refl) as B1.
  pose proof (Z.mod_pos_bound q2 256 eq_refl) as B2.
  assert (E3 : q3 mod 256 = q3) by (apply Z.mod_small; lia).
  rewrite E3. lia.
Qed.

Lemma save_loop_write_rows (pre knns post : list (list Z)) ofs :
  for_each (range (Z.of_nat (length pre)) (Z.of_nat (length pre + length knns)))
    (fun i ofs =>
       do knn <- index (pre ++ knns ++ post) i;
       do bytes <- knn.data_bytes knn 100;
       Ok (ofs ++ bytes)) ofs
  = write_rows knns ofs.
Proof.
  revert pre ofs. induction knns as [|knn knns IH]; intros pre ofs.
  - rewrite range_nil by (simpl; lia). reflexivity.
  - rewrite range_cons by (simpl; lia). simpl.
    rewrite (proj2 (index_Ok (pre ++ knn :: knns ++ post) (Z.of_nat (length pre)) knn)).
    2:{ split; [lia|]. rewrite Nat2Z.id. now rewrite list_lookup_middle. }
    simpl. destruct (knn.data_bytes knn 100) as [bytes| | |]; simpl; try reflexivity.
    specialize (IH (pre ++ [knn]) (ofs ++ bytes)).
    rewrite length_app in IH. simpl in IH.
    replace (Z.of_nat (length pre + 1)) with (Z.of_nat (length pre) + 1) in IH by lia.
    replace (length pre + S (length knns))%nat with (length pre + 1 + length knns)%nat by lia.
    rewrite <- IH. rewrite <- app_assoc. reflexivity.
Qed.

Lemma write_rows_ok knns ofs :
  Forall (fun knn => (100 <= length knn)%nat) knns ->
  write_rows knns ofs =
  Ok (ofs ++ concat (map (fun knn => concat (map knn.u32_bytes (take 100 knn))) knns)).
Proof.
  intros H. revert ofs. induction H as [|knn knns Hk _ IH]; intros ofs; simpl.
  - now rewrite app_nil_r.
  - unfold knn.data_bytes. destruct (Z.leb_spec 100 (Z.of_nat (length knn))); [|lia].
    simpl. rewrite IH, <- app_assoc. reflexivity.
Qed.

Lemma save_loop_never_aborts (knns : list (list Z)) js ofs :
  for_each js
    (fun i ofs =>
       do knn <- index knns i;
       do bytes <- knn.data_bytes knn 100;
       Ok (ofs ++ bytes)) ofs <> Aborted.
Proof.
  revert ofs. induction js as [|j js IH]; intros ofs; simpl; [discriminate|].
  unfold index. destruct (j <? 0); simpl; [discriminate|].
  destruct (knns !! Z.to_nat j) as [knn|]; simpl; [|discriminate].
  unfold knn.data_bytes. destruct (100 <=? Z.of_nat (length knn)); simpl; [|discriminate].
  apply IH.
Qed.

Lemma serialized_length (knns : list (list Z)) :
  Forall (fun knn => (100 <= length knn)%nat) knns ->
  length (concat (map (fun knn => concat (map knn.u32_bytes (take 100 knn))) knns))
  = (400 * length knns)%nat.
Proof.
  induction 1 as [|knn knns Hk _ IH]; simpl; [reflexivity|].
  rewrite length_app, IH.
  assert (E : forall l : list Z, length (concat (map knn.u32_bytes l)) = (4 * length l)%nat).
  { induction l as [|z l IHl]; [reflexivity|].
    cbn [map concat]. rewrite length_app, IHl, u32_bytes_length. simpl. lia. }
  rewrite E, length_take. lia.
Qed.

(** C8. [SaveKNN] aborts exactly when the first result set does not hold 100
    entries; the rows after the first are not checked. Otherwise each row is
    written as its first 100 entries, four bytes each, in row order and with
    nothing before, between or after them; when every row holds exactly 100
    entries these are the rows themselves. *)
Theorem SaveKNN_contract (first : list Z) (rest : list (list Z)) :
  (knn.SaveKNN (first :: rest) = Aborted <-> length first <> 100%nat) /\
  (Z.of_nat (length (first :: rest)) < 2 ^ 32 ->
   length first = 100%nat ->
   Forall (fun knn => (100 <= length knn)%nat) rest ->
   let bytes :=
     concat (map (fun knn => concat (map knn.u32_bytes (take 100 knn))) (first :: rest)) in
   knn.SaveKNN (first :: rest) = Ok bytes /\
   length bytes = (400 * length (first :: rest))%nat /\
   (Forall (fun knn => length knn = 100%nat) rest ->
    bytes = concat (map (fun knn => concat (map knn.u32_bytes knn)) (first :: rest)))).
Proof.
  split.
  - unfold knn.SaveKNN. cbn [knn.front bind].
    destruct (Z.eqb_spec (Z.of_nat (length first)) 100) as [E|E].
    + split; [|lia]. intros H. exfalso. revert H. unfold for_range.
      apply save_loop_never_aborts.
    + split; [lia|reflexivity].
  - intros Hsize Hfirst Hrest bytes.
    assert (Hall : Forall (fun knn => (100 <= length knn)%nat) (first :: rest)).
    { constructor; [lia|exact Hrest]. }
    split; [|split].
    + unfold knn.SaveKNN. cbn [knn.front bind].
      destruct (Z.eqb_spec (Z.of_nat (length first)) 100) as [_|E]; [|lia].
      unfold U32.of_size, U32.wrap, U32.modulus. rewrite Z.mod_small by lia.
      unfold for_range.
      pose proof (save_loop_write_rows [] (first :: rest) [] []) as L.
      rewrite app_nil_r in L. simpl app in L. simpl length at 1 2 in L.
      change (Z.of_nat 0) with 0 in L. rewrite Nat.add_0_l in L.
      rewrite L. now rewrite write_rows_ok.
    + now apply serialized_length.
    + intros Hexact. subst bytes. f_equal. apply List.map_ext_in.
      intros knn Hin. rewrite firstn_all2; [reflexivity|].
      destruct Hin as [<-|Hin]; [lia|].
      rewrite List.Forall_forall in Hexact. rewrite (Hexact knn Hin). lia.
Qed.

Lemma SaveKNN_empty : knn.SaveKNN [] = Undefined.
Proof. reflexivity. Qed.

Lemma SaveKNN_contract_witness :
  let knns := [range 0 100; range 100 200; range 0 101] in
  let bytes := concat (map (fun knn => concat (map knn.u32_bytes (take 100 knn))) knns) in
  knn.SaveKNN knns = Ok bytes /\ length bytes = 1200%nat.
Proof.
  intros knns bytes.
  destruct (SaveKNN_contract (range 0 100) [range 100 200; range 0 101]) as [_ H].
  destruct H as (Hok & Hlen & _).
  - vm_compute. reflexivity.
  - reflexivity.
  - repeat constructor; vm_compute; lia.
  - split; [exact Hok|exact Hlen].
Defined.

(** ** [ReadBin] *)

Lemma complete_rows_0 d bytes :
  (0 < d)%nat -> complete_rows d bytes = O <-> (length bytes < d * 4)%nat.
Proof.
  intros Hd. unfold complete_rows. rewrite Nat.div_small_iff by lia. reflexivity.
Qed.

Lemma complete_rows_drop d bytes :
  (0 < d)%nat -> (d * 4 <= length bytes)%nat ->
  complete_rows d bytes = S (complete_rows d (drop (d * 4) bytes)).
Proof.
  intros Hd Hlen. unfold complete_rows. rewrite length_drop.
  replace (length bytes) with ((length bytes - d * 4) + 1 * (d * 4))%nat at 1 by lia.
  rewrite Nat.div_add by lia. lia.
Qed.

Lemma floats_of_bytes_length d bytes : length (knn.floats_of_bytes d bytes) = d.
Proof. revert bytes. induction d as [|d IH]; intros bytes; simpl; auto. Qed.

Lemma rows_of_length d bytes c : length (rows_of d bytes c) = c.
Proof. revert bytes. induction c as [|c IH]; intros bytes; simpl; auto. Qed.

Lemma rows_of_dimensions d bytes c :
  Forall (fun row => length row = d) (rows_of d bytes c).
Proof.
  revert bytes. induction c as [|c IH]; intros bytes; simpl; constructor; auto.
  apply floats_of_bytes_length.
Qed.

Lemma read_rows_fits d fuel bytes (counter : nat) data :
  (0 < d)%nat ->
  let c := complete_rows d bytes in
  (c <= fuel)%nat -> (counter + c <= length data)%nat ->
  Z.of_nat (counter + c) < 2 ^ 31 ->
  knn.read_rows fuel d {| knn.rest := bytes; knn.failbit := false |}
    (Z.of_nat counter) data
  = Ok (take counter data ++ rows_of d bytes c ++ drop (counter + c) data).
Proof.
  intros Hd c. subst c. remember (complete_rows d bytes) as c eqn:Hc.
  revert fuel bytes counter data Hc.
  induction c as [|c IH]; intros fuel bytes counter data Hc Hfuel Hfit Hint.
  - symmetry in Hc. apply complete_rows_0 in Hc; [|exact Hd].
    assert (E : knn.read (d * 4) {| knn.rest := bytes; knn.failbit := false |}
                = (bytes, {| knn.rest := []; knn.failbit := true |})).
    { unfold knn.read. simpl. destruct (Nat.leb_spec (d * 4) (length bytes)); [lia|reflexivity]. }
    destruct fuel; simpl knn.read_rows; rewrite E; simpl;
      now rewrite Nat.add_0_r, take_drop.
  - pose proof Hc as Hc'. rewrite complete_rows_drop in Hc'.
    2: exact Hd.
    2:{ destruct (Nat.le_gt_cases (d * 4) (length bytes)) as [?|Hlt]; [assumption|].
        apply (complete_rows_0 d bytes Hd) in Hlt. lia. }
    injection Hc' as Hc'.
    assert (Hlen : (d * 4 <= length bytes)%nat).
    { destruct (Nat.le_gt_cases (d * 4) (length bytes)) as [?|Hlt]; [assumption|].
      apply (complete_rows_0 d bytes Hd) in Hlt. lia. }
    assert (E : knn.read (d * 4) {| knn.rest := bytes; knn.failbit := false |}
                = (take (d * 4) bytes,
                   {| knn.rest := drop (d * 4) bytes; knn.failbit := false |})).
    { unfold knn.read. simpl. destruct (Nat.leb_spec (d * 4) (length bytes)); [reflexivity|lia]. }
    destruct fuel as [|fuel]; [lia|].
    simpl knn.read_rows. rewrite E. simpl.
    destruct (Z.leb_spec 0 (Z.of_nat counter)); [|lia].
    destruct (Z.ltb_spec (Z.of_nat counter) (Z.of_nat (length data))); [|lia].
    cbn [andb].
    destruct (Z.ltb_spec (Z.of_nat counter) knn.INT_MAX); [|unfold knn.INT_MAX in *; lia].
    replace (Z.of_nat counter + 1) with (Z.of_nat (S counter)) by lia.
    rewrite (IH fuel (drop (d * 4) bytes) (S counter));
      rewrite ?length_insert; try lia; try assumption.
    rewrite Nat2Z.id.
    destruct (lookup_lt_is_Some_2 data counter) as [old Hold]; [lia|].
    rewrite (take_S_r _ _ (knn.floats_of_bytes d (take (d * 4) bytes))).
    2:{ apply list_lookup_insert_eq. lia. }
    rewrite take_insert_ge by lia.
    rewrite drop_insert_lt by lia.
    rewrite <- app_assoc. simpl.
    now replace (counter + S c)%nat with (S (counter + c)) by lia.
Qed.

Lemma read_rows_overflows d fuel bytes (counter : nat) data (k : nat) :
  (0 < d)%nat ->
  (k < complete_rows d bytes)%nat ->
  (k < fuel)%nat ->
  (length data <= counter + k)%nat \/ knn.INT_MAX <= Z.of_nat (counter + k) ->
  knn.read_rows fuel d {| knn.rest := bytes; knn.failbit := false |}
    (Z.of_nat counter) data
  = Undefined.
Proof.
  intros Hd. revert fuel bytes counter data.
  induction k as [|k IH]; intros fuel bytes counter data Hc Hfuel Hk;
    (assert (Hlen : (d * 4 <= length bytes)%nat);
     [destruct (Nat.le_gt_cases (d * 4) (length bytes)) as [?|Hlt]; [assumption|];
      apply (complete_rows_0 d bytes Hd) in Hlt; lia|]);
    (assert (E : knn.read (d * 4) {| knn.rest := bytes; knn.failbit := false |}
                = (take (d * 4) bytes,
                   {| knn.rest := drop (d * 4) bytes; knn.failbit := false |}));
     [unfold knn.read; cbn [knn.failbit knn.rest];
      destruct (Nat.leb_spec (d * 4) (length bytes)); [reflexivity|lia]|]);
    (destruct fuel as [|fuel]; [lia|]);
    cbn [knn.read_rows]; rewrite E; cbn [knn.failbit];
    destruct (Z.leb_spec 0 (Z.of_nat counter)); try lia;
    destruct (Z.ltb_spec (Z.of_nat counter) (Z.of_nat (length data))); cbn [andb];
    try reflexivity;
    destruct (Z.ltb_spec (Z.of_nat counter) knn.INT_MAX); try reflexivity.
  - lia.
  - replace (Z.of_nat counter + 1) with (Z.of_nat (S counter)) by lia.
    apply IH; rewrite ?length_insert; try lia.
    rewrite (complete_rows_drop d bytes Hd Hlen) in Hc. lia.
Qed.

Lemma ReadBin_spec (bytes : list Byte.byte) (d : nat) :
  (0 < d)%nat -> (4 <= length bytes)%nat ->
  let N := declared_count bytes in
  let c := complete_rows d (drop 4 bytes) in
  knn.ReadBin (Some bytes) d =
  if (c <=? N)%nat && (Z.of_nat c <? 2 ^ 31)
  then Ok (rows_of d (drop 4 bytes) c ++ replicate (N - c) [])
  else Undefined.
Proof.
  intros Hd Hlen N c. unfold knn.ReadBin.
  assert (E : knn.read 4 {| knn.rest := bytes; knn.failbit := false |}
              = (take 4 bytes, {| knn.rest := drop 4 bytes; knn.failbit := false |})).
  { unfold knn.read. cbn [knn.failbit knn.rest].
    destruct (Nat.leb_spec 4 (length bytes)); [reflexivity|lia]. }
  rewrite E. cbv beta iota zeta. fold (declared_count bytes). fold N.
  change 0 with (Z.of_nat 0).
  destruct (Nat.leb_spec c N) as [Hfit|Hover];
    [destruct (Z.ltb_spec (Z.of_nat c) (2 ^ 31)) as [Hint|Hint]|]; cbn [andb].
  - rewrite (read_rows_fits d (S N) (drop 4 bytes) 0 (replicate N [])); fold c;
      rewrite ?length_replicate; try lia.
    cbn [take app Nat.add]. now rewrite drop_replicate.
  - apply (read_rows_overflows d (S N) (drop 4 bytes) 0 (replicate N [])
             (Z.to_nat knn.INT_MAX));
      rewrite ?length_replicate; fold c; unfold knn.INT_MAX; lia.
  - apply (read_rows_overflows d (S N) (drop 4 bytes) 0 (replicate N []) N);
      rewrite ?length_replicate; fold c; lia.
Qed.

(** C10. When the header declares more rows than the file holds complete
    ones, [ReadBin] still returns the declared number of rows: the complete
    rows read from the file, followed by empty rows in the remaining slots.
    The complete rows are fewer than [2^31], so that the [int] row counter
    does not overflow. *)
Theorem ReadBin_leaves_empty_rows (bytes : list Byte.byte) (d : nat) :
  (0 < d)%nat -> (4 <= length bytes)%nat ->
  let N := declared_count bytes in
  let c := complete_rows d (drop 4 bytes) in
  (c < N)%nat -> Z.of_nat c < 2 ^ 31 ->
  exists rows data,
    knn.ReadBin (Some bytes) d = Ok data /\
    data = rows ++ replicate (N - c) [] /\
    rows = rows_of d (drop 4 bytes) c /\
    length rows = c /\
    Forall (fun row => length row = d) rows /\
    length data = N /\
    (forall i, (c <= i < N)%nat -> data !! i = Some []).
Proof.
  intros Hd Hlen N c Hc Hint.
  exists (rows_of d (drop 4 bytes) c), (rows_of d (drop 4 bytes) c ++ replicate (N - c) []).
  repeat split.
  - rewrite ReadBin_spec by assumption. fold N c.
    destruct (Nat.leb_spec c N); [|lia].
    destruct (Z.ltb_spec (Z.of_nat c) (2 ^ 31)); [reflexivity|lia].
  - apply rows_of_length.
  - apply rows_of_dimensions.
  - rewrite length_app, rows_of_length, length_replicate. lia.
  - intros i Hi. rewrite lookup_app_r; rewrite rows_of_length; [|lia].
    apply lookup_replicate_2. lia.
Qed.

Lemma ReadBin_leaves_empty_rows_witness :
  let bytes := knn.u32_bytes 3 ++ knn.u32_bytes 0x3F800000 ++ knn.u32_bytes 0x40000000
               ++ knn.u32_bytes 0x40400000 ++ [Byte.x00; Byte.x01] in
  knn.ReadBin (Some bytes) 2 = Ok [[F32.of_int 1; F32.of_int 2]; []; []].
Proof.
  intros bytes.
  destruct (ReadBin_leaves_empty_rows bytes 2) as (rows & data & Hok & -> & -> & _).
  - lia.
  - vm_compute. lia.
  - vm_compute. lia.
  - vm_compute. reflexivity.
  - rewrite Hok. vm_compute. reflexivity.
Defined.

(** C3 on the code. The read loop has no bound on [counter]: with a header
    declaring one row and two complete rows in the file, the second row is
    assigned to [data[1]] of a vector of size 1. *)
Theorem ReadBin_overruns_declared_count :
  let bytes := knn.u32_bytes 1 ++ knn.u32_bytes 0x3F800000 ++ knn.u32_bytes 0x40000000 in
  declared_count bytes = 1%nat /\
  complete_rows 1 (drop 4 bytes) = 2%nat /\
  knn.ReadBin (Some bytes) 1 = Undefined.
Proof. vm_compute. repeat split. Qed.

Lemma ReadBin_overruns (bytes : list Byte.byte) (d : nat) :
  (0 < d)%nat -> (4 <= length bytes)%nat ->
  (declared_count bytes < complete_rows d (drop 4 bytes))%nat ->
  knn.ReadBin (Some bytes) d = Undefined.
Proof.
  intros Hd Hlen Hover. rewrite ReadBin_spec by assumption.
  destruct (Nat.leb_spec (complete_rows d (drop 4 bytes)) (declared_count bytes));
    [lia|reflexivity].
Qed.

(** ** Ranking *)

Lemma for_each_ext {S} js (body1 body2 : Z -> S -> outcome S) s :
  (forall j s, In j js -> body1 j s = body2 j s) ->
  for_each js body1 s = for_each js body2 s.
Proof.
  revert s. induction js as [|j js IH]; intros s Hext; simpl; [reflexivity|].
  rewrite Hext by (simpl; auto). destruct (body2 j s); simpl; auto.
  apply IH. intros; apply Hext; simpl; auto.
Qed.

Lemma for_range_ext {S} lo hi (body1 body2 : Z -> S -> outcome S) s :
  (forall j s, body1 j s = body2 j s) ->
  for_range lo hi body1 s = for_range lo hi body2 s.
Proof. intros Hext. apply for_each_ext. auto. Qed.

(** A loop that assigns [f j] to slot [j] of a vector, for [j] below [m]. *)
Lemma fill_prefix {A} (f : Z -> outcome A) (init : list A) (m : nat) res :
  (m <= length init)%nat ->
  for_range 0 (Z.of_nat m)
    (fun j s => do x <- f j; Ok (<[Z.to_nat j := x]> s)) init = Ok res ->
  exists xs, res = xs ++ drop m init /\ length xs = m /\
             Forall2 (fun j x => f j = Ok x) (range 0 (Z.of_nat m)) xs.
Proof.
  unfold for_range. revert res. induction m as [|m IH]; intros res Hm.
  - simpl. intros [= <-]. exists []. repeat split. constructor.
  - replace (Z.of_nat (S m)) with (Z.of_nat m + 1) by lia.
    rewrite range_snoc by lia. rewrite for_each_app.
    intros H. apply bind_Ok in H as (s' & Hs' & H).
    apply IH in Hs' as (xs & -> & Hlen & Hall); [|lia].
    simpl in H. apply bind_Ok in H as (s'' & H & [= <-]).
    apply bind_Ok in H as (x & Hx & [= <-]).
    rewrite Nat2Z.id.
    destruct (lookup_lt_is_Some_2 init m) as [y Hy]; [lia|].
    rewrite (drop_S _ _ _ Hy).
    exists (xs ++ [x]). repeat split.
    + rewrite insert_app_r_alt by lia. rewrite Hlen, Nat.sub_diag. simpl.
      now rewrite <- app_assoc.
    + rewrite length_app. simpl. lia.
    + apply Forall2_app; [exact Hall|]. repeat constructor. exact Hx.
Qed.

Lemma fill_loop {A} (f : Z -> outcome A) (init : list A) res :
  for_range 0 (Z.of_nat (length init))
    (fun j s => do x <- f j; Ok (<[Z.to_nat j := x]> s)) init = Ok res ->
  length res = length init /\
  Forall2 (fun j x => f j = Ok x) (range 0 (Z.of_nat (length init))) res.
Proof.
  intros H. apply fill_prefix in H as (xs & -> & Hlen & Hall); [|lia].
  rewrite drop_all, app_nil_r. auto.
Qed.

Lemma range_lookup lo hi (i : nat) :
  Z.of_nat i < hi - lo -> range lo hi !! i = Some (lo + Z.of_nat i).
Proof.
  intros H. unfold range.
  change (map ?f ?l) with (f <$> l). rewrite list_lookup_fmap.
  rewrite lookup_seq_lt by lia. reflexivity.
Qed.

Lemma range_lookup_Some lo hi (i : nat) j :
  range lo hi !! i = Some j -> j = lo + Z.of_nat i /\ Z.of_nat i < hi - lo.
Proof.
  intros H. pose proof (lookup_lt_Some _ _ _ H) as Hlt.
  rewrite range_length in Hlt.
  rewrite range_lookup in H by lia. injection H as <-. lia.
Qed.

Lemma strict_weak_orderb_spec comp l :
  strict_weak_orderb comp l = true -> strict_weak_order comp l.
Proof.
  unfold strict_weak_orderb, strict_weak_order.
  rewrite andb_true_iff, !forallb_forall. intros [Hirr Hrest].
  assert (Hall : forall a b c, In a l -> In b l -> In c l ->
            implb (comp a b && comp b c) (comp a c) &&
            implb (equiv comp a b && equiv comp b c) (equiv comp a c) = true).
  { intros a b c Ha Hb Hc. specialize (Hrest a Ha).
    rewrite forallb_forall in Hrest. specialize (Hrest b Hb).
    rewrite forallb_forall in Hrest. exact (Hrest c Hc). }
  repeat split.
  - intros a Ha. specialize (Hirr a Ha). now destruct (comp a a).
  - intros a b c Ha Hb Hc Hab Hbc. specialize (Hall a b c Ha Hb Hc).
    rewrite Hab, Hbc in Hall. simpl in Hall. now destruct (comp a c).
  - intros a b c Ha Hb Hc Hab Hbc. specialize (Hall a b c Ha Hb Hc).
    rewrite Hab, Hbc in Hall. simpl in Hall.
    apply andb_true_iff in Hall as [_ Hall]. exact Hall.
Qed.

Lemma rank_inv `{RangesSort} nodes query_vec knn row :
  rank nodes query_vec knn = Ok row ->
  exists dists ids,
    Forall2 (fun id d => dist_of nodes query_vec id = Ok d) knn dists /\
    Permutation (range 0 (Z.of_nat (length knn))) ids /\
    sorted_by (dist_less dists) ids /\
    length row = 100%nat /\
    Forall2 (fun j id => exists i, index ids j = Ok i /\ index knn i = Ok id)
            (range 0 100) row.
Proof.
  unfold rank. intros Hr. apply bind_Ok in Hr as (dists & Hd & Hr).
  destruct (strict_weak_orderb _ _) eqn:Hswo; [|discriminate].
  apply strict_weak_orderb_spec in Hswo.
  exists dists, (ranges_sort (dist_less dists) (range 0 (Z.of_nat (length knn)))).
  assert (Hdists : Forall2 (fun id d => dist_of nodes query_vec id = Ok d) knn dists).
  { unfold for_range in Hd.
    rewrite (for_each_ext _ _
      (fun j s => do x <- (do id <- index knn j; dist_of nodes query_vec id);
                  Ok (<[Z.to_nat j := x]> s))) in Hd.
    2:{ intros j s _. unfold dist_of. destruct (index knn j) as [id| | |]; simpl; auto.
        destruct (index nodes id); simpl; auto. }
    rewrite <- (length_replicate (length knn) F32.zero) in Hd at 1.
    apply fill_loop in Hd as [Hlen Hall]. rewrite length_replicate in Hlen, Hall.
    apply Forall2_same_length_lookup_2; [congruence|].
    intros i id d Hid Hdi.
    pose proof (lookup_lt_Some _ _ _ Hid) as Hi.
    pose proof (Forall2_lookup_lr _ _ _ i (Z.of_nat i) d Hall) as Hf.
    rewrite range_lookup in Hf by lia. specialize (Hf eq_refl Hdi).
    apply bind_Ok in Hf as (id' & Hid' & Hf).
    apply index_Ok in Hid' as [_ Hid']. rewrite Nat2Z.id in Hid'. congruence. }
  split; [exact Hdists|].
  split; [now apply ranges_sort_perm|].
  split; [now apply ranges_sort_sorted|].
  unfold for_range in Hr.
  rewrite (for_each_ext _ _
    (fun j s => do x <- (do i <- index (ranges_sort (dist_less dists)
                                 (range 0 (Z.of_nat (length knn)))) j;
                         index knn i);
                Ok (<[Z.to_nat j := x]> s))) in Hr.
  2:{ intros j s _. destruct (index _ j) as [i| | |]; simpl; auto. }
  change K_NEAREST with (Z.of_nat (length (replicate (Z.to_nat K_NEAREST) 0))) in Hr.
  apply fill_loop in Hr as [Hlen Hall]. split; [exact Hlen|].
  change (Z.of_nat (length (replicate (Z.to_nat K_NEAREST) 0))) with 100 in Hall.
  eapply Forall2_impl; [exact Hall|]. intros j id Hj. simpl in Hj.
  apply bind_Ok in Hj as (i & Hi & Hid). eauto.
Qed.

Lemma ltb_nan_l x : F32.ltb S754_nan x = false.
Proof. reflexivity. Qed.

Lemma ltb_nan_r x : F32.ltb x S754_nan = false.
Proof. now destruct x. Qed.

Lemma SFcompare_antisym a b :
  SFcompare b a = option_map CompOpp (SFcompare a b).
Proof.
  destruct a as [s1|s1| |s1 m1 e1], b as [s2|s2| |s2 m2 e2]; simpl;
    try reflexivity; try (now destruct s1); try (now destruct s2);
    try (now destruct s1, s2).
  rewrite (Z.compare_antisym e1 e2), !Pos.compare_cont_spec. simpl.
  rewrite (Pos.compare_antisym m1 m2).
  destruct s1, s2; simpl; try reflexivity;
    destruct (e1 ?= e2); simpl; try reflexivity;
    destruct (m1 ?= m2)%positive; reflexivity.
Qed.

Lemma ltb_false_leb a b :
  F32.is_nan a = false -> F32.is_nan b = false ->
  F32.ltb b a = false -> F32.leb a b = true.
Proof.
  unfold F32.ltb, F32.leb, SFltb, SFleb. intros Ha Hb.
  rewrite (SFcompare_antisym a b).
  destruct (SFcompare a b) as [[| |]|] eqn:E; simpl; try reflexivity; try discriminate.
  destruct a, b; try discriminate; simpl in E; try discriminate;
    repeat match type of E with context [if ?s then _ else _] => destruct s end;
    discriminate.
Qed.

Lemma SFcompare_refl x : F32.is_nan x = false -> SFcompare x x = Some Eq.
Proof.
  destruct x as [s|s| |s m e]; simpl; try discriminate; intros _;
    try (now destruct s).
  rewrite Z.compare_refl, Pos.compare_cont_spec, Pos.compare_refl.
  now destruct s.
Qed.

Lemma ltb_irrefl x : F32.ltb x x = false.
Proof.
  unfold F32.ltb, SFltb. destruct (F32.is_nan x) eqn:E.
  - now destruct x.
  - now rewrite SFcompare_refl.
Qed.

Lemma lex_compare_trans c e1 m1 e2 m2 e3 m3 :
  lex_compare e1 m1 e2 m2 = c -> lex_compare e2 m2 e3 m3 = c ->
  lex_compare e1 m1 e3 m3 = c.
Proof.
  unfold lex_compare.
  destruct (Z.compare_spec e1 e2), (Z.compare_spec e2 e3), (Z.compare_spec e1 e3);
    try lia; subst; intros <-; try discriminate; try reflexivity; try congruence;
    destruct (Pos.compare_spec m1 m2), (Pos.compare_spec m2 m3), (Pos.compare_spec m1 m3);
    try lia; try discriminate; try reflexivity; try congruence.
Qed.

Lemma SFcompare_finite s1 m1 e1 s2 m2 e2 :
  SFcompare (S754_finite s1 m1 e1) (S754_finite s2 m2 e2) =
  Some match s1, s2 with
       | true, false => Lt
       | false, true => Gt
       | false, false => lex_compare e1 m1 e2 m2
       | true, true => CompOpp (lex_compare e1 m1 e2 m2)
       end.
Proof.
  simpl. unfold lex_compare. rewrite !Pos.compare_cont_spec. simpl.
  destruct s1, s2; try reflexivity; destruct (e1 ?= e2); try reflexivity;
    now destruct (m1 ?= m2)%positive.
Qed.

Lemma SFcompare_trans c x y z :
  SFcompare x y = Some c -> SFcompare y z = Some c -> SFcompare x z = Some c.
Proof.
  destruct x as [s1|s1| |s1 m1 e1], y as [s2|s2| |s2 m2 e2], z as [s3|s3| |s3 m3 e3];
    rewrite ?SFcompare_finite;
    try (simpl; discriminate);
    try (simpl; destruct s1; destruct s2; destruct s3; congruence);
    try (simpl; destruct s1; destruct s2; congruence);
    try (simpl; destruct s1; destruct s3; congruence);
    try (simpl; destruct s2; destruct s3; congruence);
    try (simpl; destruct s1; congruence);
    try (simpl; destruct s2; congruence);
    try (simpl; destruct s3; congruence);
    try (simpl; congruence).
  all: try (destruct s1, s2; simpl; try congruence; fail).
  all: try (destruct s2, s3; simpl; try congruence; fail).
  all: try (destruct s1, s3; simpl; try congruence; fail).
  destruct s1, s2, s3; intros [= H1] [= H2]; try congruence; f_equal.
  - apply (f_equal CompOpp) in H1, H2. rewrite CompOpp_involutive in H1, H2.
    rewrite (lex_compare_trans _ _ _ _ _ _ _ H1 H2). apply CompOpp_involutive.
  - exact (lex_compare_trans _ _ _ _ _ _ _ H1 H2).
Qed.

Lemma SFcompare_total x y :
  F32.is_nan x = false -> F32.is_nan y = false -> exists c, SFcompare x y = Some c.
Proof.
  destruct x, y; try discriminate; intros _ _;
    rewrite ?SFcompare_finite; simpl; eauto.
Qed.

Lemma ltb_trans x y z :
  F32.ltb x y = true -> F32.ltb y z = true -> F32.ltb x z = true.
Proof.
  unfold F32.ltb, SFltb.
  destruct (SFcompare x y) as [[| |]|] eqn:Hxy; try discriminate.
  destruct (SFcompare y z) as [[| |]|] eqn:Hyz; try discriminate.
  now rewrite (SFcompare_trans Lt x y z Hxy Hyz).
Qed.

Lemma unordered_Eq x y :
  F32.is_nan x = false -> F32.is_nan y = false ->
  F32.ltb x y = false -> F32.ltb y x = false -> SFcompare x y = Some Eq.
Proof.
  intros Hx Hy. unfold F32.ltb, SFltb. rewrite (SFcompare_antisym x y).
  destruct (SFcompare_total x y Hx Hy) as [[| |] ->]; simpl; congruence.
Qed.

Lemma Eq_unordered x y :
  SFcompare x y = Some Eq -> F32.ltb x y = false /\ F32.ltb y x = false.
Proof.
  intros H. unfold F32.ltb, SFltb. rewrite (SFcompare_antisym x y), H. auto.
Qed.

(** On values that are not NaN, [<] is a strict weak order. *)
Lemma ltb_strict_weak_order (key : Z -> F32.t) (l : list Z) :
  (forall a, In a l -> F32.is_nan (key a) = false) ->
  strict_weak_order (fun a b => F32.ltb (key a) (key b)) l.
Proof.
  intros Hnan. repeat split.
  - intros a _. apply ltb_irrefl.
  - intros a b c _ _ _. apply ltb_trans.
  - intros a b c Ha Hb Hc. unfold equiv. rewrite !andb_true_iff, !negb_true_iff.
    intros [Hab Hba] [Hbc Hcb].
    apply Eq_unordered.
    apply (SFcompare_trans Eq _ (key b)); apply unordered_Eq; auto.
Qed.

Lemma strict_weak_orderb_complete comp l :
  strict_weak_order comp l -> strict_weak_orderb comp l = true.
Proof.
  intros (Hirr & Htr & Heq). unfold strict_weak_orderb.
  rewrite andb_true_iff, !forallb_forall. split.
  - intros a Ha. now rewrite Hirr.
  - intros a Ha. rewrite forallb_forall. intros b Hb.
    rewrite forallb_forall. intros c Hc. rewrite andb_true_iff. split.
    + destruct (comp a b) eqn:Hab, (comp b c) eqn:Hbc; simpl; try reflexivity.
      now rewrite (Htr a b c).
    + destruct (equiv comp a b) eqn:Hab, (equiv comp b c) eqn:Hbc; simpl; try reflexivity.
      now rewrite (Heq a b c).
Qed.

Lemma StronglySorted_impl_in {A} (R1 R2 : A -> A -> Prop) l :
  (forall x y, In x l -> In y l -> R1 x y -> R2 x y) ->
  StronglySorted R1 l -> StronglySorted R2 l.
Proof.
  intros Himp Hs. induction Hs as [|x l Hs IH Hx]; constructor.
  - apply IH. intros a b Ha Hb. apply Himp; simpl; auto.
  - rewrite List.Forall_forall in *. intros y Hy. apply Himp; simpl; auto.
Qed.

Lemma dist_less_at_or dists a b :
  dist_less dists a b = F32.ltb (at_or dists S754_nan a) (at_or dists S754_nan b).
Proof.
  unfold dist_less, at_or.
  destruct (index dists a), (index dists b); auto using ltb_nan_l, ltb_nan_r.
Qed.

Lemma map_at_or_range {A} (v : list A) (d : A) :
  map (at_or v d) (range 0 (Z.of_nat (length v))) = v.
Proof.
  apply list_eq. intros i. change (map ?f ?l) with (f <$> l).
  rewrite list_lookup_fmap.
  destruct (v !! i) as [a|] eqn:Hi.
  - pose proof (lookup_lt_Some _ _ _ Hi). rewrite range_lookup by lia. simpl.
    unfold at_or. rewrite (proj2 (index_Ok v (0 + Z.of_nat i) a)); [reflexivity|].
    split; [lia|]. now replace (Z.to_nat (0 + Z.of_nat i)) with i by lia.
  - apply lookup_ge_None in Hi.
    rewrite (proj2 (lookup_ge_None _ i)); [reflexivity|]. rewrite range_length. lia.
Qed.

Lemma rank_spec `{RangesSort} nodes query_vec knn row :
  (100 <= length knn)%nat ->
  rank nodes query_vec knn = Ok row ->
  exists order dists,
    Permutation knn order /\
    row = take 100 order /\
    length row = 100%nat /\
    Forall2 (fun id d => dist_of nodes query_vec id = Ok d) order dists /\
    StronglySorted (fun a b => F32.ltb b a = false) dists.
Proof.
  intros Hlen Hr.
  apply rank_inv in Hr as (dists & ids & Hd & Hperm & Hsorted & Hrow & Hcopy).
  assert (Hin : forall i, In i ids -> 0 <= i < Z.of_nat (length knn)).
  { intros i Hi. apply in_range.
    now apply (Permutation_in _ (Permutation_sym Hperm)). }
  exists (map (at_or knn 0) ids), (map (at_or dists S754_nan) ids).
  split; [|split; [|split; [|split]]].
  - rewrite <- (map_at_or_range knn 0) at 1. now apply Permutation_map.
  - apply list_eq. intros i.
    destruct (Nat.lt_ge_cases i 100) as [Hi|Hi].
    + rewrite lookup_take_lt by lia.
      destruct (lookup_lt_is_Some_2 row i) as [id Hid]; [lia|].
      destruct (Forall2_lookup_r _ _ _ i id Hcopy Hid) as (j & Hj & i' & Hi' & Hk).
      apply range_lookup_Some in Hj as [-> _].
      apply index_Ok in Hi' as [_ Hi'].
      replace (Z.to_nat (0 + Z.of_nat i)) with i in Hi' by lia.
      change (map ?f ?l) with (f <$> l). rewrite list_lookup_fmap, Hi', Hid. simpl.
      unfold at_or. now rewrite Hk.
    + rewrite lookup_take_ge by lia. apply lookup_ge_None. lia.
  - exact Hrow.
  - change (map ?f ?l) with (f <$> l). apply Forall2_fmap.
    apply Forall2_same_length_lookup_2; [reflexivity|].
    intros k i i' Hi Hi'. assert (i' = i) as -> by congruence.
    apply list_elem_of_lookup_2, list_elem_of_In, Hin in Hi.
    destruct (lookup_lt_is_Some_2 knn (Z.to_nat i)) as [id Hid]; [lia|].
    destruct (Forall2_lookup_l _ _ _ _ _ Hd Hid) as (d & Hdi & Hdist).
    unfold at_or. rewrite (proj2 (index_Ok knn i id)) by (split; [lia|exact Hid]).
    rewrite (proj2 (index_Ok dists i d)) by (split; [lia|exact Hdi]).
    exact Hdist.
  - change (map ?f ?l) with (f <$> l).
    apply (StronglySorted_fmap _ (fun a b => dist_less dists b a = false));
      [|exact Hsorted].
    intros x y. unfold dist_less, at_or.
    destruct (index dists y) as [a| | |], (index dists x) as [b| | |];
      auto using ltb_nan_l, ltb_nan_r.
Qed.

Lemma fill_prefix_ok {A} (f : Z -> outcome A) (init xs : list A) (m : nat) :
  (m <= length init)%nat -> length xs = length init ->
  Forall2 (fun j x => f j = Ok x) (range 0 (Z.of_nat (length init))) xs ->
  for_range 0 (Z.of_nat m)
    (fun j s => do x <- f j; Ok (<[Z.to_nat j := x]> s)) init
  = Ok (take m xs ++ drop m init).
Proof.
  unfold for_range. intros Hm Hlen Hall. induction m as [|m IH].
  - reflexivity.
  - replace (Z.of_nat (S m)) with (Z.of_nat m + 1) by lia.
    rewrite range_snoc by lia. rewrite for_each_app, IH by lia. simpl.
    destruct (lookup_lt_is_Some_2 xs m) as [x Hx]; [lia|].
    rewrite (Forall2_lookup_lr _ _ _ m (Z.of_nat m) x Hall);
      [|now rewrite range_lookup by lia|exact Hx].
    simpl. rewrite Nat2Z.id. f_equal.
    destruct (lookup_lt_is_Some_2 init m) as [y Hy]; [lia|].
    rewrite insert_app_r_alt by (rewrite length_take; lia).
    rewrite length_take, Nat.min_l, Nat.sub_diag by lia.
    rewrite (drop_S _ _ _ Hy). simpl.
    rewrite (take_S_r _ _ _ Hx), <- app_assoc. reflexivity.
Qed.

Lemma fill_loop_ok {A} (f : Z -> outcome A) (init xs : list A) :
  length xs = length init ->
  Forall2 (fun j x => f j = Ok x) (range 0 (Z.of_nat (length init))) xs ->
  for_range 0 (Z.of_nat (length init))
    (fun j s => do x <- f j; Ok (<[Z.to_nat j := x]> s)) init
  = Ok xs.
Proof.
  intros Hlen Hall. rewrite (fill_prefix_ok f init xs) by (auto; lia).
  rewrite drop_all, app_nil_r, <- Hlen. now rewrite firstn_all.
Qed.

Lemma rank_defined `{RangesSort} nodes query_vec knn dists :
  (100 <= length knn)%nat ->
  Forall2 (fun id d => dist_of nodes query_vec id = Ok d) knn dists ->
  strict_weak_order (dist_less dists) (range 0 (Z.of_nat (length knn))) ->
  rank nodes query_vec knn =
  Ok (take 100 (map (at_or knn 0)
                    (ranges_sort (dist_less dists) (range 0 (Z.of_nat (length knn)))))).
Proof.
  intros Hlen Hd Hswo. unfold rank.
  assert (Hdl : length dists = length knn) by (symmetry; eapply Forall2_length; eauto).
  assert (E1 : for_range 0 (Z.of_nat (length knn))
      (fun j dists0 =>
         do id <- index knn j;
         do node <- index nodes id;
         do d <- compare_with_id node query_vec;
         Ok (<[Z.to_nat j := d]> dists0))
      (replicate (length knn) F32.zero) = Ok dists).
  { unfold for_range.
    rewrite (for_each_ext _ _
      (fun j s => do x <- (do id <- index knn j; dist_of nodes query_vec id);
                  Ok (<[Z.to_nat j := x]> s))).
    2:{ intros j s _. unfold dist_of. destruct (index knn j) as [id| | |]; simpl; auto.
        destruct (index nodes id); simpl; auto. }
    rewrite <- (length_replicate (length knn) F32.zero) at 1.
    apply fill_loop_ok; rewrite length_replicate; [exact Hdl|].
    apply Forall2_same_length_lookup_2; [rewrite range_length, Hdl; lia|].
    intros i j d Hj Hdi. apply range_lookup_Some in Hj as [-> _].
    destruct (Forall2_lookup_r _ _ _ _ _ Hd Hdi) as (id & Hid & Hdist).
    rewrite (proj2 (index_Ok knn (0 + Z.of_nat i) id)); [exact Hdist|].
    split; [lia|]. now replace (Z.to_nat (0 + Z.of_nat i)) with i by lia. }
  rewrite E1. cbn [bind].
  rewrite (strict_weak_orderb_complete _ _ Hswo).
  set (ids := ranges_sort (dist_less dists) (range 0 (Z.of_nat (length knn)))).
  assert (Hperm : Permutation (range 0 (Z.of_nat (length knn))) ids)
    by now apply ranges_sort_perm.
  assert (Hids : length ids = length knn).
  { rewrite <- (Permutation_length Hperm), range_length. clear. lia. }
  rewrite (for_range_ext _ _ _
    (fun j s => do x <- (do i <- index ids j; index knn i);
                Ok (<[Z.to_nat j := x]> s))).
  2:{ intros j s. destruct (index ids j) as [i| | |]; simpl; auto. }
  refine (fill_loop_ok (A:=Z) _ (replicate (Z.to_nat K_NEAREST) 0) _ _ _);
    rewrite length_replicate; change (Z.to_nat K_NEAREST) with 100%nat.
  - rewrite length_take, List.length_map, Hids. lia.
  - apply Forall2_same_length_lookup_2.
    { rewrite range_length, length_take, List.length_map, Hids. lia. }
    intros i j x Hj Hx. apply range_lookup_Some in Hj as [-> Hi].
    rewrite lookup_take_lt in Hx by lia.
    change (map ?f ?l) with (f <$> l) in Hx.
    apply list_lookup_fmap_Some in Hx as (i' & -> & Hi').
    rewrite (proj2 (index_Ok ids (0 + Z.of_nat i) i')).
    2:{ split; [lia|]. now replace (Z.to_nat (0 + Z.of_nat i)) with i by lia. }
    cbn [bind].
    assert (Hr : 0 <= i' < Z.of_nat (length knn)).
    { apply in_range. apply (Permutation_in _ (Permutation_sym Hperm)).
      apply list_elem_of_In. eapply list_elem_of_lookup_2; eauto. }
    destruct (index_in_range knn i' Hr) as [id Hid].
    unfold at_or. now rewrite Hid.
Qed.

Lemma padded_candidates_inv nodes n_points sample_prop query knn :
  padded_candidates nodes n_points sample_prop query = Ok knn ->
  exists found,
    query_candidates nodes sample_prop query = Ok found /\
    pad n_points found = Ok knn.
Proof. unfold padded_candidates. intros H. now apply bind_Ok in H. Qed.

Lemma pad_length n_points found knn :
  pad n_points found = Ok knn -> (100 <= length knn)%nat.
Proof.
  destruct (Z.lt_ge_cases (Z.of_nat (length found)) K_NEAREST) as [Hlt|Hge].
  - destruct (pad_appends_pure n_points found Hlt) as [Hpad Hlen].
    rewrite Hpad. intros [= <-]. unfold K_NEAREST in *. lia.
  - rewrite pad_enough by lia. intros [= <-]. unfold K_NEAREST in *. lia.
Qed.

Lemma dists_of_Forall2 nodes query_vec knn dists :
  dists_of nodes query_vec knn = Ok dists <->
  Forall2 (fun id d => dist_of nodes query_vec id = Ok d) knn dists.
Proof.
  revert dists. induction knn as [|id knn IH]; intros dists; simpl.
  - split; [intros [= <-]; constructor|]. intros Hf. now inversion Hf.
  - split.
    + intros H. apply bind_Ok in H as (d & Hd & H).
      apply bind_Ok in H as (ds & Hds & [= <-]). constructor; [exact Hd|now apply IH].
    + intros Hf. inversion Hf as [|? d ? ds Hd Hds]; subst.
      rewrite Hd. simpl. apply IH in Hds. now rewrite Hds.
Qed.

Lemma strict_weak_order_ext comp1 comp2 l :
  (forall a b, comp1 a b = comp2 a b) ->
  strict_weak_order comp1 l -> strict_weak_order comp2 l.
Proof.
  intros Hext (Hirr & Htr & Heq). unfold strict_weak_order, equiv in *.
  repeat split; intros; rewrite <- ?Hext in *; eauto.
Qed.

Lemma dist_less_strict_weak_order dists n :
  Forall (fun d => F32.is_nan d = false) dists ->
  (n <= length dists)%nat ->
  strict_weak_order (dist_less dists) (range 0 (Z.of_nat n)).
Proof.
  intros Hnan Hn.
  apply (strict_weak_order_ext
           (fun a b => F32.ltb (at_or dists S754_nan a) (at_or dists S754_nan b))).
  { intros a b. symmetry. apply dist_less_at_or. }
  apply ltb_strict_weak_order. intros a Ha. apply in_range in Ha.
  destruct (index_in_range dists a) as [d Hd]; [lia|].
  unfold at_or. rewrite Hd. apply index_Ok in Hd as [_ Hd].
  rewrite List.Forall_forall in Hnan. apply Hnan.
  apply list_elem_of_In. eapply list_elem_of_lookup_2; eauto.
Qed.

(** A sufficient condition for the ranking stage to be defined: every
    candidate has a distance and no distance is NaN. *)
Lemma rank_no_nan `{RangesSort} nodes query_vec knn dists :
  (100 <= length knn)%nat ->
  dists_of nodes query_vec knn = Ok dists ->
  Forall (fun d => F32.is_nan d = false) dists ->
  rank nodes query_vec knn =
  Ok (take 100 (map (at_or knn 0)
                    (ranges_sort (dist_less dists) (range 0 (Z.of_nat (length knn)))))).
Proof.
  intros Hlen Hd Hnan. apply dists_of_Forall2 in Hd.
  apply rank_defined; [exact Hlen|exact Hd|].
  apply dist_less_strict_weak_order; [exact Hnan|].
  now rewrite (Forall2_length _ _ _ Hd).
Qed.

Lemma eval_query_ranks_inv `{RangesSort} (nodes : list (list F32.t))
    (n_points sample_prop : Z) (query : list F32.t) :
  (forall knn dists,
     padded_candidates nodes n_points sample_prop query = Ok knn ->
     dists_of nodes (query_vec_of query) knn = Ok dists ->
     Forall (fun d => F32.is_nan d = false) dists ->
     exists row, eval_query nodes n_points sample_prop query = Ok row) /\
  (forall row,
     eval_query nodes n_points sample_prop query = Ok row ->
     length row = 100%nat /\
     exists knn order dists,
       padded_candidates nodes n_points sample_prop query = Ok knn /\
       (100 <= length knn)%nat /\
       Permutation knn order /\
       row = take 100 order /\
       Forall2 (fun id d => dist_of nodes (query_vec_of query) id = Ok d) order dists /\
       StronglySorted (fun a b => F32.ltb b a = false) dists).
Proof.
  split.
  - intros knn dists Hk Hd Hnan. unfold eval_query. rewrite Hk. cbn [bind].
    apply padded_candidates_inv in Hk as (found & _ & Hpad).
    apply pad_length in Hpad.
    rewrite (rank_no_nan nodes _ knn dists) by assumption. eauto.
  - intros row Hrow. unfold eval_query in Hrow.
    apply bind_Ok in Hrow as (knn & Hk & Hr).
    pose proof Hk as Hk'.
    apply padded_candidates_inv in Hk' as (found & _ & Hpad).
    apply pad_length in Hpad.
    apply rank_spec in Hr as (order & dists & Hperm & Htake & Hlen & Hd & Hs); [|exact Hpad].
    split; [exact Hlen|]. exists knn, order, dists. repeat split; auto.
Qed.

(** C4. Whenever the body of the query loop completes, the row it emits
    holds exactly 100 IDs: the first 100 entries of a rearrangement of the
    padded candidate list in which no candidate is strictly closer to the
    query than one placed before it; when no distance is NaN the distances
    along that rearrangement are ascending. The body does complete when the
    candidate list can be built, every candidate has a distance and no
    distance is NaN. *)
Theorem eval_query_ranks_top_100 `{RangesSort} (nodes : list (list F32.t))
    (n_points sample_prop : Z) (query : list F32.t) :
  (forall knn dists,
     padded_candidates nodes n_points sample_prop query = Ok knn ->
     dists_of nodes (query_vec_of query) knn = Ok dists ->
     Forall (fun d => F32.is_nan d = false) dists ->
     exists row, eval_query nodes n_points sample_prop query = Ok row) /\
  (forall row,
     eval_query nodes n_points sample_prop query = Ok row ->
     length row = 100%nat /\
     exists knn order dists,
       padded_candidates nodes n_points sample_prop query = Ok knn /\
       (100 <= length knn)%nat /\
       Permutation knn order /\
       row = take 100 order /\
       Forall2 (fun id d => dist_of nodes (query_vec_of query) id = Ok d) order dists /\
       StronglySorted (fun a b => F32.ltb b a = false) dists /\
       (Forall (fun d => F32.is_nan d = false) dists ->
        StronglySorted (fun a b => F32.leb a b = true) dists)).
Proof.
  destruct (eval_query_ranks_inv nodes n_points sample_prop query) as [Hdef Hinv].
  split; [exact Hdef|].
  intros row Hrow.
  destruct (Hinv row Hrow) as (Hlen & knn & order & dists & Hk & Hk100 & Hperm & Htake & Hd & Hs).
  split; [exact Hlen|]. exists knn, order, dists. repeat split; auto.
  intros Hnan. apply (StronglySorted_impl_in _ _ _ (fun a b Ha Hb => ltb_false_leb a b
    (proj1 (List.Forall_forall _ _) Hnan a Ha) (proj1 (List.Forall_forall _ _) Hnan b Hb)) Hs).
Qed.

(** ** Determined sorts *)

(** With no two elements equivalent, every conforming sort returns the same
    list. *)
Lemma ranges_sort_unique `{RangesSort} comp l :
  strict_weak_order comp l -> all_distinct comp l = true ->
  ranges_sort comp l = insertion_sort comp l.
Proof.
  intros Hswo Hdist.
  pose proof (ranges_sort_perm comp l Hswo) as P1.
  pose proof (insertion_sort_perm comp l) as P2.
  apply (StronglySorted_unique_strong (fun a b => comp b a = false)).
  - intros x1 x2 H1 H2 R12 R21.
    apply list_elem_of_In in H1, H2.
    apply (Permutation_in _ (Permutation_sym P1)) in H1.
    apply (Permutation_in _ (Permutation_sym P2)) in H2.
    unfold all_distinct in Hdist. rewrite forallb_forall in Hdist.
    specialize (Hdist x1 H1). rewrite forallb_forall in Hdist.
    specialize (Hdist x2 H2). unfold equiv in Hdist. rewrite R12, R21 in Hdist.
    simpl in Hdist. now apply Z.eqb_eq.
  - now apply ranges_sort_sorted.
  - now apply insertion_sort_sorted.
  - now rewrite <- P1, <- P2.
Qed.

Lemma Forall_forallb {A} (p : A -> bool) l :
  forallb p l = true -> Forall (fun a => p a = true) l.
Proof. rewrite forallb_forall, List.Forall_forall. auto. Qed.

(** The rank stage computed through a conforming sort whose outcome is
    determined. *)
Lemma rank_determined `{RangesSort} nodes query_vec knn dists :
  (100 <= length knn)%nat ->
  dists_of nodes query_vec knn = Ok dists ->
  forallb (fun d => negb (F32.is_nan d)) dists = true ->
  all_distinct (dist_less dists) (range 0 (Z.of_nat (length knn))) = true ->
  rank nodes query_vec knn =
  Ok (take 100 (map (at_or knn 0)
                    (insertion_sort (dist_less dists) (range 0 (Z.of_nat (length knn)))))).
Proof.
  intros Hlen Hd Hnan Hdist.
  assert (Hnan' : Forall (fun d => F32.is_nan d = false) dists).
  { apply Forall_forallb in Hnan. eapply Forall_impl; [exact Hnan|].
    intros d Hd'. now apply negb_true_iff. }
  rewrite (rank_no_nan nodes query_vec knn dists Hlen Hd Hnan').
  rewrite ranges_sort_unique; [reflexivity| |exact Hdist].
  apply dist_less_strict_weak_order; [exact Hnan'|].
  apply dists_of_Forall2 in Hd. now rewrite (Forall2_length _ _ _ Hd).
Qed.

(** On the example dataset the kind-1 query is answered by the 100 padded
    IDs 99, 98, ..., 0 in ascending order of distance, which is the ascending
    order of the IDs, whatever conforming sort is used. *)
Lemma example_row `{RangesSort} :
  eval_query example_nodes 100 0 (example_query 1) = Ok (range 0 100).
Proof.
  unfold eval_query.
  replace (padded_candidates example_nodes 100 0 (example_query 1))
    with (Ok (padding 100 100)) by (vm_compute; reflexivity).
  cbn [bind].
  rewrite (rank_determined _ _ _ (map (fun i => F32.of_int (i * i)) (padding 100 100))).
  - vm_compute. reflexivity.
  - vm_compute. lia.
  - vm_compute. reflexivity.
  - vm_compute. reflexivity.
  - vm_compute. reflexivity.
Qed.

Lemma eval_query_ranks_top_100_witness :
  length (range 0 100) = 100%nat /\
  exists knn order dists,
    padded_candidates example_nodes 100 0 (example_query 1) = Ok knn /\
    (100 <= length knn)%nat /\
    Permutation knn order /\
    range 0 100 = take 100 order /\
    Forall2 (fun id d => dist_of example_nodes (query_vec_of (example_query 1)) id = Ok d)
            order dists /\
    StronglySorted (fun a b => F32.ltb b a = false) dists /\
    (Forall (fun d => F32.is_nan d = false) dists ->
     StronglySorted (fun a b => F32.leb a b = true) dists).
Proof.
  apply (proj2 (eval_query_ranks_top_100 (H:=insertion_RangesSort)
                  example_nodes 100 0 (example_query 1))).
  apply example_row.
Defined.

(** C6 (as amended). For a kind-1 query with fewer than 100 qualifying
    scanned points, the candidate list before ranking is the qualifying IDs
    followed by [n_points - 1], [n_points - 2], ... and holds exactly 100
    IDs; the emitted row holds exactly 100 IDs and is that list rearranged so
    that no entry is strictly closer to the query than one before it. *)
Theorem kind1_row_is_ranked_padded_list `{RangesSort} (nodes : list (list F32.t))
    (n_points sample_prop : Z) (query : list F32.t) (row : list Z) :
  query_type_of query = Ok 1 ->
  eval_query nodes n_points sample_prop query = Ok row ->
  exists found,
    query_candidates nodes sample_prop query = Ok found /\
    (Z.of_nat (length found) < K_NEAREST ->
     let knn := found ++ padding n_points (K_NEAREST - Z.of_nat (length found)) in
     padded_candidates nodes n_points sample_prop query = Ok knn /\
     length knn = 100%nat /\
     length row = 100%nat /\
     Permutation knn row /\
     exists dists,
       Forall2 (fun id d => dist_of nodes (query_vec_of query) id = Ok d) row dists /\
       StronglySorted (fun a b => F32.ltb b a = false) dists).
Proof.
  intros Hkind Hrow.
  destruct (proj2 (eval_query_ranks_inv nodes n_points sample_prop query) row Hrow)
    as (Hlen & knn & order & dists & Hk & Hk100 & Hperm & Htake & Hd & Hs).
  pose proof Hk as Hk'.
  apply padded_candidates_inv in Hk' as (found & Hc & Hpad).
  exists found. split; [exact Hc|].
  intros Hshort knn0.
  destruct (pad_appends_pure n_points found Hshort) as [Hpad' Hlen'].
  assert (knn = knn0) as -> by (unfold knn0; congruence).
  assert (Hlen0 : length knn0 = 100%nat) by (unfold knn0, K_NEAREST in *; lia).
  assert (Horder : row = order).
  { rewrite Htake. apply firstn_all2. rewrite <- (Permutation_length Hperm). lia. }
  subst order. repeat split; auto. exists dists. auto.
Qed.

Lemma kind1_row_is_ranked_padded_list_witness :
  exists found,
    query_candidates example_nodes 0 (example_query 1) = Ok found /\
    (Z.of_nat (length found) < K_NEAREST ->
     let knn := found ++ padding 100 (K_NEAREST - Z.of_nat (length found)) in
     padded_candidates example_nodes 100 0 (example_query 1) = Ok knn /\
     length knn = 100%nat /\
     length (range 0 100) = 100%nat /\
     Permutation knn (range 0 100) /\
     exists dists,
       Forall2 (fun id d => dist_of example_nodes (query_vec_of (example_query 1)) id = Ok d)
               (range 0 100) dists /\
       StronglySorted (fun a b => F32.ltb b a = false) dists).
Proof.
  apply (kind1_row_is_ranked_padded_list (H:=insertion_RangesSort)
           example_nodes 100 0 (example_query 1) (range 0 100)).
  - vm_compute. reflexivity.
  - apply example_row.
Defined.

(** C6 (as stated) fails on the example dataset: no point is scanned, so all
    100 candidates come from the padding, 99 down to 0; the emitted row is in
    ascending order of distance, 0 up to 99, and is not the padding in the
    order it was appended. *)
Lemma kind1_row_tail_is_not_the_padding :
  query_type_of (example_query 1) = Ok 1 /\
  sample_prop_of 100 kSampleProportion = Ok 0 /\
  query_candidates example_nodes 0 (example_query 1) = Ok [] /\
  padding 100 100 = map (fun sampled => 100 - sampled) (range 1 101) /\
  eval_query (H:=insertion_RangesSort) example_nodes 100 0 (example_query 1)
    = Ok (range 0 100) /\
  drop 0 (range 0 100) <> padding 100 100.
Proof.
  split; [vm_compute; reflexivity|]. split; [apply sample_prop_of_zero|].
  split; [reflexivity|]. split; [vm_compute; reflexivity|].
  split; [apply example_row|]. vm_compute. discriminate.
Qed.

(** ** Small datasets *)

Lemma for_each_hits_Undefined {S} js (body : Z -> S -> outcome S) s j :
  In j js ->
  (forall j s, ok_or_undefined (body j s)) ->
  (forall s, body j s = Undefined) ->
  for_each js body s = Undefined.
Proof.
  intros Hin Hok Hj. revert s. induction js as [|j0 js IH]; intros s; [destruct Hin|].
  simpl. destruct Hin as [->|Hin].
  - now rewrite Hj.
  - specialize (Hok j0 s).
    destruct (body j0 s); simpl in *; try tauto; try reflexivity. now apply IH.
Qed.

Lemma sq_sum_ok_or_undefined ls rs sum : ok_or_undefined (sq_sum ls rs sum).
Proof.
  revert rs sum. induction ls as [|l ls IH]; intros rs sum; simpl; [exact I|].
  destruct rs; [exact I|apply IH].
Qed.

Lemma rank_out_of_bounds `{RangesSort} nodes query_vec knn (p : nat) id :
  knn !! p = Some id -> Z.of_nat (length nodes) <= id ->
  rank nodes query_vec knn = Undefined.
Proof.
  intros Hp Hid. unfold rank, for_range.
  rewrite (for_each_hits_Undefined _ _ _ (Z.of_nat p)); [reflexivity| | |].
  - apply in_range. apply lookup_lt_Some in Hp. lia.
  - intros j s. unfold index at 1. destruct (j <? 0); [exact I|].
    destruct (knn !! Z.to_nat j) as [id'|]; [|exact I]. cbn [bind].
    unfold index at 1. destruct (id' <? 0); [exact I|].
    destruct (nodes !! Z.to_nat id') as [node|]; [|exact I]. cbn [bind].
    rewrite compare_with_id_sq_sum.
    pose proof (sq_sum_ok_or_undefined (drop 2 node) (drop 2 query_vec) F32.zero) as Hs.
    destruct (sq_sum _ _ _); simpl; tauto.
  - intros s. rewrite (proj2 (index_Ok knn (Z.of_nat p) id)).
    2:{ split; [lia|now rewrite Nat2Z.id]. }
    cbn [bind]. now rewrite index_out_of_range.
Qed.

(** C9. With fewer than 100 points the sample is empty, all 100 candidates
    come from the padding, and after [n_points] steps the counter exceeds
    [n_points]: the subtraction wraps to [2^32 - 1] and below, values that
    are no dataset index. The distance loop indexes the dataset with them,
    so no query is answered: at least 100 points are necessary for the
    evaluator to stay in bounds. *)
Theorem small_dataset_pads_out_of_bounds `{RangesSort}
    (nodes : list (list F32.t)) (query : list F32.t) :
  (length nodes < 100)%nat ->
  let n_points := U32.of_size nodes in
  exists sample_prop,
    sample_prop_of n_points kSampleProportion = Ok sample_prop /\
    (forall knn,
       padded_candidates nodes n_points sample_prop query = Ok knn ->
       knn = padding n_points 100 /\
       knn !! length nodes = Some (U32.sub n_points (n_points + 1)) /\
       U32.sub n_points (n_points + 1) = 2 ^ 32 - 1 /\
       (forall (i : nat) id, (length nodes <= i)%nat -> knn !! i = Some id ->
          2 ^ 32 - 100 <= id < 2 ^ 32 /\ index nodes id = Undefined) /\
       rank nodes (query_vec_of query) knn = Undefined /\
       eval_query nodes n_points sample_prop query = Undefined) /\
    (forall row, eval_query nodes n_points sample_prop query <> Ok row).
Proof.
  intros Hsmall n_points. exists 0. split; [apply sample_prop_of_zero|].
  assert (Hn : n_points = Z.of_nat (length nodes)).
  { unfold n_points, U32.of_size, U32.wrap, U32.modulus. apply Z.mod_small. lia. }
  assert (Hpad : forall knn,
            padded_candidates nodes n_points 0 query = Ok knn ->
            knn = padding n_points 100).
  { intros knn Hk.
    apply padded_candidates_inv in Hk as (found & Hc & Hp).
    apply query_candidates_inv in Hc
      as (_ & qt & _ & v & l & r & _ & _ & _ & _ & _ & _ & Hc).
    rewrite candidates_empty_sample in Hc. injection Hc as <-.
    rewrite pad_spec in Hp by (unfold K_NEAREST; simpl; lia).
    now injection Hp as <-. }
  assert (Hat : forall (i : nat) id, (length nodes <= i)%nat ->
            padding n_points 100 !! i = Some id ->
            2 ^ 32 - 100 <= id < 2 ^ 32 /\ index nodes id = Undefined).
  { intros i id Hi Hl. unfold padding in Hl.
    change (map ?f ?l) with (f <$> l) in Hl.
    apply list_lookup_fmap_Some in Hl as (s & -> & Hs).
    apply range_lookup_Some in Hs as [-> Hs].
    rewrite u32_sub_wrapped by lia.
    split; [lia|]. apply index_out_of_range. lia. }
  assert (Hfirst : padding n_points 100 !! length nodes
                   = Some (U32.sub n_points (n_points + 1))).
  { unfold padding. change (map ?f ?l) with (f <$> l).
    rewrite list_lookup_fmap, range_lookup by lia. simpl.
    now rewrite Hn, (Z.add_comm 1). }
  assert (Hrank : rank nodes (query_vec_of query) (padding n_points 100) = Undefined).
  { apply (rank_out_of_bounds _ _ _ (length nodes) (U32.sub n_points (n_points + 1)));
      [exact Hfirst|].
    rewrite u32_sub_wrapped by lia. lia. }
  split.
  - intros knn Hk. pose proof (Hpad knn Hk) as ->.
    split; [reflexivity|]. split; [exact Hfirst|].
    split; [rewrite u32_sub_wrapped; lia|]. split; [exact Hat|].
    split; [exact Hrank|]. unfold eval_query. rewrite Hk. exact Hrank.
  - intros row Hrow. unfold eval_query in Hrow.
    apply bind_Ok in Hrow as (knn & Hk & Hr).
    rewrite (Hpad knn Hk), Hrank in Hr. discriminate.
Qed.

Lemma small_dataset_pads_out_of_bounds_witness :
  exists sample_prop,
    sample_prop_of (U32.of_size (take 5 example_nodes)) kSampleProportion = Ok sample_prop /\
    forall row,
      eval_query (H:=insertion_RangesSort) (take 5 example_nodes)
        (U32.of_size (take 5 example_nodes)) sample_prop (example_query 0) <> Ok row.
Proof.
  destruct (small_dataset_pads_out_of_bounds (H:=insertion_RangesSort)
              (take 5 example_nodes) (example_query 0))
    as (sample_prop & Hs & _ & Hno).
  - vm_compute. lia.
  - exists sample_prop. split; [exact Hs|exact Hno].
Defined.

(** ** Fuel *)

Lemma pad_total n_points knn : exists knn', pad n_points knn = Ok knn'.
Proof.
  destruct (Z.lt_ge_cases (Z.of_nat (length knn)) K_NEAREST).
  - rewrite pad_spec by assumption. eauto.
  - rewrite pad_enough by assumption. eauto.
Qed.

Lemma read_rows_fuel d fuel ifs (counter : nat) data :
  (counter <= length data)%nat -> (length data - counter < fuel)%nat ->
  knn.read_rows fuel d ifs (Z.of_nat counter) data <> OutOfFuel.
Proof.
  revert ifs counter data. induction fuel as [|fuel IH]; intros ifs counter data Hc Hf; [lia|].
  simpl. destruct (knn.read (d * 4) ifs) as [buff ifs'].
  destruct (knn.failbit ifs'); [discriminate|].
  destruct (Z.leb_spec 0 (Z.of_nat counter)); [|lia].
  destruct (Z.ltb_spec (Z.of_nat counter) (Z.of_nat (length data))); cbn [andb];
    [|discriminate].
  destruct (Z.of_nat counter <? knn.INT_MAX); [|discriminate].
  replace (Z.of_nat counter + 1) with (Z.of_nat (S counter)) by lia.
  apply IH; rewrite length_insert; lia.
Qed.

Lemma ReadBin_fuel file d : knn.ReadBin file d <> OutOfFuel.
Proof.
  destruct file as [bytes|]; unfold knn.ReadBin; [|discriminate].
  destruct (knn.read 4 _) as [hdr ifs].
  apply (read_rows_fuel d _ ifs 0); rewrite length_replicate; lia.
Qed.

(** * Further properties of the code *)

(** ** [ReadBin]: what is returned *)

Lemma u32_of_bytes_bound bs :
  (length bs <= 4)%nat -> 0 <= knn.u32_of_bytes bs < 2 ^ 32.
Proof.
  assert (B : forall b, 0 <= Z.of_N (Byte.to_N b) < 256).
  { intros b. pose proof (Byte.to_N_bounded b). lia. }
  destruct bs as [|b0 [|b1 [|b2 [|b3 [|b4 bs]]]]]; simpl; intros H; try lia;
    pose proof (B b0); try pose proof (B b1); try pose proof (B b2);
    try pose proof (B b3); lia.
Qed.

Lemma declared_count_bound bytes : Z.of_nat (declared_count bytes) < 2 ^ 32.
Proof.
  unfold declared_count.
  pose proof (u32_of_bytes_bound (take 4 bytes)) as B.
  rewrite length_take in B. lia.
Qed.

Lemma read_rows_invariant (P : list F32.t -> Prop) d fuel ifs counter data data' :
  (forall buff, P (knn.floats_of_bytes d buff)) ->
  knn.read_rows fuel d ifs counter data = Ok data' ->
  length data' = length data /\ (Forall P data -> Forall P data').
Proof.
  intros HP. revert ifs counter data.
  induction fuel as [|fuel IH]; intros ifs counter data; simpl;
    destruct (knn.read (d * 4) ifs) as [buff ifs'];
    destruct (knn.failbit ifs'); try discriminate;
    try (intros [= <-]; auto; fail).
  destruct ((0 <=? counter) && (counter <? Z.of_nat (length data))); [|discriminate].
  destruct (counter <? knn.INT_MAX); [|discriminate].
  intros H. apply IH in H as [Hlen Hall]. rewrite length_insert in Hlen.
  split; [exact Hlen|]. intros Hd. apply Hall.
  apply Forall_insert; auto.
Qed.

Lemma read_header bytes :
  knn.read 4 {| knn.rest := bytes; knn.failbit := false |} =
  (take 4 bytes,
   {| knn.rest := drop 4 bytes; knn.failbit := negb (4 <=? length bytes)%nat |}).
Proof.
  unfold knn.read. cbn [knn.failbit knn.rest].
  destruct (Nat.leb_spec 4 (length bytes)) as [H|H]; simpl; [reflexivity|].
  now rewrite take_ge, drop_ge by lia.
Qed.

(** X1. Whenever [ReadBin] returns, it returns exactly as many rows as the
    header declares, fewer than [2^32], and every row is either empty or
    holds [num_dimensions] floats. *)
Theorem ReadBin_returns_declared_count
    (file : option (list Byte.byte)) (num_dimensions : nat)
    (data : list (list F32.t)) :
  knn.ReadBin file num_dimensions = Ok data ->
  exists bytes,
    file = Some bytes /\
    length data = declared_count bytes /\
    Z.of_nat (length data) < 2 ^ 32 /\
    Forall (fun row => row = [] \/ length row = num_dimensions) data.
Proof.
  destruct file as [bytes|]; [|discriminate]. unfold knn.ReadBin.
  rewrite read_header. cbv beta iota zeta. fold (declared_count bytes).
  intros H. exists bytes. split; [reflexivity|].
  apply (read_rows_invariant (fun row => row = [] \/ length row = num_dimensions)) in H
    as [Hlen Hall].
  - rewrite length_replicate in Hlen. split; [exact Hlen|].
    split; [rewrite Hlen; apply declared_count_bound|].
    apply Hall. apply Forall_replicate. now left.
  - intros buff. right. apply floats_of_bytes_length.
Qed.

Lemma ReadBin_returns_declared_count_witness :
  let bytes := knn.u32_bytes 3 ++ knn.u32_bytes 0x3F800000 ++ knn.u32_bytes 0x40000000
               ++ knn.u32_bytes 0x40400000 ++ [Byte.x00; Byte.x01] in
  exists bytes',
    Some bytes = Some bytes' /\
    length [[F32.of_int 1; F32.of_int 2]; []; []] = declared_count bytes' /\
    Z.of_nat (length [[F32.of_int 1; F32.of_int 2]; []; []]) < 2 ^ 32 /\
    Forall (fun row : list F32.t => row = [] \/ length row = 2%nat)
           [[F32.of_int 1; F32.of_int 2]; []; []].
Proof.
  intros bytes.
  apply (ReadBin_returns_declared_count (Some bytes) 2).
  vm_compute. reflexivity.
Defined.

(** X2. A header shorter than four bytes is still used: the bytes present
    are the low bytes of the row count, no row is read, and the result is
    that many empty rows. An empty file gives an empty dataset. *)
Theorem ReadBin_short_header (bytes : list Byte.byte) (num_dimensions : nat) :
  (length bytes < 4)%nat ->
  knn.ReadBin (Some bytes) num_dimensions
  = Ok (replicate (Z.to_nat (knn.u32_of_bytes bytes)) []) /\
  knn.ReadBin (Some []) num_dimensions = Ok [].
Proof.
  intros H. split; [|reflexivity]. unfold knn.ReadBin.
  rewrite read_header. cbv beta iota zeta.
  destruct (Nat.leb_spec 4 (length bytes)); [lia|].
  rewrite take_ge by lia. reflexivity.
Qed.

Lemma ReadBin_short_header_witness :
  knn.ReadBin (Some [Byte.x02; Byte.x00]) 102 = Ok [[]; []].
Proof.
  destruct (ReadBin_short_header [Byte.x02; Byte.x00] 102) as [H _].
  - simpl. lia.
  - exact H.
Defined.

Lemma declared_count_header N body :
  0 <= N < 2 ^ 32 -> declared_count (knn.u32_bytes N ++ body) = Z.to_nat N.
Proof.
  intros H. unfold declared_count.
  rewrite take_app_le by (rewrite u32_bytes_length; lia).
  rewrite take_ge by (rewrite u32_bytes_length; lia).
  now rewrite u32_of_bytes_u32_bytes.
Qed.

Lemma drop_header N body : drop 4 (knn.u32_bytes N ++ body) = body.
Proof.
  rewrite drop_app_ge by (rewrite u32_bytes_length; lia).
  now rewrite u32_bytes_length.
Qed.

(** X3. A well-formed file, the row count [N] in four bytes followed by
    exactly [N] rows of [num_dimensions] floats, is read completely when
    [N] is below [2^31], the range of the [int] row counter: the result has
    [N] rows, each of [num_dimensions] floats, decoded in file order. *)
Theorem ReadBin_well_formed_file (N : Z) (body : list Byte.byte) (d : nat) :
  (0 < d)%nat -> 0 <= N < 2 ^ 31 ->
  length body = (Z.to_nat N * (d * 4))%nat ->
  let data := rows_of d body (Z.to_nat N) in
  knn.ReadBin (Some (knn.u32_bytes N ++ body)) d = Ok data /\
  length data = Z.to_nat N /\
  Forall (fun row => length row = d) data.
Proof.
  intros Hd HN Hbody data.
  split; [|split; [apply rows_of_length|apply rows_of_dimensions]].
  rewrite ReadBin_spec by (rewrite ?length_app, ?u32_bytes_length; lia).
  rewrite declared_count_header, drop_header by lia.
  assert (Hc : complete_rows d body = Z.to_nat N).
  { unfold complete_rows. rewrite Hbody. apply Nat.div_mul. lia. }
  rewrite Hc, Nat.leb_refl, Nat.sub_diag. cbn [andb].
  destruct (Z.ltb_spec (Z.of_nat (Z.to_nat N)) (2 ^ 31)); [|lia].
  cbn [replicate]. now rewrite app_nil_r.
Qed.

Lemma ReadBin_well_formed_file_witness :
  let body := knn.u32_bytes 0x3F800000 ++ knn.u32_bytes 0x40000000
              ++ knn.u32_bytes 0x40400000 ++ knn.u32_bytes 0x3F800000 in
  knn.ReadBin (Some (knn.u32_bytes 2 ++ body)) 2
  = Ok [[F32.of_int 1; F32.of_int 2]; [F32.of_int 3; F32.of_int 1]].
Proof.
  intros body.
  destruct (ReadBin_well_formed_file 2 body 2) as [H _]; [lia|lia|reflexivity|].
  rewrite H. vm_compute. reflexivity.
Defined.

(** X4. With a complete header and a positive dimension, [ReadBin] returns
    if and only if the file holds no more complete rows than the header
    declares and fewer than [2^31] of them; with more rows than declared the
    loop writes past the end of the vector, and from [2^31] rows on the
    [int] row counter overflows. *)
Theorem ReadBin_defined_iff (bytes : list Byte.byte) (d : nat) :
  (0 < d)%nat -> (4 <= length bytes)%nat ->
  ((exists data, knn.ReadBin (Some bytes) d = Ok data) <->
   (complete_rows d (drop 4 bytes) <= declared_count bytes)%nat /\
   Z.of_nat (complete_rows d (drop 4 bytes)) < 2 ^ 31) /\
  (knn.ReadBin (Some bytes) d = Undefined <->
   (declared_count bytes < complete_rows d (drop 4 bytes))%nat \/
   2 ^ 31 <= Z.of_nat (complete_rows d (drop 4 bytes))).
Proof.
  intros Hd Hlen. rewrite ReadBin_spec by assumption.
  destruct (Nat.leb_spec (complete_rows d (drop 4 bytes)) (declared_count bytes));
    destruct (Z.ltb_spec (Z.of_nat (complete_rows d (drop 4 bytes))) (2 ^ 31));
    cbn [andb]; (split; split; try lia; try discriminate; eauto;
                 try (intros [data [=]]); try (intros [?|?]; lia)).
Qed.

Lemma ReadBin_defined_iff_witness :
  let bytes := knn.u32_bytes 1 ++ knn.u32_bytes 0x3F800000 in
  ((exists data, knn.ReadBin (Some bytes) 1 = Ok data) <->
   (complete_rows 1 (drop 4 bytes) <= declared_count bytes)%nat /\
   Z.of_nat (complete_rows 1 (drop 4 bytes)) < 2 ^ 31) /\
  (knn.ReadBin (Some bytes) 1 = Undefined <->
   (declared_count bytes < complete_rows 1 (drop 4 bytes))%nat \/
   2 ^ 31 <= Z.of_nat (complete_rows 1 (drop 4 bytes))).
Proof.
  intros bytes. apply (ReadBin_defined_iff bytes 1); [lia|vm_compute; lia].
Defined.

Lemma rows_of_app d body tail c :
  (c * (d * 4) <= length body)%nat ->
  rows_of d (body ++ tail) c = rows_of d body c.
Proof.
  revert body. induction c as [|c IH]; intros body H; simpl; [reflexivity|].
  rewrite take_app_le, drop_app_le by lia.
  rewrite IH by (rewrite length_drop; lia). reflexivity.
Qed.

(** X5. Bytes after the last complete row that do not make up a row are
    ignored: appending fewer than one row's bytes to a file of whole rows
    does not change what [ReadBin] does. *)
Theorem ReadBin_ignores_partial_row (bytes tail : list Byte.byte) (d : nat) :
  (0 < d)%nat -> (4 <= length bytes)%nat ->
  (length (drop 4 bytes) = complete_rows d (drop 4 bytes) * (d * 4))%nat ->
  (length tail < d * 4)%nat ->
  knn.ReadBin (Some (bytes ++ tail)) d = knn.ReadBin (Some bytes) d.
Proof.
  intros Hd Hlen Hfull Htail.
  rewrite !ReadBin_spec by (rewrite ?length_app; lia).
  assert (Ehdr : declared_count (bytes ++ tail) = declared_count bytes).
  { unfold declared_count. now rewrite take_app_le by lia. }
  assert (Edrop : drop 4 (bytes ++ tail) = drop 4 bytes ++ tail).
  { now rewrite drop_app_le by lia. }
  assert (Ec : complete_rows d (drop 4 (bytes ++ tail)) = complete_rows d (drop 4 bytes)).
  { rewrite Edrop. unfold complete_rows at 1. rewrite length_app, Hfull.
    rewrite Nat.add_comm, Nat.div_add by lia.
    rewrite Nat.div_small by lia. reflexivity. }
  rewrite Ehdr, Ec, Edrop.
  destruct (_ && _); [|reflexivity].
  rewrite rows_of_app by lia. reflexivity.
Qed.

Lemma ReadBin_ignores_partial_row_witness :
  let bytes := knn.u32_bytes 1 ++ knn.u32_bytes 0x3F800000 ++ knn.u32_bytes 0x40000000 in
  knn.ReadBin (Some (bytes ++ [Byte.x01; Byte.x02; Byte.x03])) 2
  = knn.ReadBin (Some bytes) 2.
Proof.
  intros bytes. apply (ReadBin_ignores_partial_row bytes _ 2).
  - lia.
  - vm_compute. lia.
  - reflexivity.
  - simpl. lia.
Defined.

(** ** [SaveKNN]: what is written *)

Lemma SaveKNN_runs_write_rows (first : list Z) (rest : list (list Z)) :
  Z.of_nat (length (first :: rest)) < 2 ^ 32 ->
  length first = 100%nat ->
  knn.SaveKNN (first :: rest) = write_rows (first :: rest) [].
Proof.
  intros Hsize Hfirst. unfold knn.SaveKNN. cbn [knn.front bind].
  destruct (Z.eqb_spec (Z.of_nat (length first)) 100) as [_|E]; [|lia].
  unfold U32.of_size, U32.wrap, U32.modulus. rewrite Z.mod_small by lia.
  unfold for_range.
  pose proof (save_loop_write_rows [] (first :: rest) [] []) as L.
  rewrite app_nil_r in L. simpl app in L. simpl length at 1 2 in L.
  change (Z.of_nat 0) with 0 in L. rewrite Nat.add_0_l in L. exact L.
Qed.

Lemma u32s_of_bytes_encoded (l : list Z) (tail : list Byte.byte) :
  Forall (fun z => 0 <= z < 2 ^ 32) l ->
  u32s_of_bytes (length l) (concat (map knn.u32_bytes l) ++ tail) = l.
Proof.
  induction 1 as [|z l Hz _ IH]; [reflexivity|].
  cbn [length map concat u32s_of_bytes]. rewrite <- app_assoc.
  rewrite take_app_le by (rewrite u32_bytes_length; lia).
  rewrite take_ge by (rewrite u32_bytes_length; lia).
  rewrite drop_app_ge by (rewrite u32_bytes_length; lia).
  rewrite u32_bytes_length, Nat.sub_diag, drop_0.
  now rewrite u32_of_bytes_u32_bytes, IH.
Qed.

Lemma concat_rows_bytes (knns : list (list Z)) :
  concat (map (fun knn => concat (map knn.u32_bytes knn)) knns)
  = concat (map knn.u32_bytes (concat knns)).
Proof.
  induction knns as [|knn knns IH]; [reflexivity|].
  cbn [map concat]. now rewrite List.map_app, List.concat_app, IH.
Qed.

(** X6. What [SaveKNN] writes determines the result sets: for rows of
    exactly 100 IDs below [2^32], reading the written bytes back as 32-bit
    words, least significant byte first, gives the IDs of all rows in
    order. *)
Theorem SaveKNN_round_trip (first : list Z) (rest : list (list Z))
    (bytes : list Byte.byte) :
  Z.of_nat (length (first :: rest)) < 2 ^ 32 ->
  Forall (fun knn => length knn = 100%nat) (first :: rest) ->
  Forall (Forall (fun id => 0 <= id < 2 ^ 32)) (first :: rest) ->
  knn.SaveKNN (first :: rest) = Ok bytes ->
  u32s_of_bytes (100 * length (first :: rest)) bytes = concat (first :: rest).
Proof.
  intros Hsize Hlen Hids Hsave.
  assert (Hfirst : length first = 100%nat) by now inversion Hlen.
  rewrite SaveKNN_runs_write_rows in Hsave by assumption.
  rewrite write_rows_ok in Hsave.
  2:{ eapply Forall_impl; [exact Hlen|]. simpl. intros knn ->. lia. }
  cbn [app] in Hsave.
  assert (bytes = concat (map (fun knn => concat (map knn.u32_bytes (take 100 knn)))
                              (first :: rest))) as -> by congruence.
  rewrite (List.map_ext_in _ (fun knn => concat (map knn.u32_bytes knn))).
  2:{ intros knn Hin. rewrite firstn_all2; [reflexivity|].
      rewrite List.Forall_forall in Hlen. rewrite (Hlen knn Hin). lia. }
  rewrite concat_rows_bytes.
  assert (Hn : (100 * length (first :: rest))%nat = length (concat (first :: rest))).
  { clear -Hlen. induction Hlen as [|knn knns Hk _ IH]; [reflexivity|].
    cbn [concat length]. rewrite length_app, Hk, <- IH. simpl. lia. }
  rewrite Hn.
  rewrite <- (app_nil_r (concat (map knn.u32_bytes (concat (first :: rest))))).
  apply u32s_of_bytes_encoded.
  clear -Hids. induction Hids as [|knn knns Hk _ IH]; [constructor|].
  cbn [concat]. apply Forall_app. auto.
Qed.

Lemma SaveKNN_round_trip_witness :
  let first := range 0 100 in
  let rest := [range 4294967196 4294967296] in
  exists bytes,
    knn.SaveKNN (first :: rest) = Ok bytes /\
    u32s_of_bytes (100 * length (first :: rest)) bytes = concat (first :: rest).
Proof.
  intros first rest.
  assert (Hsize : Z.of_nat (length (first :: rest)) < 2 ^ 32) by (vm_compute; reflexivity).
  assert (Hlen : Forall (fun knn => length knn = 100%nat) (first :: rest)).
  { repeat constructor. }
  assert (Hids : Forall (Forall (fun id => 0 <= id < 2 ^ 32)) (first :: rest)).
  { constructor; [|constructor; [|constructor]];
      apply List.Forall_forall; intros id Hid; apply in_range in Hid; lia. }
  destruct (knn.SaveKNN (first :: rest)) as [bytes| | |] eqn:Hsave;
    try (exfalso; revert Hsave; vm_compute; discriminate).
  exists bytes. split; [reflexivity|].
  exact (SaveKNN_round_trip first rest bytes Hsize Hlen Hids Hsave).
Defined.

Lemma write_rows_short_row knns ofs :
  Exists (fun knn => (length knn < 100)%nat) knns ->
  write_rows knns ofs = Undefined.
Proof.
  revert ofs. induction knns as [|knn knns IH]; intros ofs Hex; [now inversion Hex|].
  simpl. unfold knn.data_bytes.
  destruct (Z.leb_spec 100 (Z.of_nat (length knn))) as [Hk|Hk]; [|reflexivity].
  simpl. apply IH. inversion Hex; subst; [lia|assumption].
Qed.

(** X7. A row after the first with fewer than 100 entries is not rejected:
    the assertion passes and 100 entries are read from the row's buffer,
    beyond its end. *)
Theorem SaveKNN_short_later_row (first : list Z) (rest : list (list Z)) :
  Z.of_nat (length (first :: rest)) < 2 ^ 32 ->
  length first = 100%nat ->
  Exists (fun knn => (length knn < 100)%nat) rest ->
  knn.SaveKNN (first :: rest) = Undefined.
Proof.
  intros Hsize Hfirst Hshort.
  rewrite SaveKNN_runs_write_rows by assumption.
  apply write_rows_short_row. now apply Exists_cons_tl.
Qed.

Lemma SaveKNN_short_later_row_witness :
  knn.SaveKNN [range 0 100; range 0 99] = Undefined.
Proof.
  apply SaveKNN_short_later_row.
  - vm_compute. reflexivity.
  - reflexivity.
  - constructor. vm_compute. lia.
Defined.

(** ** [compare_with_id]: when it is defined and what it returns *)

Lemma sq_sum_defined ls rs sum :
  (length ls <= length rs)%nat -> exists d, sq_sum ls rs sum = Ok d.
Proof.
  revert rs sum. induction ls as [|l ls IH]; intros rs sum H; simpl; [eauto|].
  destruct rs as [|r rs]; simpl in H; [lia|]. apply IH. lia.
Qed.

Lemma sq_sum_undefined ls rs sum :
  (length rs < length ls)%nat -> sq_sum ls rs sum = Undefined.
Proof.
  revert rs sum. induction ls as [|l ls IH]; intros rs sum H; simpl in *; [lia|].
  destruct rs as [|r rs]; [reflexivity|]. apply IH. simpl in H. lia.
Qed.

Lemma sq_sum_app ls rs extra sum :
  (length ls <= length rs)%nat -> sq_sum ls (rs ++ extra) sum = sq_sum ls rs sum.
Proof.
  revert rs sum. induction ls as [|l ls IH]; intros rs sum H; [reflexivity|].
  destruct rs as [|r rs]; simpl in H; [lia|]. simpl. apply IH. lia.
Qed.

(** X8. [compare_with_id] reads [rhs] at every index from 2 below
    [lhs.size()]: it returns a distance when [lhs] has at most two entries
    or [rhs] is at least as long as [lhs], and reads [rhs] out of bounds
    otherwise. Entries of [rhs] beyond [lhs.size()] are not read. *)
Theorem compare_with_id_defined_iff (lhs rhs : list F32.t) :
  ((exists d, compare_with_id lhs rhs = Ok d) <->
   (length lhs <= 2 \/ length lhs <= length rhs)%nat) /\
  (compare_with_id lhs rhs = Undefined <->
   (2 < length lhs /\ length rhs < length lhs)%nat) /\
  (forall extra, (length lhs <= length rhs)%nat ->
     compare_with_id lhs (rhs ++ extra) = compare_with_id lhs rhs).
Proof.
  split; [|split].
  - rewrite compare_with_id_sq_sum.
    destruct (Nat.le_gt_cases (length (drop 2 lhs)) (length (drop 2 rhs))) as [H|H].
    + destruct (sq_sum_defined (drop 2 lhs) (drop 2 rhs) F32.zero H) as [d Hd].
      rewrite !length_drop in H. split; [lia|eauto].
    + rewrite sq_sum_undefined by assumption. rewrite !length_drop in H.
      split; [intros [d [=]]|lia].
  - rewrite compare_with_id_sq_sum.
    destruct (Nat.le_gt_cases (length (drop 2 lhs)) (length (drop 2 rhs))) as [H|H].
    + destruct (sq_sum_defined (drop 2 lhs) (drop 2 rhs) F32.zero H) as [d Hd].
      rewrite Hd. rewrite !length_drop in H. split; [discriminate|lia].
    + rewrite sq_sum_undefined by assumption. rewrite !length_drop in H.
      split; [lia|reflexivity].
  - intros extra Hle. rewrite !compare_with_id_sq_sum.
    destruct (Nat.le_gt_cases 2 (length rhs)) as [H2|H2].
    + rewrite drop_app_le by lia. apply sq_sum_app. rewrite !length_drop. lia.
    + now rewrite (drop_ge lhs) by lia.
Qed.

Lemma compare_with_id_defined_iff_witness :
  compare_with_id [F32.of_int 1; F32.of_int 2; F32.of_int 3]
    ([F32.of_int 0; F32.of_int 0; F32.of_int 5] ++ [F32.of_int 7])
  = compare_with_id [F32.of_int 1; F32.of_int 2; F32.of_int 3]
      [F32.of_int 0; F32.of_int 0; F32.of_int 5].
Proof.
  apply (proj2 (proj2 (compare_with_id_defined_iff _ _))). simpl. lia.
Defined.

Section RoundingNeverNaN.
Variables prec emax : Z.

Lemma shr_1_nonneg mrs : 0 <= shr_m mrs -> 0 <= shr_m (shr_1 mrs).
Proof.
  destruct mrs as [m r s]. simpl.
  destruct m as [|[p|p|]|[p|p|]]; simpl; lia.
Qed.

Lemma iter_shr_1_nonneg p mrs :
  0 <= shr_m mrs -> 0 <= shr_m (SpecFloat.iter_pos shr_1 p mrs).
Proof.
  revert mrs. induction p as [p IH|p IH|]; intros mrs H; simpl;
    auto using shr_1_nonneg.
Qed.

Lemma shr_fexp_nonneg m e l :
  0 <= m -> 0 <= shr_m (fst (shr_fexp prec emax m e l)).
Proof.
  intros H. unfold shr_fexp, shr.
  assert (H0 : 0 <= shr_m (shr_record_of_loc m l)) by (destruct l as [|[| |]]; exact H).
  destruct (fexp prec emax (Zdigits2 m + e) - e); simpl; auto using iter_shr_1_nonneg.
Qed.

Lemma binary_round_aux_sign sx mx ex lx :
  0 <= mx ->
  match binary_round_aux prec emax sx mx ex lx with
  | S754_zero s | S754_infinity s | S754_finite s _ _ => s = sx
  | S754_nan => False
  end.
Proof.
  intros H. unfold binary_round_aux.
  pose proof (shr_fexp_nonneg mx ex lx H) as H1.
  destruct (shr_fexp prec emax mx ex lx) as [mrs' e']. simpl in H1.
  assert (H2 : 0 <= round_nearest_even (shr_m mrs') (loc_of_shr_record mrs')).
  { unfold round_nearest_even. destruct (loc_of_shr_record mrs') as [|[| |]]; try lia.
    destruct (Z.even (shr_m mrs')); lia. }
  pose proof (shr_fexp_nonneg _ e' loc_Exact H2) as H3.
  destruct (shr_fexp prec emax _ e' loc_Exact) as [mrs'' e'']. simpl in H3.
  destruct (shr_m mrs''); [reflexivity| |lia].
  destruct (e'' <=? emax - prec); reflexivity.
Qed.

Lemma binary_round_sign sx mx ex :
  match binary_round prec emax sx mx ex with
  | S754_zero s | S754_infinity s | S754_finite s _ _ => s = sx
  | S754_nan => False
  end.
Proof.
  unfold binary_round. destruct (shl_align mx ex _) as [mz ez].
  apply binary_round_aux_sign. lia.
Qed.

Lemma binary_normalize_not_nan m e :
  binary_normalize prec emax m e false <> S754_nan.
Proof.
  destruct m as [|p|p]; simpl; [discriminate| |];
    [pose proof (binary_round_sign false p e) as H
    |pose proof (binary_round_sign true p e) as H];
    destruct (binary_round _ _ _ _ _); congruence || tauto.
Qed.

End RoundingNeverNaN.

Lemma sub_finite_not_nan x y :
  F32.is_finite x = true -> F32.is_finite y = true -> F32.is_nan (F32.sub x y) = false.
Proof.
  destruct x as [sx|sx| |sx mx ex], y as [sy|sy| |sy my ey]; try discriminate;
    intros _ _; unfold F32.sub, SFsub; try reflexivity.
  - now destruct sx, sy.
  - pose proof (binary_normalize_not_nan F32.prec F32.emax
      (cond_Zopp sx (Zpos (fst (shl_align mx ex (Z.min ex ey))))
       - cond_Zopp sy (Zpos (fst (shl_align my ey (Z.min ex ey))))) (Z.min ex ey)) as H.
    cbv zeta. destruct (binary_normalize _ _ _ _ _); try reflexivity. congruence.
Qed.

Lemma mul_self_nonneg x : F32.is_nan x = false -> nonneg (F32.mul x x) = true.
Proof.
  destruct x as [s|s| |s m e]; try discriminate; intros _;
    unfold F32.mul, SFmul; try (now destruct s).
  pose proof (binary_round_aux_sign F32.prec F32.emax (xorb s s) (Zpos (m * m)) (e + e)
                loc_Exact ltac:(lia)) as H.
  destruct (binary_round_aux _ _ _ _ _ _) as [s'|s'| |s' m' e'];
    try tauto; rewrite H; now destruct s.
Qed.

Lemma add_nonneg x y :
  nonneg x = true -> nonneg y = true -> nonneg (F32.add x y) = true.
Proof.
  destruct x as [[|]|[|]| |[|] mx ex], y as [[|]|[|]| |[|] my ey]; try discriminate;
    intros _ _; try reflexivity.
  unfold F32.add, SFadd. cbv zeta. unfold cond_Zopp.
  change (Zpos ?a + Zpos ?b) with (Zpos (a + b)). unfold binary_normalize.
  pose proof (binary_round_sign F32.prec F32.emax false
     (fst (shl_align mx ex (Z.min ex ey)) + fst (shl_align my ey (Z.min ex ey)))
     (Z.min ex ey)) as H.
  destruct (binary_round _ _ _ _ _); try tauto; now rewrite H.
Qed.

Lemma sq_sum_nonneg_or_nan ls rs sum d :
  nonneg sum = true \/ sum = S754_nan ->
  sq_sum ls rs sum = Ok d ->
  nonneg d = true \/ d = S754_nan.
Proof.
  revert rs sum. induction ls as [|l ls IH]; intros rs sum Hs; simpl.
  - now intros [= <-].
  - destruct rs as [|r rs]; [discriminate|]. apply IH.
    destruct (F32.is_nan (F32.sub l r)) eqn:Hn.
    + right. now rewrite (mul_nan _ Hn), add_nan_r.
    + destruct Hs as [Hs| ->]; [left|right; reflexivity].
      apply add_nonneg; [exact Hs|now apply mul_self_nonneg].
Qed.

Lemma sq_sum_finite_nonneg ls rs sum d :
  nonneg sum = true ->
  Forall (fun x => F32.is_finite x = true) ls ->
  Forall (fun x => F32.is_finite x = true) rs ->
  sq_sum ls rs sum = Ok d ->
  nonneg d = true.
Proof.
  intros Hs Hl. revert rs sum Hs. induction Hl as [|l ls Hl _ IH]; intros rs sum Hs Hr; simpl.
  - now intros [= <-].
  - destruct Hr as [|r rs Hr Hrs]; [discriminate|]. apply IH; [|exact Hrs].
    apply add_nonneg; [exact Hs|]. apply mul_self_nonneg. now apply sub_finite_not_nan.
Qed.

(** X9. The distance returned by [compare_with_id] is never negative and
    never [-0]: it is [+0], a positive finite number, [+inf] or NaN, so it is
    never less than zero. When the entries read from both vectors are finite
    it is not NaN either. *)
Theorem compare_with_id_never_negative (lhs rhs : list F32.t) (d : F32.t) :
  compare_with_id lhs rhs = Ok d ->
  (nonneg d = true \/ d = S754_nan) /\
  F32.ltb d F32.zero = false /\
  (Forall (fun x => F32.is_finite x = true) (drop 2 lhs) ->
   Forall (fun x => F32.is_finite x = true) (drop 2 rhs) ->
   nonneg d = true).
Proof.
  rewrite compare_with_id_sq_sum. intros H.
  assert (Hc : nonneg d = true \/ d = S754_nan).
  { apply (sq_sum_nonneg_or_nan (drop 2 lhs) (drop 2 rhs) F32.zero d); [now left|exact H]. }
  split; [exact Hc|]. split.
  - destruct Hc as [Hc| ->]; [|reflexivity].
    destruct d as [[|]|[|]| |[|] m e]; try discriminate; reflexivity.
  - intros Hl Hr.
    now apply (sq_sum_finite_nonneg (drop 2 lhs) (drop 2 rhs) F32.zero d).
Qed.

Lemma compare_with_id_never_negative_witness :
  F32.ltb (F32.of_int 8) F32.zero = false /\ nonneg (F32.of_int 8) = true.
Proof.
  destruct (compare_with_id_never_negative
              [F32.of_int 1; F32.of_int 1; F32.of_int 3; F32.of_int 1]
              [F32.of_int 3; F32.of_int 3; F32.of_int 1; F32.of_int 3]
              (F32.of_int 8)) as (_ & Hlt & Hfin).
  - vm_compute. reflexivity.
  - split; [exact Hlt|]. apply Hfin; repeat constructor.
Defined.

(** ** The candidate loops *)

Lemma leb_nan_l x : F32.leb S754_nan x = false.
Proof. reflexivity. Qed.

Lemma leb_nan_r x : F32.leb x S754_nan = false.
Proof. now destruct x. Qed.

Lemma query_type_of_inv query query_type q0 :
  query_type_of query = Ok query_type -> index query 0 = Ok q0 ->
  F32.to_u32 q0 = Ok query_type.
Proof. unfold query_type_of. intros H H0. now rewrite H0 in H. Qed.

(** X10. A kind-2 query keeps exactly the scanned indices whose dimension 1
    lies between the two bounds, both included; when a bound is NaN no point
    qualifies. *)
Theorem range_test_is_inclusive
    (nodes : list (list F32.t)) (sample_prop : Z) (query : list F32.t)
    (knn : list Z) :
  query_type_of query = Ok 2 ->
  query_candidates nodes sample_prop query = Ok knn ->
  exists l_bound r_bound,
    index query 2 = Ok l_bound /\ index query 3 = Ok r_bound /\
    (forall j, In j knn <->
       0 <= j < sample_prop /\
       exists node x, index nodes j = Ok node /\ index node 1 = Ok x /\
                      F32.leb l_bound x = true /\ F32.leb x r_bound = true) /\
    (F32.is_nan l_bound = true \/ F32.is_nan r_bound = true -> knn = []).
Proof.
  intros Hkind Hq. apply query_candidates_inv in Hq
    as (q0 & qt & q1 & value & l_bound & r_bound & H0 & Hqt & H1 & Hv & Hl & Hr & Hc).
  rewrite (query_type_of_inv _ _ _ Hkind H0) in Hqt. injection Hqt as <-.
  exists l_bound, r_bound. split; [exact Hl|]. split; [exact Hr|].
  unfold candidates in Hc. simpl in Hc. apply for_each_push_if in Hc. subst knn.
  simpl. split.
  - intros j. now rewrite List.filter_In, in_range, range_test_holds.
  - intros Hnan. rewrite (List.filter_ext _ (fun _ => false)); [apply List.filter_false|].
    intros j. destruct (holds _) eqn:E; [|reflexivity].
    apply range_test_holds in E as (node & x & _ & _ & E1 & E2).
    destruct Hnan as [Hn|Hn].
    + destruct l_bound; try discriminate Hn. now rewrite leb_nan_l in E1.
    + destruct r_bound; try discriminate Hn. now rewrite leb_nan_r in E2.
Qed.

Lemma range_test_is_inclusive_witness :
  let nodes := [[F32.of_int 0; F32.of_int 0]; [F32.of_int 0; F32.of_int 1];
                [F32.of_int 1; F32.of_int 5]] in
  let query := [F32.of_int 2; F32.of_int 0; F32.of_int 0; F32.of_int 1] in
  exists l_bound r_bound,
    index query 2 = Ok l_bound /\ index query 3 = Ok r_bound /\
    (forall j, In j [0; 1] <->
       0 <= j < 3 /\
       exists node x, index nodes j = Ok node /\ index node 1 = Ok x /\
                      F32.leb l_bound x = true /\ F32.leb x r_bound = true) /\
    (F32.is_nan l_bound = true \/ F32.is_nan r_bound = true -> [0; 1] = []).
Proof.
  intros nodes query.
  apply (range_test_is_inclusive nodes 3 query [0; 1]); vm_compute; reflexivity.
Defined.

(** X11. A query whose kind is not 0, 1, 2 or 3 has no candidates and a
    kind-0 query has every index below the sample size as a candidate; in
    both cases no point is read, so the candidates are the same for every
    dataset. *)
Theorem unknown_kind_has_no_candidates
    (nodes : list (list F32.t)) (sample_prop : Z) (query : list F32.t)
    (query_type : Z) (knn : list Z) :
  query_type_of query = Ok query_type ->
  query_candidates nodes sample_prop query = Ok knn ->
  (3 < query_type -> knn = []) /\
  (query_type = 0 -> knn = range 0 sample_prop) /\
  (query_type = 0 \/ 3 < query_type ->
   forall nodes', query_candidates nodes' sample_prop query = Ok knn).
Proof.
  intros Hkind Hq. pose proof Hq as Hq'. apply query_candidates_inv in Hq'
    as (q0 & qt & q1 & value & l_bound & r_bound & H0 & Hqt & H1 & Hv & Hl & Hr & Hc).
  rewrite (query_type_of_inv _ _ _ Hkind H0) in Hqt. injection Hqt as <-.
  assert (Hbig : 3 < query_type -> forall nodes',
            candidates nodes' sample_prop query_type value l_bound r_bound = Ok []).
  { intros Hbig nodes'. unfold candidates.
    destruct (Z.eqb_spec query_type 0); [lia|]. destruct (Z.eqb_spec query_type 1); [lia|].
    destruct (Z.eqb_spec query_type 2); [lia|]. destruct (Z.eqb_spec query_type 3); [lia|].
    reflexivity. }
  split; [|split].
  - intros H. rewrite (Hbig H) in Hc. congruence.
  - intros ->. rewrite candidates_kind_0 in Hc. congruence.
  - intros Hk nodes'. unfold query_candidates.
    rewrite H0. cbn [bind]. rewrite (query_type_of_inv _ _ _ Hkind H0). cbn [bind].
    rewrite H1. cbn [bind]. rewrite Hv. cbn [bind]. rewrite Hl, Hr. cbn [bind].
    destruct Hk as [-> |Hk].
    + rewrite candidates_kind_0 in *. exact Hc.
    + rewrite (Hbig Hk) in *. exact Hc.
Qed.

Lemma unknown_kind_has_no_candidates_witness :
  let query := [F32.of_int 7; F32.of_int 0; F32.of_int 0; F32.of_int 1] in
  (3 < 7 -> [] = @nil Z) /\
  (7 = 0 -> [] = range 0 5) /\
  (7 = 0 \/ 3 < 7 -> forall nodes', query_candidates nodes' 5 query = Ok []).
Proof.
  intros query.
  apply (unknown_kind_has_no_candidates example_nodes 5 query 7 []);
    vm_compute; reflexivity.
Defined.

Lemma range_sorted lo hi : StronglySorted Z.lt (range lo hi).
Proof.
  remember (Z.to_nat (hi - lo)) as n eqn:Hn. revert lo Hn.
  induction n as [|n IH]; intros lo Hn.
  - rewrite range_nil by lia. constructor.
  - rewrite range_cons by lia. constructor; [apply IH; lia|].
    apply List.Forall_forall. intros j Hj. apply in_range in Hj. lia.
Qed.

Lemma filter_sorted {A} (R : A -> A -> Prop) p l :
  StronglySorted R l -> StronglySorted R (List.filter p l).
Proof.
  induction 1 as [|x l Hs IH Hx]; simpl; [constructor|].
  destruct (p x); [|exact IH]. constructor; [exact IH|].
  rewrite List.Forall_forall in *. intros y Hy. apply List.filter_In in Hy. now apply Hx.
Qed.

Lemma candidates_filter nodes sample_prop query_type value l_bound r_bound knn :
  candidates nodes sample_prop query_type value l_bound r_bound = Ok knn ->
  exists p, knn = List.filter p (range 0 sample_prop).
Proof.
  unfold candidates. intros Hc.
  destruct (query_type =? 0).
  { exists (fun _ => true). rewrite List.filter_true.
    unfold for_range in Hc. rewrite push_back_loop in Hc. cbn [app] in Hc. congruence. }
  destruct (query_type =? 1); [apply for_each_push_if in Hc; eauto|].
  destruct (query_type =? 2); [apply for_each_push_if in Hc; eauto|].
  destruct (query_type =? 3); [apply for_each_push_if in Hc; eauto|].
  exists (fun _ => false). rewrite List.filter_false. congruence.
Qed.

(** X12. For a query of any kind the candidates before padding are scanned
    indices in strictly increasing order: each lies below the sample size,
    none occurs twice, and there are at most as many as the sample size. *)
Theorem candidates_are_increasing_indices
    (nodes : list (list F32.t)) (sample_prop : Z) (query : list F32.t)
    (knn : list Z) :
  query_candidates nodes sample_prop query = Ok knn ->
  StronglySorted Z.lt knn /\
  Forall (fun j => 0 <= j < sample_prop) knn /\
  NoDup knn /\
  Z.of_nat (length knn) <= Z.max 0 sample_prop.
Proof.
  intros Hq. apply query_candidates_inv in Hq
    as (q0 & qt & q1 & value & l_bound & r_bound & _ & _ & _ & _ & _ & _ & Hc).
  apply candidates_filter in Hc as [p ->].
  split; [apply filter_sorted, range_sorted|]. split; [|split].
  - apply List.Forall_forall. intros j Hj. apply List.filter_In in Hj as [Hj _].
    now apply in_range.
  - apply NoDup_ListNoDup, List.NoDup_filter, NoDup_ListNoDup.
    unfold range. change (map ?f ?l) with (f <$> l).
    apply NoDup_fmap_2; [intros a b; lia|apply NoDup_seq].
  - pose proof (List.filter_length_le p (range 0 sample_prop)) as Hle.
    rewrite range_length in Hle. lia.
Qed.

Lemma candidates_are_increasing_indices_witness :
  let nodes := [[F32.of_int 0; F32.of_int 0]; [F32.of_int 0; F32.of_int 1];
                [F32.of_int 1; F32.of_int 5]] in
  StronglySorted Z.lt [0; 1] /\
  Forall (fun j => 0 <= j < 3) [0; 1] /\
  NoDup [0; 1] /\
  Z.of_nat (length [0; 1]) <= Z.max 0 3.
Proof.
  intros nodes.
  apply (candidates_are_increasing_indices nodes 3
           [F32.of_int 2; F32.of_int 0; F32.of_int 0; F32.of_int 1] [0; 1]).
  vm_compute. reflexivity.
Defined.

(** ** The body of the query loop *)

Lemma padded_candidates_empty_sample nodes n_points query found :
  query_candidates nodes 0 query = Ok found ->
  padded_candidates nodes n_points 0 query = Ok (padding n_points 100).
Proof.
  intros Hq. unfold padded_candidates. rewrite Hq. cbn [bind].
  apply query_candidates_inv in Hq
    as (_ & qt & _ & v & l & r & _ & _ & _ & _ & _ & _ & Hc).
  rewrite candidates_empty_sample in Hc. injection Hc as <-.
  now rewrite pad_spec by (unfold K_NEAREST; simpl; lia).
Qed.

Lemma padding_lookup n_points k (i : nat) :
  Z.of_nat i < k ->
  padding n_points k !! i = Some (U32.sub n_points (1 + Z.of_nat i)).
Proof.
  intros H. unfold padding. change (map ?f ?l) with (f <$> l).
  rewrite list_lookup_fmap, range_lookup by lia. reflexivity.
Qed.

Lemma rank_padding_small_dataset `{RangesSort} nodes query_vec :
  (length nodes < 100)%nat ->
  rank nodes query_vec (padding (Z.of_nat (length nodes)) 100) = Undefined.
Proof.
  intros Hsmall.
  apply (rank_out_of_bounds _ _ _ (length nodes)
           (U32.sub (Z.of_nat (length nodes)) (1 + Z.of_nat (length nodes)))).
  - apply padding_lookup. lia.
  - rewrite u32_sub_wrapped by lia. lia.
Qed.

Lemma padding_NoDup n_points k :
  0 <= n_points < 2 ^ 32 -> k <= n_points -> NoDup (padding n_points k).
Proof.
  intros Hn Hk. rewrite (proj1 (padding_in_range n_points k Hn Hk)).
  change (map ?f ?l) with (f <$> l).
  apply NoDup_fmap_2; [intros a b; lia|].
  unfold range. change (map ?f ?l) with (f <$> l).
  apply NoDup_fmap_2; [intros a b; lia|apply NoDup_seq].
Qed.

(** X13. In the program as written the sample size is 0, so every row that
    is emitted is a rearrangement of the last 100 IDs of the dataset,
    [n_points - 1] down to [n_points - 100]: it has no duplicate, contains no
    other ID, and the dataset has at least 100 points. *)
Theorem rows_are_the_last_100_ids `{RangesSort}
    (nodes : list (list F32.t)) (query : list F32.t) (sample_prop : Z)
    (row : list Z) :
  Z.of_nat (length nodes) < 2 ^ 32 ->
  let n_points := U32.of_size nodes in
  sample_prop_of n_points kSampleProportion = Ok sample_prop ->
  eval_query nodes n_points sample_prop query = Ok row ->
  100 <= n_points /\
  Permutation (map (fun sampled => n_points - sampled) (range 1 101)) row /\
  NoDup row /\
  Forall (fun id => n_points - 100 <= id < n_points) row.
Proof.
  intros Hsize n_points Hs Hrow.
  rewrite sample_prop_of_zero in Hs. injection Hs as <-.
  assert (Hn : n_points = Z.of_nat (length nodes)).
  { unfold n_points, U32.of_size, U32.wrap, U32.modulus. apply Z.mod_small. lia. }
  destruct (proj2 (eval_query_ranks_inv nodes n_points 0 query) row Hrow)
    as (Hlen & knn & order & dists & Hk & Hk100 & Hperm & Htake & Hd & Hs).
  pose proof Hk as Hk'. apply padded_candidates_inv in Hk' as (found & Hq & _).
  rewrite (padded_candidates_empty_sample _ _ _ _ Hq) in Hk. injection Hk as <-.
  assert (Horder : row = order).
  { rewrite Htake. apply firstn_all2. rewrite <- (Permutation_length Hperm).
    pose proof (padding_length n_points 100). lia. }
  subst order.
  assert (Hbig : 100 <= n_points).
  { destruct (Z.le_gt_cases 100 n_points) as [?|Hsmall]; [assumption|exfalso].
    unfold eval_query in Hrow.
    rewrite (padded_candidates_empty_sample _ _ _ _ Hq) in Hrow. cbn [bind] in Hrow.
    rewrite Hn, rank_padding_small_dataset in Hrow by lia. discriminate. }
  destruct (padding_in_range n_points 100 ltac:(lia) Hbig) as [Hplain Hvalid].
  change (100 + 1) with 101 in Hplain.
  split; [exact Hbig|]. split; [now rewrite <- Hplain|]. split.
  - rewrite <- Hperm. apply padding_NoDup; lia.
  - eapply Permutation_Forall; [exact Hperm|]. rewrite Hplain.
    apply List.Forall_forall. intros id Hid.
    apply List.in_map_iff in Hid as (s & <- & Hs'). apply in_range in Hs'. lia.
Qed.

Lemma rows_are_the_last_100_ids_witness :
  100 <= U32.of_size example_nodes /\
  Permutation (map (fun sampled => U32.of_size example_nodes - sampled) (range 1 101))
              (range 0 100) /\
  NoDup (range 0 100) /\
  Forall (fun id => U32.of_size example_nodes - 100 <= id < U32.of_size example_nodes)
         (range 0 100).
Proof.
  apply (rows_are_the_last_100_ids (H:=insertion_RangesSort)
           example_nodes (example_query 1) 0 (range 0 100)).
  - vm_compute. reflexivity.
  - apply sample_prop_of_zero.
  - apply example_row.
Defined.

(** X14. Every ID of an emitted row is an index of the dataset and one of
    the candidates after padding, whatever the sample size. *)
Theorem emitted_ids_are_valid `{RangesSort}
    (nodes : list (list F32.t)) (n_points sample_prop : Z)
    (query : list F32.t) (row : list Z) :
  eval_query nodes n_points sample_prop query = Ok row ->
  exists knn,
    padded_candidates nodes n_points sample_prop query = Ok knn /\
    Forall (fun id => In id knn /\ 0 <= id < Z.of_nat (length nodes)) row.
Proof.
  intros Hrow.
  destruct (proj2 (eval_query_ranks_inv nodes n_points sample_prop query) row Hrow)
    as (Hlen & knn & order & dists & Hk & Hk100 & Hperm & Htake & Hd & Hs).
  exists knn. split; [exact Hk|].
  apply List.Forall_forall. intros id Hid.
  assert (Hin : In id order).
  { rewrite Htake in Hid. rewrite <- (take_drop 100 order).
    apply List.in_or_app. now left. }
  split; [now apply (Permutation_in _ (Permutation_sym Hperm))|].
  apply list_elem_of_In, list_elem_of_lookup_1 in Hin as [i Hi].
  destruct (Forall2_lookup_l _ _ _ _ _ Hd Hi) as (d & _ & Hdist).
  unfold dist_of in Hdist. apply bind_Ok in Hdist as (node & Hnode & _).
  apply index_Ok in Hnode as [H0 Hnode]. apply lookup_lt_Some in Hnode. lia.
Qed.

Lemma emitted_ids_are_valid_witness :
  exists knn,
    padded_candidates example_nodes 100 0 (example_query 1) = Ok knn /\
    Forall (fun id => In id knn /\ 0 <= id < Z.of_nat (length example_nodes))
           (range 0 100).
Proof.
  apply (emitted_ids_are_valid (H:=insertion_RangesSort)
           example_nodes 100 0 (example_query 1) (range 0 100)).
  apply example_row.
Defined.

(** X15. In the program as written the predicate of a query has no effect
    on its answer: two queries whose leading four fields can be read and
    that have the same feature vector are answered alike, whatever their
    kinds, equality values and bounds. *)
Theorem predicate_has_no_effect `{RangesSort}
    (nodes : list (list F32.t)) (n_points sample_prop : Z)
    (query1 query2 : list F32.t) (found1 found2 : list Z) :
  sample_prop_of n_points kSampleProportion = Ok sample_prop ->
  query_candidates nodes sample_prop query1 = Ok found1 ->
  query_candidates nodes sample_prop query2 = Ok found2 ->
  drop 4 query1 = drop 4 query2 ->
  eval_query nodes n_points sample_prop query1
  = eval_query nodes n_points sample_prop query2.
Proof.
  intros Hs H1 H2 Hfeat.
  rewrite sample_prop_of_zero in Hs. injection Hs as <-.
  unfold eval_query, query_vec_of.
  rewrite (padded_candidates_empty_sample _ _ _ _ H1).
  rewrite (padded_candidates_empty_sample _ _ _ _ H2).
  now rewrite Hfeat.
Qed.

Lemma predicate_has_no_effect_witness :
  eval_query (H:=insertion_RangesSort) example_nodes 100 0 (example_query 1)
  = eval_query (H:=insertion_RangesSort) example_nodes 100 0 (example_query 2).
Proof.
  apply (predicate_has_no_effect (H:=insertion_RangesSort)
           example_nodes 100 0 (example_query 1) (example_query 2) [] []);
    reflexivity.
Defined.

Lemma dists_of_defined (P : F32.t -> Prop) nodes query_vec knn :
  Forall (fun id => exists d, dist_of nodes query_vec id = Ok d /\ P d) knn ->
  exists dists, dists_of nodes query_vec knn = Ok dists /\ Forall P dists.
Proof.
  induction 1 as [|id knn (d & Hd & HP) _ (dists & IH & HPs)]; simpl.
  - exists []. auto.
  - rewrite Hd, IH. simpl. exists (d :: dists). auto.
Qed.

Lemma nonneg_not_nan d : nonneg d = true -> F32.is_nan d = false.
Proof. now destruct d. Qed.

Lemma query_vec_of_length query :
  (4 <= length query)%nat -> (length (query_vec_of query) + 2 = length query)%nat.
Proof. intros H. unfold query_vec_of. rewrite length_app, length_drop. simpl. lia. Qed.

Lemma eval_query_answered `{RangesSort}
    (nodes : list (list F32.t)) (query : list F32.t) (found : list Z) :
  (100 <= length nodes)%nat ->
  Z.of_nat (length nodes) < 2 ^ 32 ->
  let n_points := U32.of_size nodes in
  query_candidates nodes 0 query = Ok found ->
  Forall (fun node => (length node + 2 <= length query)%nat) nodes ->
  Forall (fun node => Forall (fun x => F32.is_finite x = true) (drop 2 node)) nodes ->
  Forall (fun x => F32.is_finite x = true) (drop 4 query) ->
  exists row,
    eval_query nodes n_points 0 query = Ok row /\ length row = 100%nat.
Proof.
  intros Hbig Hsize n_points Hq Hdims Hfin Hqfin.
  assert (Hn : n_points = Z.of_nat (length nodes)).
  { unfold n_points, U32.of_size, U32.wrap, U32.modulus. apply Z.mod_small. lia. }
  assert (H4 : (4 <= length query)%nat).
  { apply query_candidates_inv in Hq
      as (_ & _ & _ & _ & _ & r & _ & _ & _ & _ & _ & Hr & _).
    apply index_Ok in Hr as [_ Hr]. apply lookup_lt_Some in Hr. simpl in Hr. lia. }
  pose proof (padded_candidates_empty_sample nodes n_points query found Hq) as Hk.
  destruct (padding_in_range n_points 100 ltac:(lia) ltac:(lia)) as [_ Hvalid].
  destruct (dists_of_defined (fun d => F32.is_nan d = false) nodes
              (query_vec_of query) (padding n_points 100)) as (dists & Hd & Hnan).
  { eapply Forall_impl; [exact Hvalid|]. intros id Hid. simpl in Hid.
    destruct (index_in_range nodes id ltac:(lia)) as [node Hnode].
    assert (Hin : In node nodes).
    { apply index_Ok in Hnode as [_ Hnode].
      apply list_elem_of_In. eapply list_elem_of_lookup_2; eauto. }
    rewrite List.Forall_forall in Hdims, Hfin.
    pose proof (query_vec_of_length query H4) as Hql.
    unfold dist_of. rewrite Hnode. cbn [bind]. rewrite compare_with_id_sq_sum.
    destruct (sq_sum_defined (drop 2 node) (drop 2 (query_vec_of query)) F32.zero)
      as [d Hsq].
    { rewrite !length_drop. specialize (Hdims node Hin). lia. }
    exists d. split; [exact Hsq|]. apply nonneg_not_nan.
    apply (sq_sum_finite_nonneg (drop 2 node) (drop 2 (query_vec_of query)) F32.zero d);
      auto. }
  destruct (proj1 (eval_query_ranks_inv nodes n_points 0 query) _ _ Hk Hd Hnan)
    as [row Hrow].
  exists row. split; [exact Hrow|].
  now destruct (proj2 (eval_query_ranks_inv nodes n_points 0 query) row Hrow).
Qed.

(** X16. In the program as written a query is answered, with a row of 100
    IDs, whenever the dataset has at least 100 points, the four leading
    fields of the query can be read, every point has at most as many
    dimensions as the query has fields after the first two, and the feature
    values of the points and of the query are finite. *)
Theorem query_is_answered `{RangesSort}
    (nodes : list (list F32.t)) (query : list F32.t) (sample_prop : Z)
    (found : list Z) :
  (100 <= length nodes)%nat ->
  Z.of_nat (length nodes) < 2 ^ 32 ->
  let n_points := U32.of_size nodes in
  sample_prop_of n_points kSampleProportion = Ok sample_prop ->
  query_candidates nodes sample_prop query = Ok found ->
  Forall (fun node => (length node + 2 <= length query)%nat) nodes ->
  Forall (fun node => Forall (fun x => F32.is_finite x = true) (drop 2 node)) nodes ->
  Forall (fun x => F32.is_finite x = true) (drop 4 query) ->
  exists row,
    eval_query nodes n_points sample_prop query = Ok row /\ length row = 100%nat.
Proof.
  intros Hbig Hsize n_points Hs Hq.
  rewrite sample_prop_of_zero in Hs. injection Hs as <-.
  now apply (eval_query_answered nodes query found).
Qed.

Lemma query_is_answered_witness :
  exists row,
    eval_query (H:=insertion_RangesSort) example_nodes (U32.of_size example_nodes) 0
      (example_query 3) = Ok row /\ length row = 100%nat.
Proof.
  apply (query_is_answered (H:=insertion_RangesSort)
           example_nodes (example_query 3) 0 []).
  - vm_compute. lia.
  - vm_compute. reflexivity.
  - apply sample_prop_of_zero.
  - reflexivity.
  - eapply Forall_impl;
      [apply (Forall_forallb
                (fun node => (length node + 2 <=? length (example_query 3))%nat));
       vm_compute; reflexivity|].
    intros node Hn. now apply Nat.leb_le.
  - eapply Forall_impl;
      [apply (Forall_forallb (fun node => forallb F32.is_finite (drop 2 node)));
       vm_compute; reflexivity|].
    intros node Hn. now apply Forall_forallb.
  - apply Forall_forallb. vm_compute. reflexivity.
Defined.

(** ** The program *)

Lemma bind_ok_or_undefined {A B} (m : outcome A) (k : A -> outcome B) :
  ok_or_undefined m -> (forall a, ok_or_undefined (k a)) -> ok_or_undefined (bind m k).
Proof. destruct m; simpl; auto. Qed.

Lemma index_ok_or_undefined {A} (v : list A) i : ok_or_undefined (index v i).
Proof. unfold index. destruct (i <? 0); [exact I|]. now destruct (v !! Z.to_nat i). Qed.

Lemma for_each_ok_or_undefined {S} js (body : Z -> S -> outcome S) s :
  (forall j s, ok_or_undefined (body j s)) -> ok_or_undefined (for_each js body s).
Proof.
  intros Hb. revert s. induction js as [|j js IH]; intros s; simpl; [exact I|].
  apply bind_ok_or_undefined; auto.
Qed.

Lemma compare_with_id_ok_or_undefined lhs rhs : ok_or_undefined (compare_with_id lhs rhs).
Proof. rewrite compare_with_id_sq_sum. apply sq_sum_ok_or_undefined. Qed.

Lemma to_u32_ok_or_undefined x : ok_or_undefined (F32.to_u32 x).
Proof. unfold F32.to_u32. destruct (F32.trunc x); [|exact I]. now destruct (_ && _). Qed.

Lemma to_i32_ok_or_undefined x : ok_or_undefined (F32.to_i32 x).
Proof. unfold F32.to_i32. destruct (F32.trunc x); [|exact I]. now destruct (_ && _). Qed.

Lemma eq_test_ok_or_undefined nodes j value : ok_or_undefined (eq_test nodes j value).
Proof.
  unfold eq_test.
  repeat (apply bind_ok_or_undefined; [apply index_ok_or_undefined|intros ?]). exact I.
Qed.

Lemma ge_test_ok_or_undefined nodes j l_bound : ok_or_undefined (ge_test nodes j l_bound).
Proof.
  unfold ge_test.
  repeat (apply bind_ok_or_undefined; [apply index_ok_or_undefined|intros ?]). exact I.
Qed.

Lemma le_test_ok_or_undefined nodes j r_bound : ok_or_undefined (le_test nodes j r_bound).
Proof.
  unfold le_test.
  repeat (apply bind_ok_or_undefined; [apply index_ok_or_undefined|intros ?]). exact I.
Qed.

Lemma and_then_ok_or_undefined a b :
  ok_or_undefined a -> ok_or_undefined b -> ok_or_undefined (and_then a b).
Proof.
  intros Ha Hb. unfold and_then. apply bind_ok_or_undefined; [exact Ha|].
  now intros [|].
Qed.

Lemma push_if_ok_or_undefined cond j knn :
  ok_or_undefined cond -> ok_or_undefined (push_if cond j knn).
Proof. intros H. unfold push_if. apply bind_ok_or_undefined; [exact H|]. now intros ?. Qed.

Lemma candidates_ok_or_undefined nodes sample_prop query_type value l_bound r_bound :
  ok_or_undefined (candidates nodes sample_prop query_type value l_bound r_bound).
Proof.
  unfold candidates, for_range.
  repeat (destruct (_ =? _)); try exact I;
    apply for_each_ok_or_undefined; intros j s; try exact I;
    apply push_if_ok_or_undefined;
    repeat first [ apply eq_test_ok_or_undefined | apply ge_test_ok_or_undefined
                 | apply le_test_ok_or_undefined | apply and_then_ok_or_undefined ].
Qed.

Lemma eval_query_ok_or_undefined `{RangesSort} nodes n_points sample_prop query :
  ok_or_undefined (eval_query nodes n_points sample_prop query).
Proof.
  unfold eval_query, padded_candidates, query_candidates.
  apply bind_ok_or_undefined.
  - apply bind_ok_or_undefined.
    + repeat first
        [ apply candidates_ok_or_undefined
        | apply bind_ok_or_undefined;
          [first [apply index_ok_or_undefined | apply to_u32_ok_or_undefined
                 | apply to_i32_ok_or_undefined]|intros ?] ].
    + intros found. destruct (pad_total n_points found) as [knn ->]. exact I.
  - intros knn. unfold rank, for_range. apply bind_ok_or_undefined.
    + apply for_each_ok_or_undefined. intros j s.
      repeat (apply bind_ok_or_undefined; [apply index_ok_or_undefined|intros ?]).
      apply bind_ok_or_undefined; [apply compare_with_id_ok_or_undefined|now intros ?].
    + intros dists. destruct (strict_weak_orderb _ _); [|exact I].
      apply for_each_ok_or_undefined. intros j s.
      repeat (apply bind_ok_or_undefined; [apply index_ok_or_undefined|intros ?]).
      exact I.
Qed.

Lemma ReadBin_ok_or_undefined bytes d : ok_or_undefined (knn.ReadBin (Some bytes) d).
Proof.
  pose proof (ReadBin_fuel (Some bytes) d) as Hfuel.
  unfold knn.ReadBin in *. destruct (knn.read 4 _) as [hdr ifs].
  revert Hfuel. generalize (S (Z.to_nat (knn.u32_of_bytes hdr))) as fuel.
  generalize (replicate (Z.to_nat (knn.u32_of_bytes hdr)) (@nil F32.t)) as data.
  generalize 0 as counter. intros counter data fuel. revert ifs counter data.
  induction fuel as [|fuel IH]; intros ifs counter data; simpl;
    destruct (knn.read (d * 4) ifs) as [buff ifs'];
    destruct (knn.failbit ifs'); try (intros _; exact I); try congruence.
  destruct (_ && _); [|intros _; exact I].
  destruct (_ <? _); [apply IH|intros _; exact I].
Qed.

(** The loop over the queries of [main]. *)
Lemma collect_rows {Q R} (f : Q -> outcome R) (queries : list Q) (n : nat) acc res :
  (n <= length queries)%nat ->
  for_range 0 (Z.of_nat n)
    (fun i acc => do q <- index queries i; do row <- f q; Ok (acc ++ [row])) acc
  = Ok res ->
  exists rows, res = acc ++ rows /\
               Forall2 (fun q row => f q = Ok row) (take n queries) rows.
Proof.
  unfold for_range. revert res. induction n as [|n IH]; intros res Hn.
  - simpl. intros [= <-]. exists []. rewrite app_nil_r. split; [reflexivity|constructor].
  - replace (Z.of_nat (S n)) with (Z.of_nat n + 1) by lia.
    rewrite range_snoc by lia. rewrite for_each_app.
    intros H. apply bind_Ok in H as (s' & Hs' & H).
    apply IH in Hs' as (rows & -> & Hall); [|lia].
    simpl in H. apply bind_Ok in H as (s'' & H & [= <-]).
    apply bind_Ok in H as (q & Hq & H). apply bind_Ok in H as (row & Hrow & [= <-]).
    apply index_Ok in Hq as [_ Hq]. rewrite Nat2Z.id in Hq.
    exists (rows ++ [row]). split; [now rewrite app_assoc|].
    rewrite (take_S_r _ _ _ Hq). apply Forall2_app; [exact Hall|]. repeat constructor.
    exact Hrow.
Qed.

Lemma example_files :
  knn.ReadBin (Some example_source_file) 102 = Ok example_nodes /\
  knn.ReadBin (Some example_query_file) 104 = Ok example_queries.
Proof. split; vm_compute; reflexivity. Qed.

Lemma main_unfold `{RangesSort} (source_file query_file : option (list Byte.byte)) :
  main source_file query_file =
  (do nodes <- knn.ReadBin source_file 102;
   do queries <- knn.ReadBin query_file 104;
   answer_queries nodes queries).
Proof. reflexivity. Qed.

Lemma ReadBin_length file d data :
  knn.ReadBin file d = Ok data -> Z.of_nat (length data) < 2 ^ 32.
Proof.
  destruct file as [bytes|]; [|discriminate]. unfold knn.ReadBin.
  rewrite read_header. cbv beta iota zeta. fold (declared_count bytes).
  intros H. apply (read_rows_invariant (fun _ => True)) in H as [Hlen _]; [|auto].
  rewrite Hlen, length_replicate. apply declared_count_bound.
Qed.

Lemma of_size_small {A} (v : list A) :
  Z.of_nat (length v) < 2 ^ 32 -> U32.of_size v = Z.of_nat (length v).
Proof.
  intros H. unfold U32.of_size, U32.wrap, U32.modulus. apply Z.mod_small. lia.
Qed.

Lemma eval_query_length `{RangesSort} nodes n_points sample_prop query row :
  eval_query nodes n_points sample_prop query = Ok row -> length row = 100%nat.
Proof.
  intros Hrow.
  now destruct (proj2 (eval_query_ranks_inv nodes n_points sample_prop query) row Hrow).
Qed.

Lemma eval_query_small_dataset `{RangesSort} nodes query :
  (length nodes < 100)%nat ->
  eval_query nodes (Z.of_nat (length nodes)) 0 query = Undefined.
Proof.
  intros Hsmall.
  pose proof (eval_query_ok_or_undefined nodes (Z.of_nat (length nodes)) 0 query) as Hou.
  destruct (eval_query _ _ _ _) as [row| | |] eqn:E; try contradiction; [|reflexivity].
  unfold eval_query in E. apply bind_Ok in E as (knn & Hk & Hr).
  pose proof Hk as Hk'. apply padded_candidates_inv in Hk' as (found & Hq & _).
  rewrite (padded_candidates_empty_sample _ _ _ _ Hq) in Hk. injection Hk as <-.
  now rewrite rank_padding_small_dataset in Hr.
Qed.

(** The loop over the queries, when every query is answered. *)
Lemma collect_rows_defined {Q R} (f : Q -> outcome R) (queries : list Q) (n : nat) acc :
  (n <= length queries)%nat ->
  Forall (fun q => exists row, f q = Ok row) (take n queries) ->
  exists rows,
    for_range 0 (Z.of_nat n)
      (fun i acc => do q <- index queries i; do row <- f q; Ok (acc ++ [row])) acc
    = Ok (acc ++ rows) /\
    Forall2 (fun q row => f q = Ok row) (take n queries) rows.
Proof.
  unfold for_range. induction n as [|n IH]; intros Hn Hall.
  - exists []. rewrite app_nil_r. split; [reflexivity|constructor].
  - destruct (lookup_lt_is_Some_2 queries n) as [q Hq]; [lia|].
    rewrite (take_S_r _ _ _ Hq) in Hall |- *.
    apply Forall_app in Hall as [Hall Hlast].
    destruct (IH ltac:(lia) Hall) as (rows & Hloop & Hrows).
    apply Forall_cons in Hlast as [[row Hrow] _].
    exists (rows ++ [row]). split.
    + replace (Z.of_nat (S n)) with (Z.of_nat n + 1) by lia.
      rewrite range_snoc by lia. rewrite for_each_app, Hloop. simpl.
      rewrite (proj2 (index_Ok queries (Z.of_nat n) q)).
      2:{ split; [lia|now rewrite Nat2Z.id]. }
      simpl. rewrite Hrow. simpl. now rewrite app_assoc.
    + apply Forall2_app; [exact Hrows|]. repeat constructor. exact Hrow.
Qed.

Lemma answer_queries_unfold `{RangesSort} (nodes queries : list (list F32.t)) :
  Z.of_nat (length nodes) < 2 ^ 32 -> Z.of_nat (length queries) < 2 ^ 32 ->
  answer_queries nodes queries =
  (do node0 <- index nodes 0;
   do knn_results <-
     for_range 0 (Z.of_nat (length queries))
       (fun i knn_results =>
          do query <- index queries i;
          do knn_sorted <- eval_query nodes (Z.of_nat (length nodes)) 0 query;
          Ok (knn_results ++ [knn_sorted]))
       [];
   knn.SaveKNN knn_results).
Proof.
  intros Hn Hq. unfold answer_queries. cbv zeta.
  rewrite sample_prop_of_zero, !of_size_small by assumption. reflexivity.
Qed.

Lemma SaveKNN_rows (rows : list (list Z)) :
  rows <> [] -> Z.of_nat (length rows) < 2 ^ 32 ->
  Forall (fun row => length row = 100%nat) rows ->
  knn.SaveKNN rows = Ok (bytes_of_rows rows) /\
  length (bytes_of_rows rows) = (400 * length rows)%nat.
Proof.
  intros Hne Hsize Hall. destruct rows as [|first rest]; [congruence|].
  assert (H100 : Forall (fun knn => (100 <= length knn)%nat) (first :: rest)).
  { eapply Forall_impl; [exact Hall|]. simpl. lia. }
  assert (E : map (fun knn => concat (map knn.u32_bytes (take 100 knn))) (first :: rest)
              = map (fun row => concat (map knn.u32_bytes row)) (first :: rest)).
  { apply map_ext_in. intros row Hin. rewrite List.Forall_forall in Hall.
    rewrite take_ge; [reflexivity|]. rewrite (Hall row Hin). lia. }
  unfold bytes_of_rows. rewrite <- E. split.
  - rewrite SaveKNN_runs_write_rows; [|exact Hsize|now inversion Hall].
    now rewrite write_rows_ok.
  - now apply serialized_length.
Qed.

Lemma Forall2_eval_query_length `{RangesSort} nodes n_points sample_prop queries rows :
  Forall2 (fun q row => eval_query nodes n_points sample_prop q = Ok row) queries rows ->
  Forall (fun row => length row = 100%nat) rows.
Proof.
  induction 1 as [|q row queries rows Hrow _ IH]; constructor; [|exact IH].
  now apply eval_query_length in Hrow.
Qed.

Lemma answer_queries_Ok_inv `{RangesSort} (nodes queries : list (list F32.t)) bytes :
  Z.of_nat (length nodes) < 2 ^ 32 -> Z.of_nat (length queries) < 2 ^ 32 ->
  answer_queries nodes queries = Ok bytes ->
  exists rows,
    (100 <= length nodes)%nat /\ (1 <= length queries)%nat /\
    Forall2 (fun q row => eval_query nodes (Z.of_nat (length nodes)) 0 q = Ok row)
            queries rows /\
    bytes = bytes_of_rows rows /\
    length bytes = (400 * length queries)%nat.
Proof.
  intros Hn Hq. rewrite answer_queries_unfold by assumption. intros Hm.
  apply bind_Ok in Hm as (node0 & _ & Hm). apply bind_Ok in Hm as (res & Hloop & Hsave).
  apply collect_rows in Hloop as (rows & -> & Hrows); [|lia].
  rewrite take_ge in Hrows by lia. simpl in Hsave.
  pose proof (Forall2_length _ _ _ Hrows) as Hlen.
  pose proof (Forall2_eval_query_length _ _ _ _ _ Hrows) as H100.
  destruct Hrows as [|q row queries rows Hrow Hrows]; [discriminate Hsave|].
  destruct (SaveKNN_rows (row :: rows)) as [Hok Hbytes];
    [discriminate|rewrite <- Hlen; exact Hq|exact H100|].
  rewrite Hok in Hsave. injection Hsave as <-.
  exists (row :: rows). split; [|split; [simpl; lia|split; [now constructor|split]]].
  - destruct (Nat.le_gt_cases 100 (length nodes)) as [Hbig|Hsmall]; [exact Hbig|].
    now rewrite eval_query_small_dataset in Hrow.
  - reflexivity.
  - now rewrite Hbytes, Hlen.
Qed.

Lemma answer_queries_ok_or_undefined `{RangesSort} (nodes queries : list (list F32.t)) :
  Z.of_nat (length nodes) < 2 ^ 32 -> Z.of_nat (length queries) < 2 ^ 32 ->
  ok_or_undefined (answer_queries nodes queries).
Proof.
  intros Hn Hq.
  destruct (answer_queries nodes queries) as [bytes| | |] eqn:E; try exact I; exfalso;
    rewrite answer_queries_unfold in E by assumption;
    (destruct (index nodes 0) as [node0| | |] eqn:E0;
       [|pose proof (index_ok_or_undefined nodes 0) as C; now rewrite E0 in C
        |discriminate
        |pose proof (index_ok_or_undefined nodes 0) as C; now rewrite E0 in C]);
    cbn [bind] in E;
    match type of E with
    | bind ?loop _ = _ =>
        assert (Hl : ok_or_undefined loop)
          by (apply for_each_ok_or_undefined; intros j s;
              apply bind_ok_or_undefined; [apply index_ok_or_undefined|intros q];
              apply bind_ok_or_undefined; [apply eval_query_ok_or_undefined|now intros ?]);
        destruct loop as [res| | |] eqn:El; try contradiction; try discriminate
    end;
    cbn [bind] in E;
    apply collect_rows in El as (rows & -> & Hrows); try lia;
    rewrite take_ge in Hrows by lia; simpl in E;
    pose proof (Forall2_length _ _ _ Hrows) as Hlen;
    pose proof (Forall2_eval_query_length _ _ _ _ _ Hrows) as H100;
    (destruct rows as [|row rows]; [discriminate E|]);
    (destruct (SaveKNN_rows (row :: rows)) as [Hok _];
       [discriminate|rewrite <- Hlen; exact Hq|exact H100|]);
    rewrite Hok in E; discriminate E.
Qed.

Lemma answer_queries_small `{RangesSort} (nodes queries : list (list F32.t)) :
  Z.of_nat (length nodes) < 2 ^ 32 -> Z.of_nat (length queries) < 2 ^ 32 ->
  (length nodes < 100)%nat \/ queries = [] ->
  answer_queries nodes queries = Undefined.
Proof.
  intros Hn Hq Hsmall.
  pose proof (answer_queries_ok_or_undefined nodes queries Hn Hq) as Hou.
  destruct (answer_queries nodes queries) as [bytes| | |] eqn:E;
    try contradiction; [|reflexivity].
  apply answer_queries_Ok_inv in E as (rows & Hbig & Hone & _); try assumption.
  destruct Hsmall as [Hsmall| ->]; [lia|simpl in Hone; lia].
Qed.

Lemma answer_queries_defined `{RangesSort} (nodes queries : list (list F32.t)) :
  (100 <= length nodes)%nat -> Z.of_nat (length nodes) < 2 ^ 32 ->
  queries <> [] -> Z.of_nat (length queries) < 2 ^ 32 ->
  Forall (fun node => Forall (fun x => F32.is_finite x = true) (drop 2 node)) nodes ->
  Forall (fun query =>
            (exists found, query_candidates nodes 0 query = Ok found) /\
            Forall (fun node => (length node + 2 <= length query)%nat) nodes /\
            Forall (fun x => F32.is_finite x = true) (drop 4 query)) queries ->
  exists rows,
    answer_queries nodes queries = Ok (bytes_of_rows rows) /\
    Forall2 (fun q row => eval_query nodes (Z.of_nat (length nodes)) 0 q = Ok row)
            queries rows /\
    length (bytes_of_rows rows) = (400 * length queries)%nat.
Proof.
  intros Hbig Hn Hne Hq Hfin Hqs. rewrite answer_queries_unfold by assumption.
  destruct (index_in_range nodes 0 ltac:(lia)) as [node0 ->]. cbn [bind].
  destruct (collect_rows_defined
              (fun q => eval_query nodes (Z.of_nat (length nodes)) 0 q)
              queries (length queries) []) as (rows & Hloop & Hrows); [lia| |].
  { rewrite take_ge by lia. eapply Forall_impl; [exact Hqs|].
    intros query ([found Hfound] & Hdims & Hqfin). simpl.
    destruct (eval_query_answered nodes query found Hbig Hn Hfound Hdims Hfin Hqfin)
      as (row & Hrow & _).
    rewrite of_size_small in Hrow by assumption. eauto. }
  rewrite take_ge in Hrows by lia. simpl in Hloop. rewrite Hloop. cbn [bind].
  pose proof (Forall2_length _ _ _ Hrows) as Hlen.
  destruct (SaveKNN_rows rows) as [Hok Hbytes].
  - intros ->. destruct queries; [congruence|discriminate Hlen].
  - rewrite <- Hlen. exact Hq.
  - exact (Forall2_eval_query_length _ _ _ _ _ Hrows).
  - exists rows. rewrite Hok, Hbytes, Hlen. auto.
Qed.

Lemma ReadBin_rows file d data :
  knn.ReadBin file d = Ok data ->
  Forall (fun row => row = [] \/ length row = d) data.
Proof.
  destruct file as [bytes|]; [|discriminate]. unfold knn.ReadBin.
  rewrite read_header. cbv beta iota zeta.
  intros Hr.
  apply (read_rows_invariant (fun row => row = [] \/ length row = d)) in Hr as [_ Hall].
  - apply Hall, Forall_replicate. now left.
  - intros buff. right. apply floats_of_bytes_length.
Qed.

Lemma example_row_kind `{RangesSort} (kind : Z) (found : list Z) :
  query_candidates example_nodes 0 (example_query kind) = Ok found ->
  eval_query example_nodes 100 0 (example_query kind) = Ok (range 0 100).
Proof.
  intros Hq. rewrite <- example_row. unfold eval_query.
  rewrite (padded_candidates_empty_sample _ _ _ _ Hq).
  rewrite (padded_candidates_empty_sample example_nodes 100 (example_query 1) [])
    by reflexivity.
  reflexivity.
Qed.

Lemma bind_ret {A B} (a : A) (k : A -> outcome B) : bind (Ok a) k = k a.
Proof. reflexivity. Qed.

(** The outcome of [main] from the rows of the queries. *)
Lemma answer_queries_rows `{RangesSort} (nodes queries : list (list F32.t))
    (n_points : Z) (rows : list (list Z)) :
  n_points = Z.of_nat (length nodes) ->
  Z.of_nat (length nodes) < 2 ^ 32 -> Z.of_nat (length queries) < 2 ^ 32 ->
  nodes <> [] -> queries <> [] ->
  Forall2 (fun q row => eval_query nodes n_points 0 q = Ok row) queries rows ->
  answer_queries nodes queries = Ok (bytes_of_rows rows).
Proof.
  intros -> Hn Hq Hnodes Hqueries Hrows.
  rewrite answer_queries_unfold by assumption.
  destruct nodes as [|node0 nodes]; [congruence|].
  change (index (node0 :: nodes) 0) with (Ok node0). rewrite bind_ret.
  destruct (collect_rows_defined
              (fun q => eval_query (node0 :: nodes) (Z.of_nat (length (node0 :: nodes))) 0 q)
              queries (length queries) []) as (rows' & Hloop & Hrows'); [lia| |].
  { rewrite take_ge by lia. clear -Hrows. induction Hrows; constructor; eauto. }
  rewrite take_ge in Hrows' by lia.
  assert (rows' = rows) as ->.
  { clear -Hrows Hrows'. revert rows' Hrows'.
    induction Hrows as [|q row queries rows Hrow _ IH]; intros rows' Hrows';
      inversion Hrows' as [|q' row' queries' rows'' Hrow' Hrest]; subst; [reflexivity|].
    f_equal; [congruence|now apply IH]. }
  rewrite Hloop, bind_ret. rewrite app_nil_l.
  apply SaveKNN_rows.
  - intros ->. inversion Hrows. congruence.
  - now rewrite <- (Forall2_length _ _ _ Hrows).
  - exact (Forall2_eval_query_length _ _ _ _ _ Hrows).
Qed.

Lemma example_main `{RangesSort} :
  main (Some example_source_file) (Some example_query_file)
  = Ok (bytes_of_rows [range 0 100; range 0 100]).
Proof.
  rewrite main_unfold, (proj1 example_files), bind_ret, (proj2 example_files), bind_ret.
  apply (answer_queries_rows example_nodes example_queries 100).
  - vm_compute. reflexivity.
  - vm_compute. reflexivity.
  - vm_compute. reflexivity.
  - discriminate.
  - discriminate.
  - constructor; [apply example_row|].
    constructor; [|constructor].
    apply (example_row_kind 2 []). vm_compute. reflexivity.
Qed.

(** X17. Whenever [main] completes and writes a file, both input files were
    read, the dataset has at least 100 points, there is at least one query,
    every query was answered by the query loop in file order, and the output
    is the rows of 100 IDs one after the other, 400 bytes per query. *)
Theorem main_writes_one_row_per_query `{RangesSort}
    (source_file query_file : option (list Byte.byte)) (bytes : list Byte.byte) :
  main source_file query_file = Ok bytes ->
  exists nodes queries rows,
    knn.ReadBin source_file 102 = Ok nodes /\
    knn.ReadBin query_file 104 = Ok queries /\
    (100 <= length nodes)%nat /\ (1 <= length queries)%nat /\
    Forall2 (fun query row =>
               eval_query nodes (Z.of_nat (length nodes)) 0 query = Ok row)
            queries rows /\
    bytes = bytes_of_rows rows /\
    length bytes = (400 * length queries)%nat.
Proof.
  rewrite main_unfold. intros Hm.
  apply bind_Ok in Hm as (nodes & Hn & Hm). apply bind_Ok in Hm as (queries & Hq & Hm).
  apply answer_queries_Ok_inv in Hm as (rows & Hrows);
    [|exact (ReadBin_length _ _ _ Hn)|exact (ReadBin_length _ _ _ Hq)].
  exists nodes, queries, rows. auto.
Qed.

Lemma main_writes_one_row_per_query_witness :
  exists nodes queries rows,
    knn.ReadBin (Some example_source_file) 102 = Ok nodes /\
    knn.ReadBin (Some example_query_file) 104 = Ok queries /\
    (100 <= length nodes)%nat /\ (1 <= length queries)%nat /\
    Forall2 (fun query row =>
               eval_query (H:=insertion_RangesSort) nodes (Z.of_nat (length nodes)) 0 query
               = Ok row)
            queries rows /\
    bytes_of_rows [range 0 100; range 0 100] = bytes_of_rows rows /\
    length (bytes_of_rows [range 0 100; range 0 100]) = (400 * length queries)%nat.
Proof.
  apply (main_writes_one_row_per_query (H:=insertion_RangesSort)
           (Some example_source_file) (Some example_query_file)).
  apply example_main.
Defined.

(** X18. [main] stops on a failed assertion in exactly two cases: the
    dataset file cannot be opened, or the dataset was read and the query
    file cannot be opened. The assertion of [SaveKNN] on the size of the
    first row never fails in [main], and the model of [main] never runs out
    of fuel. *)
Theorem main_aborts_iff_file_missing `{RangesSort}
    (source_file query_file : option (list Byte.byte)) :
  (main source_file query_file = Aborted <->
   source_file = None \/
   (query_file = None /\ exists nodes, knn.ReadBin source_file 102 = Ok nodes)) /\
  main source_file query_file <> OutOfFuel.
Proof.
  rewrite main_unfold.
  destruct source_file as [sb|]; [|split; [split; auto|discriminate]].
  pose proof (ReadBin_ok_or_undefined sb 102) as Hs.
  destruct (knn.ReadBin (Some sb) 102) as [nodes| | |] eqn:Hn; try contradiction.
  2:{ split; [split; [discriminate|]|discriminate].
      intros [[=]|[_ [nodes [=]]]]. }
  cbn [bind]. destruct query_file as [qb|].
  2:{ split; [split; eauto|discriminate]. }
  pose proof (ReadBin_ok_or_undefined qb 104) as Hq'.
  destruct (knn.ReadBin (Some qb) 104) as [queries| | |] eqn:Hq; try contradiction.
  2:{ split; [split; [discriminate|]|discriminate]. intros [[=]|[[=] _]]. }
  cbn [bind].
  pose proof (answer_queries_ok_or_undefined nodes queries
                (ReadBin_length _ _ _ Hn) (ReadBin_length _ _ _ Hq)) as Hou.
  destruct (answer_queries nodes queries); try contradiction;
    (split; [split; [discriminate|]|discriminate]); intros [[=]|[[=] _]].
Qed.

(** X19. With both files read, a dataset of fewer than 100 points, an empty
    one included, or a query file that declares no query makes [main]
    undefined: the first element of an empty vector is taken, or the padding
    indexes the dataset out of bounds. *)
Theorem main_needs_100_points_and_a_query `{RangesSort}
    (source_file query_file : option (list Byte.byte))
    (nodes queries : list (list F32.t)) :
  knn.ReadBin source_file 102 = Ok nodes ->
  knn.ReadBin query_file 104 = Ok queries ->
  (length nodes < 100)%nat \/ queries = [] ->
  main source_file query_file = Undefined.
Proof.
  intros Hn Hq Hsmall. rewrite main_unfold, Hn, Hq. cbn [bind].
  apply answer_queries_small;
    [exact (ReadBin_length _ _ _ Hn)|exact (ReadBin_length _ _ _ Hq)|exact Hsmall].
Qed.

Lemma main_needs_100_points_and_a_query_witness :
  main (H:=insertion_RangesSort) (Some (file_of [example_node 7]))
       (Some example_query_file) = Undefined /\
  main (H:=insertion_RangesSort) (Some example_source_file) (Some (knn.u32_bytes 0))
  = Undefined.
Proof.
  split.
  - apply (main_needs_100_points_and_a_query (H:=insertion_RangesSort)
             (Some (file_of [example_node 7])) (Some example_query_file)
             [example_node 7] example_queries).
    + vm_compute. reflexivity.
    + vm_compute. reflexivity.
    + left. simpl. lia.
  - apply (main_needs_100_points_and_a_query (H:=insertion_RangesSort)
             (Some example_source_file) (Some (knn.u32_bytes 0)) example_nodes []).
    + vm_compute. reflexivity.
    + vm_compute. reflexivity.
    + now right.
Defined.

(** X20. The program of [glasshouse/src/baseline.cpp] behaves as [main] of
    [src/baseline.cpp] on every pair of files, and its helper
    [read_points_and_queries] returns exactly when both calls of [ReadBin]
    return, with their two results. *)
Theorem glasshouse_main_is_main `{RangesSort}
    (source_file query_file : option (list Byte.byte)) :
  glasshouse.main source_file query_file = main source_file query_file /\
  forall (node_dimensions query_dimensions : Z) (pq : glasshouse.PointsAndQueries),
    glasshouse.read_points_and_queries source_file query_file
      node_dimensions query_dimensions = Ok pq <->
    knn.ReadBin source_file (Z.to_nat node_dimensions) = Ok (glasshouse.nodes pq) /\
    knn.ReadBin query_file (Z.to_nat query_dimensions) = Ok (glasshouse.queries pq).
Proof.
  split.
  - rewrite main_unfold. unfold glasshouse.main, glasshouse.read_points_and_queries.
    change (Z.to_nat kNumDataDimensions) with 102%nat.
    change (Z.to_nat glasshouse.kNumQueryDimensions) with 104%nat.
    destruct (knn.ReadBin source_file 102) as [nodes| | |]; try reflexivity.
    destruct (knn.ReadBin query_file 104) as [queries| | |]; reflexivity.
  - intros d1 d2 [pq_nodes pq_queries]. unfold glasshouse.read_points_and_queries.
    cbn [glasshouse.nodes glasshouse.queries]. split.
    + intros Hr. apply bind_Ok in Hr as (ns & Hn & Hr).
      apply bind_Ok in Hr as (qs & Hq & [= <- <-]). auto.
    + intros [-> ->]. reflexivity.
Qed.

(** X21. [main] answers every query when both files are read, the dataset
    has at least 100 points, there is a query, the four leading fields of
    every query can be read and converted, and the feature values of the
    points and of the queries are finite: it writes 400 bytes per query. *)
Theorem main_answers_finite_input `{RangesSort}
    (source_file query_file : option (list Byte.byte))
    (nodes queries : list (list F32.t)) :
  knn.ReadBin source_file 102 = Ok nodes ->
  knn.ReadBin query_file 104 = Ok queries ->
  (100 <= length nodes)%nat -> queries <> [] ->
  Forall (fun node => Forall (fun x => F32.is_finite x = true) (drop 2 node)) nodes ->
  Forall (fun query =>
            (exists found, query_candidates nodes 0 query = Ok found) /\
            Forall (fun x => F32.is_finite x = true) (drop 4 query)) queries ->
  exists rows,
    main source_file query_file = Ok (bytes_of_rows rows) /\
    length rows = length queries /\
    length (bytes_of_rows rows) = (400 * length queries)%nat.
Proof.
  intros Hn Hq Hbig Hne Hfin Hqs. rewrite main_unfold, Hn, Hq. cbn [bind].
  pose proof (ReadBin_rows _ _ _ Hn) as Hnrows.
  pose proof (ReadBin_rows _ _ _ Hq) as Hqrows.
  destruct (answer_queries_defined nodes queries) as (rows & Hok & Hrows & Hlen);
    try assumption.
  - exact (ReadBin_length _ _ _ Hn).
  - exact (ReadBin_length _ _ _ Hq).
  - rewrite List.Forall_forall in Hqs, Hqrows. apply List.Forall_forall.
    intros query Hin. destruct (Hqs query Hin) as [[found Hfound] Hqfin].
    split; [eauto|split; [|exact Hqfin]].
    assert (Hlq : length query = 104%nat).
    { destruct (Hqrows query Hin) as [->|Hl]; [discriminate Hfound|exact Hl]. }
    eapply Forall_impl; [exact Hnrows|]. intros node [->|Hl]; simpl; lia.
  - exists rows. split; [exact Hok|split; [|exact Hlen]].
    symmetry. exact (Forall2_length _ _ _ Hrows).
Qed.

Lemma main_answers_finite_input_witness :
  exists rows,
    main (H:=insertion_RangesSort) (Some example_source_file) (Some example_query_file)
    = Ok (bytes_of_rows rows) /\
    length rows = length example_queries /\
    length (bytes_of_rows rows) = (400 * length example_queries)%nat.
Proof.
  apply (main_answers_finite_input (H:=insertion_RangesSort)
           (Some example_source_file) (Some example_query_file)
           example_nodes example_queries).
  - vm_compute. reflexivity.
  - vm_compute. reflexivity.
  - vm_compute. lia.
  - discriminate.
  - eapply Forall_impl;
      [apply (Forall_forallb (fun node => forallb F32.is_finite (drop 2 node)));
       vm_compute; reflexivity|].
    intros node Hnode. now apply Forall_forallb.
  - constructor; [|constructor; [|constructor]].
    + split; [exists []; reflexivity|apply Forall_forallb; vm_compute; reflexivity].
    + split; [exists []; reflexivity|apply Forall_forallb; vm_compute; reflexivity].
Defined.
